(** * vertex.js: the fiber reconciler, the template helpers and the router

    A shallow embedding of the reconciler of [src/vertex.js] (scheduler,
    per-fiber work, reconciliation, commit phase and hooks) and the proofs
    of its specification, followed by the helpers of the template engine
    ([escHtml], [resolvePath]) and the route table of the hash router.

    Conventions of the embedding.
    - JavaScript objects that the code mutates and shares (fibers, hook
      objects, reducer cells, DOM nodes) live in stores indexed by address;
      a reference is the address, [null]/[undefined] references are [None].
    - Module-level variables of the source are the fields of [state].
    - Code that can throw runs in the monad [M], which keeps the state that
      was reached when the exception was raised.
    - Loops that follow pointers take their bound from the parameter
      [fuel]; running out of it is the result [OutOfFuel].
    - Objects used as dictionaries are association lists in insertion
      order; keys are assumed not to name members of [Object.prototype].
      Where a theorem depends on it, the assumption is a hypothesis
      ([plain_key]).
    - A string is a sequence of code units; the model has the code units
      below 256.  A number is an integer.
    - A node is the record of what the reconciler did to it: the value it
      assigned last to each property, the listeners it attached, the
      children it appended and removed.  What the host does on the
      assignment of a property (parsing [innerHTML], say) is not modelled.
    - Effects and cleanups are user functions that are called for what
      they return: they are taken to return without calling [render] or
      a dispatch function and without throwing.  A component may throw,
      and is taken not to call [render] or a dispatch function while it
      is rendered.  The call of an effect or a cleanup is an event of the
      trace. *)

From Stdlib Require Import Ascii.
From stdpp Require Import prelude strings gmap pretty sorting.

Open Scope string_scope.
Open Scope list_scope.
Open Scope nat_scope.
Set Warnings "-register-all,-clear-no-such-hyp".

(** ** JavaScript values *)

Inductive value :=
| VUndefined
| VNull
| VBool (b : bool)
| VNum (n : Z)
| VNaN
| VStr (s : string)
| VObj (a : nat)      (* a plain object, known by its identity only *)
| VRefBox (h : nat)   (* the object returned by useRef: hook object [h] *)
| VNode (n : nat)     (* a DOM node *)
| VFun (f : nat).     (* a function, known by its identity *)

Global Instance value_eq_dec : EqDecision value.
Proof. solve_decision. Defined.

Inductive jstype := TUndefined | TObject | TBoolean | TNumber | TString | TFunction.

Global Instance jstype_eq_dec : EqDecision jstype.
Proof. solve_decision. Defined.

Definition typeof (v : value) : jstype :=
  match v with
  | VUndefined => TUndefined
  | VNull | VObj _ | VRefBox _ | VNode _ => TObject
  | VBool _ => TBoolean
  | VNum _ | VNaN => TNumber
  | VStr _ => TString
  | VFun _ => TFunction
  end.

(** [a === b] *)
Definition strict_eq (a b : value) : bool :=
  match a with
  | VNaN => false
  | _ => bool_decide (a = b)
  end.

(** ToBoolean *)
Definition truthy (v : value) : bool :=
  match v with
  | VUndefined | VNull | VBool false | VNaN => false
  | VNum n => negb (n =? 0)%Z
  | VStr s => negb (bool_decide (s = ""))
  | _ => true
  end.

(** [v != null] *)
Definition not_nullish (v : value) : bool :=
  match v with
  | VUndefined | VNull => false
  | _ => true
  end.

(** [String(v)].  A number is an integer, printed in full, as [String]
    prints the integers below 10^21 in absolute value; objects print with
    the default [toString]; the source text of a function is represented
    by its identity, and every node prints as an element without a
    special interface.  [printable] below is the set of values on which
    this is what [String] returns. *)
Definition to_String (v : value) : string :=
  match v with
  | VUndefined => "undefined"
  | VNull => "null"
  | VBool true => "true"
  | VBool false => "false"
  | VNum n => pretty n
  | VNaN => "NaN"
  | VStr s => s
  | VObj _ | VRefBox _ => "[object Object]"
  | VNode _ => "[object HTMLElement]"
  | VFun f => "function f" +:+ pretty f
  end.

(** The values that [to_String] prints as [String] does *)
Definition printable (v : value) : bool :=
  match v with
  | VNum n => (Z.abs n <? 10 ^ 21)%Z
  | VFun _ | VNode _ => false
  | _ => true
  end.

(** ** Objects used as dictionaries

    An object that the code uses as a dictionary ([keyMap], a props
    object) is an association list here.  The two agree on the property
    names that are not members of [Object.prototype]: a read of such a
    member on a plain object finds the inherited value, and an assignment
    to [__proto__] sets the prototype instead of storing an entry. *)

Definition Object_prototype_names : list string :=
  ["constructor"; "__defineGetter__"; "__defineSetter__"; "hasOwnProperty";
   "__lookupGetter__"; "__lookupSetter__"; "isPrototypeOf";
   "propertyIsEnumerable"; "toString"; "valueOf"; "__proto__"; "toLocaleString"].

(** A key on which [keyMap] is a dictionary: [String] of it is what
    [to_String] gives, and that is no member of [Object.prototype]. *)
Definition plain_key (k : value) : bool :=
  printable k && bool_decide (to_String k ∉ Object_prototype_names).

Section alist.
Context {A : Type}.

Fixpoint alist_get (k : string) (l : list (string * A)) : option A :=
  match l with
  | [] => None
  | (k', v) :: l' => if decide (k = k') then Some v else alist_get k l'
  end.

(** [o[k] = v]: an existing property keeps its place *)
Fixpoint alist_set (k : string) (v : A) (l : list (string * A)) : list (string * A) :=
  match l with
  | [] => [(k, v)]
  | (k', v') :: l' =>
      if decide (k = k') then (k, v) :: l' else (k', v') :: alist_set k v l'
  end.

(** [delete o[k]] *)
Definition alist_del (k : string) (l : list (string * A)) : list (string * A) :=
  filter (λ kv, kv.1 ≠ k) l.
End alist.

(** ** Tree descriptions *)

Inductive etype :=
| Host (tag : string)   (* a native tag; text is the tag TEXT_ELEMENT *)
| Comp (c : nat).       (* a component function, known by its identity *)

Global Instance etype_eq_dec : EqDecision etype.
Proof. solve_decision. Defined.

(** What can stand in child position: a description
    [{type, props: {...attrs, children}}], an array, or any other value. *)
Inductive child :=
| CVal (v : value)
| CArr (items : list child)
| CElem (type : etype) (attrs : list (string * value)) (children : list child).

(** A props object: [children] is kept apart from the other own
    properties, which stay in insertion order. *)
Record props := Props {
  p_attrs : list (string * value);
  p_children : list child
}.

Definition prop (k : string) (p : props) : value :=
  default VUndefined (alist_get k (p_attrs p)).

Definition TEXT_ELEMENT : etype := Host "TEXT_ELEMENT".

Definition createTextElement (text : string) : child :=
  CElem TEXT_ELEMENT [("nodeValue", VStr text)] [].

(** [typeof c === 'object'] for a value in child position *)
Definition child_is_object (c : child) : bool :=
  match c with
  | CVal v => bool_decide (typeof v = TObject)
  | _ => true
  end.

(** [c === null || c === undefined || c === false] *)
Definition dropped (c : child) : bool :=
  match c with
  | CVal VNull | CVal VUndefined | CVal (VBool false) => true
  | _ => false
  end.

(** [String(c)], only used on values that are not objects *)
Definition child_to_String (c : child) : string :=
  match c with
  | CVal v => to_String v
  | _ => "[object Object]"
  end.

(** [typeof c === 'object' ? c : createTextElement(String(c))] *)
Definition text_or_object (c : child) : child :=
  if child_is_object c then c else createTextElement (child_to_String c).

(** One turn of the loop of flatPush (and of the argument loop of
    createElement, which has the same body): what becomes of [out]. *)
Fixpoint flatPush_item (out : list child) (c : child) {struct c} : list child :=
  if dropped c then out
  else match c with
       | CArr items => fold_left flatPush_item items out
       | _ => out ++ [text_or_object c]
       end.

Definition flatPush (out : list child) (arr : list child) : list child :=
  fold_left flatPush_item arr out.

Definition createElement (type : etype) (attrs : list (string * value))
    (args : list child) : child :=
  CElem type (alist_del "children" attrs) (flatPush [] args).

(** flattenChildren(output); the array [arr] is [output] itself or
    [[output]], and [result] is built by appending. *)
Fixpoint flattenChildren (output : child) : list child :=
  match output with
  | CArr items =>
      flat_map (λ c, if dropped c then []
                     else match c with
                          | CArr _ => flattenChildren c
                          | _ => [c]
                          end) items
  | _ => if dropped output then [] else [output]
  end.

(** ** The output nodes (DOM) *)

Inductive node_kind := TextNode | Element (name : string).

(** The record of what the reconciler did to a node: the value assigned
    last to each property with [dom[k] = v], the sequence of values
    applied to [dom.style] since it was last cleared, the table [_vxev]
    of listener targets, the event names a proxy listener was attached
    for, and the child nodes as appendChild and removeChild leave them.
    The host's own reaction to the assignment of a property is not part
    of the record. *)
Record node := Node {
  n_kind : node_kind;
  n_props : gmap string value;
  n_style : list value;
  n_vxev : option (gmap string value);
  n_listeners : list string;
  n_children : list nat
}.

Definition new_node (k : node_kind) : node :=
  Node k ∅ [] None [] [].

Definition set_n_props (f : gmap string value → gmap string value) (d : node) : node :=
  Node (n_kind d) (f (n_props d)) (n_style d) (n_vxev d) (n_listeners d) (n_children d).
Definition set_n_style (f : list value → list value) (d : node) : node :=
  Node (n_kind d) (n_props d) (f (n_style d)) (n_vxev d) (n_listeners d) (n_children d).
Definition set_n_vxev (x : option (gmap string value)) (d : node) : node :=
  Node (n_kind d) (n_props d) (n_style d) x (n_listeners d) (n_children d).
Definition set_n_listeners (f : list string → list string) (d : node) : node :=
  Node (n_kind d) (n_props d) (n_style d) (n_vxev d) (f (n_listeners d)) (n_children d).
Definition set_n_children (f : list nat → list nat) (d : node) : node :=
  Node (n_kind d) (n_props d) (n_style d) (n_vxev d) (n_listeners d) (f (n_children d)).

(** 'on' prefix and at least one more character *)
Definition isEventProp (k : string) : bool :=
  match k with
  | String a (String b (String _ _)) =>
      bool_decide (a = "o"%char) && bool_decide (b = "n"%char)
  | _ => false
  end.

Definition isRealProp (k : string) : bool :=
  negb (bool_decide (k = "children")) && negb (bool_decide (k = "ref"))
  && negb (isEventProp k).

(** The lower case of one code unit below 256: the capital letters are
    those of ASCII and those of Latin-1, U+00C0 to U+00DE without the
    multiplication sign U+00D7; the small letter is 32 further on. *)
Definition lower_ascii (c : Ascii.ascii) : Ascii.ascii :=
  let n := Ascii.nat_of_ascii c in
  if ((65 <=? n) && (n <=? 90)
      || (192 <=? n) && (n <=? 222) && negb (n =? 215))%nat
  then Ascii.ascii_of_nat (n + 32) else c.

(** [s.toLowerCase()] *)
Fixpoint toLowerCase (s : string) : string :=
  match s with
  | EmptyString => EmptyString
  | String c s' => String (lower_ascii c) (toLowerCase s')
  end.

(** [k.slice(2).toLowerCase()] *)
Definition event_name (k : string) : string :=
  match k with
  | String _ (String _ rest) => toLowerCase rest
  | _ => ""
  end.

Definition setStableListener (dom : node) (evName : string) (fn : value) : node :=
  let vxev := default ∅ (n_vxev dom) in
  if decide (is_Some (vxev !! evName))
  then set_n_vxev (Some (<[evName := fn]> vxev)) dom
  else set_n_listeners (λ l, l ++ [evName])
         (set_n_vxev (Some (<[evName := fn]> vxev)) dom).

(** Pass 1 of patchDom, one key [k] of [prev]. The branch for
    [className] assigns [dom.className], which is [dom[k]] for that key. *)
Definition patch_remove (next : list (string * value)) (dom : node) (k : string) : node :=
  if negb (isRealProp k) then
    if isEventProp k then
      match alist_get k next, n_vxev dom with
      | None, Some vxev => set_n_vxev (Some (<[event_name k := VNull]> vxev)) dom
      | _, _ => dom
      end
    else dom
  else
    match alist_get k next with
    | Some _ => dom
    | None =>
        if decide (k = "style") then set_n_style (λ _, []) dom
        else set_n_props (<[k := VStr ""]>) dom
    end.

(** Pass 2 of patchDom, one entry [k], [next[k]] of [next]. Assigning
    [dom.style] a value that is not an object replaces the style text;
    [Object.assign(dom.style, null)] changes nothing. *)
Definition patch_apply (prev : list (string * value)) (dom : node)
    (kv : string * value) : node :=
  let '(k, v) := kv in
  if negb (isRealProp k) then
    if isEventProp k then setStableListener dom (event_name k) v else dom
  else if strict_eq (default VUndefined (alist_get k prev)) v then dom
  else if decide (k = "style") then
    if decide (typeof v = TObject)
    then (if decide (v = VNull) then dom else set_n_style (λ l, l ++ [v]) dom)
    else set_n_style (λ _, [v]) dom
  else set_n_props (<[k := v]>) dom.

(** patchDom(dom, prev, next) when both property sets are objects. The
    key [children] of either object is skipped by both passes, so the
    loops run over the other properties. *)
Definition patchDom (dom : node) (prev next : list (string * value)) : node :=
  let dom1 := fold_left (patch_remove next) (prev.*1) dom in
  fold_left (patch_apply prev) next dom1.

(** ** Fibers, hooks and the module state *)

Inductive tag := PLACEMENT | UPDATE | DELETION.

Global Instance tag_eq_dec : EqDecision tag.
Proof. solve_decision. Defined.

(** The [deps] argument of useEffect, useMemo and useCallback: an array,
    or [undefined] (no argument given) or [null] *)
Inductive deplist :=
| NoDeps
| NullDeps
| DepList (ds : list value).

Global Instance deplist_eq_dec : EqDecision deplist.
Proof. solve_decision. Defined.

(** A hook object is one of the four shapes the hooks build. A property
    read on a shape that lacks it gives [undefined]. *)
Inductive hook :=
| HState (state : value) (cell : nat)           (* { state, _cell } *)
| HEffect (deps : deplist) (cleanup : value)    (* { deps, cleanup } *)
| HMemo (val : value) (deps : deplist)          (* { value, deps } *)
| HRef.                                         (* { current } *)

Definition hook_cell (h : hook) : option nat :=
  match h with HState _ c => Some c | _ => None end.
Definition hook_state (h : hook) : value :=
  match h with HState s _ => s | _ => VUndefined end.
Definition hook_deps (h : hook) : deplist :=
  match h with HEffect d _ | HMemo _ d => d | _ => NoDeps end.
Definition hook_cleanup (h : hook) : value :=
  match h with HEffect _ c => c | _ => VUndefined end.
Definition hook_value (h : hook) : value :=
  match h with HMemo v _ => v | _ => VUndefined end.

(** The stable cell of a state hook; its dispatch function is known by the
    address of the cell it closes over. *)
Record cell := Cell {
  queue : list value;
  has_dispatch : bool
}.

(** An entry of [_pendingEffects] and of [pendingEffects] *)
Record effect_item := EffectItem {
  ei_effect : nat;          (* the effect function *)
  ei_oldCleanup : value;
  ei_hook : nat             (* the hook object the new cleanup is written to *)
}.

Record fiber := Fiber {
  f_type : option etype;
  f_props : option props;
  f_dom : option nat;
  f_parent : option nat;
  f_child : option nat;
  f_sibling : option nat;
  f_alternate : option nat;
  f_effectTag : option tag;
  f_hooks : option (list (option nat));
  f_contextMap : option (gmap nat value);
  f_ctxProvide : option (gmap nat value);
  f_pendingEffects : option (list effect_item)
}.

Definition set_f_dom (x : option nat) (f : fiber) : fiber :=
  Fiber (f_type f) (f_props f) x (f_parent f) (f_child f) (f_sibling f)
    (f_alternate f) (f_effectTag f) (f_hooks f) (f_contextMap f) (f_ctxProvide f)
    (f_pendingEffects f).
Definition set_f_child (x : option nat) (f : fiber) : fiber :=
  Fiber (f_type f) (f_props f) (f_dom f) (f_parent f) x (f_sibling f)
    (f_alternate f) (f_effectTag f) (f_hooks f) (f_contextMap f) (f_ctxProvide f)
    (f_pendingEffects f).
Definition set_f_sibling (x : option nat) (f : fiber) : fiber :=
  Fiber (f_type f) (f_props f) (f_dom f) (f_parent f) (f_child f) x
    (f_alternate f) (f_effectTag f) (f_hooks f) (f_contextMap f) (f_ctxProvide f)
    (f_pendingEffects f).
Definition set_f_effectTag (x : option tag) (f : fiber) : fiber :=
  Fiber (f_type f) (f_props f) (f_dom f) (f_parent f) (f_child f) (f_sibling f)
    (f_alternate f) x (f_hooks f) (f_contextMap f) (f_ctxProvide f)
    (f_pendingEffects f).
Definition set_f_hooks (x : option (list (option nat))) (f : fiber) : fiber :=
  Fiber (f_type f) (f_props f) (f_dom f) (f_parent f) (f_child f) (f_sibling f)
    (f_alternate f) (f_effectTag f) x (f_contextMap f) (f_ctxProvide f)
    (f_pendingEffects f).
Definition set_f_contextMap (x : option (gmap nat value)) (f : fiber) : fiber :=
  Fiber (f_type f) (f_props f) (f_dom f) (f_parent f) (f_child f) (f_sibling f)
    (f_alternate f) (f_effectTag f) (f_hooks f) x (f_ctxProvide f)
    (f_pendingEffects f).
Definition set_f_ctxProvide (x : option (gmap nat value)) (f : fiber) : fiber :=
  Fiber (f_type f) (f_props f) (f_dom f) (f_parent f) (f_child f) (f_sibling f)
    (f_alternate f) (f_effectTag f) (f_hooks f) (f_contextMap f) x
    (f_pendingEffects f).
Definition set_f_pendingEffects (x : option (list effect_item)) (f : fiber) : fiber :=
  Fiber (f_type f) (f_props f) (f_dom f) (f_parent f) (f_child f) (f_sibling f)
    (f_alternate f) (f_effectTag f) (f_hooks f) (f_contextMap f) (f_ctxProvide f) x.

(** The root objects [{ dom, props, alternate }] built by render and
    scheduleUpdate *)
Definition root_fiber (dom : option nat) (p : option props) (alt : option nat) : fiber :=
  Fiber None p dom None None None alt None None None None None.

(** What the run did to the outside, in order. *)
Inductive event :=
| EvCreate (n : nat)          (* document.createElement / createTextNode *)
| EvAppend (p c : nat)        (* p.appendChild(c) *)
| EvRemove (p c : nat)        (* p.removeChild(c) *)
| EvPatch (n : nat)           (* patchDom on node n during commit *)
| EvCall (f : nat)            (* a user function called for its value *)
| EvCleanup (f : nat)         (* a cleanup handle called *)
| EvEffect (f : nat)          (* an effect body called *)
| EvSwap (root : nat).        (* curRoot = wipRoot *)

Global Instance event_eq_dec : EqDecision event.
Proof. solve_decision. Defined.

(** The cleanup handles called, the effect bodies called, the nodes
    created and the removals made in a trace, in order *)
Definition cleanups_in (t : list event) : list nat :=
  omap (λ e, match e with EvCleanup f => Some f | _ => None end) t.
Definition effects_in (t : list event) : list nat :=
  omap (λ e, match e with EvEffect f => Some f | _ => None end) t.
Definition creations_in (t : list event) : list nat :=
  omap (λ e, match e with EvCreate n => Some n | _ => None end) t.
Definition removals_in (t : list event) : list (nat * nat) :=
  omap (λ e, match e with EvRemove p c => Some (p, c) | _ => None end) t.

Record state := State {
  fibers : list fiber;
  hooks : list hook;
  cells : list cell;
  nodes : list node;
  boxes : list (value * value);   (* the property [current] of objects *)
  nextUnit : option nat;
  wipRoot : option nat;
  curRoot : option nat;
  deletions : list nat;
  wipFiber : option nat;
  hookIdx : nat;
  pendingEffects : list effect_item;
  scheduled : bool;
  idle_requests : nat;            (* ric(workLoop) calls not yet served *)
  trace : list event
}.

Definition set_fibers (f : list fiber → list fiber) (s : state) : state :=
  State (f (fibers s)) (hooks s) (cells s) (nodes s) (boxes s) (nextUnit s)
    (wipRoot s) (curRoot s) (deletions s) (wipFiber s) (hookIdx s)
    (pendingEffects s) (scheduled s) (idle_requests s) (trace s).
Definition set_hooks (f : list hook → list hook) (s : state) : state :=
  State (fibers s) (f (hooks s)) (cells s) (nodes s) (boxes s) (nextUnit s)
    (wipRoot s) (curRoot s) (deletions s) (wipFiber s) (hookIdx s)
    (pendingEffects s) (scheduled s) (idle_requests s) (trace s).
Definition set_cells (f : list cell → list cell) (s : state) : state :=
  State (fibers s) (hooks s) (f (cells s)) (nodes s) (boxes s) (nextUnit s)
    (wipRoot s) (curRoot s) (deletions s) (wipFiber s) (hookIdx s)
    (pendingEffects s) (scheduled s) (idle_requests s) (trace s).
Definition set_nodes (f : list node → list node) (s : state) : state :=
  State (fibers s) (hooks s) (cells s) (f (nodes s)) (boxes s) (nextUnit s)
    (wipRoot s) (curRoot s) (deletions s) (wipFiber s) (hookIdx s)
    (pendingEffects s) (scheduled s) (idle_requests s) (trace s).
Definition set_boxes (f : list (value * value) → list (value * value)) (s : state) : state :=
  State (fibers s) (hooks s) (cells s) (nodes s) (f (boxes s)) (nextUnit s)
    (wipRoot s) (curRoot s) (deletions s) (wipFiber s) (hookIdx s)
    (pendingEffects s) (scheduled s) (idle_requests s) (trace s).
Definition set_nextUnit (x : option nat) (s : state) : state :=
  State (fibers s) (hooks s) (cells s) (nodes s) (boxes s) x
    (wipRoot s) (curRoot s) (deletions s) (wipFiber s) (hookIdx s)
    (pendingEffects s) (scheduled s) (idle_requests s) (trace s).
Definition set_wipRoot (x : option nat) (s : state) : state :=
  State (fibers s) (hooks s) (cells s) (nodes s) (boxes s) (nextUnit s)
    x (curRoot s) (deletions s) (wipFiber s) (hookIdx s)
    (pendingEffects s) (scheduled s) (idle_requests s) (trace s).
Definition set_curRoot (x : option nat) (s : state) : state :=
  State (fibers s) (hooks s) (cells s) (nodes s) (boxes s) (nextUnit s)
    (wipRoot s) x (deletions s) (wipFiber s) (hookIdx s)
    (pendingEffects s) (scheduled s) (idle_requests s) (trace s).
Definition set_deletions (f : list nat → list nat) (s : state) : state :=
  State (fibers s) (hooks s) (cells s) (nodes s) (boxes s) (nextUnit s)
    (wipRoot s) (curRoot s) (f (deletions s)) (wipFiber s) (hookIdx s)
    (pendingEffects s) (scheduled s) (idle_requests s) (trace s).
Definition set_wipFiber (x : option nat) (s : state) : state :=
  State (fibers s) (hooks s) (cells s) (nodes s) (boxes s) (nextUnit s)
    (wipRoot s) (curRoot s) (deletions s) x (hookIdx s)
    (pendingEffects s) (scheduled s) (idle_requests s) (trace s).
Definition set_hookIdx (x : nat) (s : state) : state :=
  State (fibers s) (hooks s) (cells s) (nodes s) (boxes s) (nextUnit s)
    (wipRoot s) (curRoot s) (deletions s) (wipFiber s) x
    (pendingEffects s) (scheduled s) (idle_requests s) (trace s).
Definition set_pendingEffects (f : list effect_item → list effect_item) (s : state) : state :=
  State (fibers s) (hooks s) (cells s) (nodes s) (boxes s) (nextUnit s)
    (wipRoot s) (curRoot s) (deletions s) (wipFiber s) (hookIdx s)
    (f (pendingEffects s)) (scheduled s) (idle_requests s) (trace s).
Definition set_scheduled (x : bool) (s : state) : state :=
  State (fibers s) (hooks s) (cells s) (nodes s) (boxes s) (nextUnit s)
    (wipRoot s) (curRoot s) (deletions s) (wipFiber s) (hookIdx s)
    (pendingEffects s) x (idle_requests s) (trace s).
Definition set_idle_requests (f : nat → nat) (s : state) : state :=
  State (fibers s) (hooks s) (cells s) (nodes s) (boxes s) (nextUnit s)
    (wipRoot s) (curRoot s) (deletions s) (wipFiber s) (hookIdx s)
    (pendingEffects s) (scheduled s) (f (idle_requests s)) (trace s).
Definition set_trace (f : list event → list event) (s : state) : state :=
  State (fibers s) (hooks s) (cells s) (nodes s) (boxes s) (nextUnit s)
    (wipRoot s) (curRoot s) (deletions s) (wipFiber s) (hookIdx s)
    (pendingEffects s) (scheduled s) (idle_requests s) (f (trace s)).

(** The state when the script has loaded, with the nodes of the page *)
Definition initial_state (page : list node) : state :=
  State [] [] [] page [] None None None [] None 0 [] false 0 [].

(** ** Computations that read and write the state and may throw *)

Inductive exn :=
| TypeError (msg : string)
| NotFoundError              (* removeChild of a node that is not a child *)
| InvalidCharacterError      (* createElement of a name that is no element name *)
| Thrown (v : value)         (* a value thrown by a component *)
| BadAddress                 (* a reference to an object that was never made *)
| OutOfFuel.

Inductive res (A : Type) :=
| Val (a : A)
| Exn (e : exn).
Arguments Val {A} a.
Arguments Exn {A} e.

Definition M (A : Type) : Type := state → res A * state.

Definition ret {A} (a : A) : M A := λ st, (Val a, st).
Definition throw {A} (e : exn) : M A := λ st, (Exn e, st).
Definition bind {A B} (m : M A) (k : A → M B) : M B :=
  λ st, match m st with
        | (Val a, st') => k a st'
        | (Exn e, st') => (Exn e, st')
        end.

Notation "'let*' x ':=' m 'in' k" := (bind m (λ x, k))
  (at level 10, x pattern, m at level 100, k at level 200).

Definition get : M state := λ st, (Val st, st).
Definition modify (f : state → state) : M unit := λ st, (Val (), f st).
Definition emit (e : event) : M unit := modify (set_trace (λ t, t ++ [e])).

Definition read_fiber (a : nat) : M fiber :=
  λ st, match fibers st !! a with
        | Some f => (Val f, st)
        | None => (Exn BadAddress, st)
        end.
Definition write_fiber (a : nat) (g : fiber → fiber) : M unit :=
  modify (set_fibers (alter g a)).
Definition new_fiber (f : fiber) : M nat :=
  λ st, (Val (length (fibers st)), set_fibers (λ l, l ++ [f]) st).

Definition read_hook (a : nat) : M hook :=
  λ st, match hooks st !! a with
        | Some h => (Val h, st)
        | None => (Exn BadAddress, st)
        end.
Definition new_hook (h : hook) : M nat :=
  λ st, (Val (length (hooks st)), set_hooks (λ l, l ++ [h]) st).

Definition read_cell (a : nat) : M cell :=
  λ st, match cells st !! a with
        | Some c => (Val c, st)
        | None => (Exn BadAddress, st)
        end.
Definition write_cell (a : nat) (g : cell → cell) : M unit :=
  modify (set_cells (alter g a)).
Definition new_cell (c : cell) : M nat :=
  λ st, (Val (length (cells st)), set_cells (λ l, l ++ [c]) st).

Definition read_node (a : nat) : M node :=
  λ st, match nodes st !! a with
        | Some d => (Val d, st)
        | None => (Exn BadAddress, st)
        end.
Definition write_node (a : nat) (g : node → node) : M unit :=
  modify (set_nodes (alter g a)).
Definition new_node_at (d : node) : M nat :=
  λ st, (Val (length (nodes st)), set_nodes (λ l, l ++ [d]) st).

(** [for (...) body] over the elements of a list *)
Fixpoint for_each {A} (l : list A) (body : A → M unit) : M unit :=
  match l with
  | [] => ret ()
  | x :: l' => let* _ := body x in for_each l' body
  end.

(** ** The host: DOM operations and the idle-callback queue *)

(** The names [document.createElement] takes are those of the Name
    production of XML, here on the code units below 256: a letter, a
    colon or an underscore first, then also digits, hyphens, full stops
    and the middle dot U+00B7. *)
Definition name_start_char (c : ascii) : bool :=
  let n := nat_of_ascii c in
  ((n =? 58) || (65 <=? n) && (n <=? 90) || (n =? 95) || (97 <=? n) && (n <=? 122)
   || (192 <=? n) && (n <=? 214) || (216 <=? n) && (n <=? 246)
   || (248 <=? n) && (n <=? 255))%nat.

Definition name_char (c : ascii) : bool :=
  let n := nat_of_ascii c in
  (name_start_char c || (n =? 45) || (n =? 46) || (48 <=? n) && (n <=? 57)
   || (n =? 183))%nat.

Fixpoint name_chars (s : string) : bool :=
  match s with
  | EmptyString => true
  | String c s' => name_char c && name_chars s'
  end.

Definition valid_name (s : string) : bool :=
  match s with
  | EmptyString => false
  | String c s' => name_start_char c && name_chars s'
  end.

(** [document.createElement(type)], which throws an InvalidCharacterError
    for a name that is no element name, or [document.createTextNode('')] *)
Definition dom_create (k : node_kind) : M nat :=
  let* _ := match k with
            | Element name =>
                if valid_name name then ret () else throw InvalidCharacterError
            | TextNode => ret ()
            end in
  let* n := new_node_at (new_node k) in
  let* _ := emit (EvCreate n) in
  ret n.

(** [parent.appendChild(c)]: a node that already has a parent leaves it. *)
Definition appendChild (parent c : nat) : M unit :=
  let* _ := read_node parent in
  let* _ := modify (set_nodes (fmap (set_n_children (filter (λ x, x ≠ c))))) in
  let* _ := write_node parent (set_n_children (λ l, l ++ [c])) in
  emit (EvAppend parent c).

(** [parent.removeChild(c)] *)
Definition removeChild (parent c : nat) : M unit :=
  let* d := read_node parent in
  if decide (c ∈ n_children d) then
    let* _ := write_node parent (set_n_children (filter (λ x, x ≠ c))) in
    emit (EvRemove parent c)
  else throw NotFoundError.

(** [ref.current = v] *)
Fixpoint box_set (r v : value) (l : list (value * value)) : list (value * value) :=
  match l with
  | [] => [(r, v)]
  | (r', v') :: l' => if decide (r = r') then (r, v) :: l' else (r', v') :: box_set r v l'
  end.

(** [ric(workLoop)] *)
Definition ric_workLoop : M unit := modify (set_idle_requests S).

(** ** Scheduler *)

Definition scheduleWork : M unit :=
  let* st := get in
  if scheduled st then ret ()
  else
    let* _ := modify (set_scheduled true) in
    ric_workLoop.

(** ** DOM helpers *)

(** patchDom(dom, prev, next) on the node at address [d], where a props
    object may be [undefined]: [for (k in undefined)] runs no turn, while
    [k in undefined] and [undefined[k]] throw. *)
Definition patch_apply_noprev (dom : node) (next : list (string * value)) : res unit * node :=
  fold_left (λ (acc : res unit * node) (kv : string * value),
               match acc with
               | (Val _, dom) =>
                   if negb (isRealProp kv.1) then
                     (Val (), if isEventProp kv.1
                              then setStableListener dom (event_name kv.1) kv.2 else dom)
                   else (Exn (TypeError "prev is undefined"), dom)
               | _ => acc
               end) next (Val (), dom).

Definition patchDom_at (d : nat) (prev next : option props) : M unit :=
  match prev, next with
  | Some p, Some q => write_node d (λ dom, patchDom dom (p_attrs p) (p_attrs q))
  | None, None => ret ()
  | None, Some q =>
      let* dom := read_node d in
      let '(r, dom') := patch_apply_noprev dom (p_attrs q) in
      let* _ := write_node d (λ _, dom') in
      match r with Val _ => ret () | Exn e => throw e end
  | Some p, None =>
      if forallb (λ k, bool_decide (k = "ref")) ((p_attrs p).*1) then ret ()
      else throw (TypeError "next is undefined")
  end.

(** The two places that wire a reference box: createDom tests
    [ref && ref !== null && typeof ref === 'object'], commitWork tests
    [ref && typeof ref === 'object']. *)
Definition wire_ref (p : option props) (dom : nat) : M unit :=
  match p with
  | Some q =>
      let r := prop "ref" q in
      if truthy r && bool_decide (typeof r = TObject)
      then modify (set_boxes (box_set r (VNode dom)))
      else ret ()
  | None => ret ()
  end.

Definition type_name (t : option etype) : string :=
  match t with
  | Some (Host tag) => tag
  | Some (Comp c) => "function f" +:+ pretty c
  | None => "undefined"
  end.

Definition createDom (fb : fiber) : M nat :=
  let* dom := dom_create (if decide (f_type fb = Some TEXT_ELEMENT) then TextNode
                          else Element (type_name (f_type fb))) in
  let* _ := patchDom_at dom (Some (Props [] [])) (f_props fb) in
  let* _ := wire_ref (f_props fb) dom in
  ret dom.

(** ** The order of [for (k in object)]

    Own properties whose names are array indices come first, in ascending
    numeric order; the other names follow in insertion order. *)

Definition digit (c : ascii) : option N :=
  let n := N_of_ascii c in
  if (48 <=? n)%N && (n <=? 57)%N then Some (n - 48)%N else None.

Fixpoint parse_digits (acc : N) (s : string) : option N :=
  match s with
  | EmptyString => Some acc
  | String c s' =>
      match digit c with
      | Some d => parse_digits (10 * acc + d)%N s'
      | None => None
      end
  end.

(** The canonical decimal names of 0 .. 2^32 - 2 *)
Definition array_index (s : string) : option N :=
  match s with
  | EmptyString => None
  | _ =>
      match parse_digits 0 s with
      | Some n =>
          if bool_decide (pretty n = s) && (n <? 4294967295)%N then Some n else None
      | None => None
      end
  end.

Definition index_le {A} (a b : N * A) : Prop := (a.1 ≤ b.1)%N.

Global Instance index_le_dec {A} (a b : N * A) : Decision (index_le a b).
Proof. unfold index_le. apply _. Defined.

Definition for_in_order {A} (l : list (string * A)) : list (string * A) :=
  let indexed := omap (λ kv, (λ n, (n, kv)) <$> array_index kv.1) l in
  (merge_sort index_le indexed).*2
  ++ filter (λ kv, array_index kv.1 = None) l.

(** ** Reads on a value in description position *)

(** [el && el.props && el.props.key] *)
Definition el_key (el : child) : value :=
  match el with
  | CVal v => if truthy v then VUndefined else v
  | CArr _ => VUndefined
  | CElem _ attrs _ => default VUndefined (alist_get "key" attrs)
  end.

Definition el_truthy (el : child) : bool :=
  match el with
  | CVal v => truthy v
  | _ => true
  end.

(** [el === null || el === undefined], where [el.type] throws *)
Definition nullish_child (el : child) : bool :=
  match el with
  | CVal VNull | CVal VUndefined => true
  | _ => false
  end.

(** [el.type] where [el] is not null or undefined *)
Definition el_type (el : child) : option etype :=
  match el with
  | CElem t _ _ => Some t
  | _ => None
  end.

(** [el.props] where [el] is not null or undefined *)
Definition el_props (el : child) : option props :=
  match el with
  | CElem _ attrs children => Some (Props attrs children)
  | _ => None
  end.

(** [scan.props && scan.props.key] *)
Definition fiber_key (fb : fiber) : value :=
  match f_props fb with
  | Some p => prop "key" p
  | None => VUndefined
  end.

(** ** Components

    What a component function does when it is called: it calls hooks,
    continues with what they return, and returns its output or throws.
    The dispatch function of a state hook is given as the address of its
    cell. *)

Inductive comp :=
| Return (output : child)
| Throw (v : value)
| UseState (initial : value) (k : value → nat → comp)
| UseReducer (reducer : value → value → value) (initial : value) (k : value → nat → comp)
| UseEffect (effect : nat) (deps : deplist) (k : comp)
| UseMemo (factory : nat) (deps : deplist) (k : value → comp)
| UseCallback (fn : value) (deps : deplist) (k : value → comp)
| UseRef (initial : value) (k : value → comp)
| UseContext (id : nat) (defaultValue : value) (k : value → comp)
| Provide (id : nat) (v : value) (k : comp).   (* the body of a Provider *)

(** [a[i] = x] on an array, which grows when [i] is past its end *)
Definition array_set {A} (l : list (option A)) (i : nat) (x : A) : list (option A) :=
  if decide (i < length l) then <[i := Some x]> l
  else l ++ replicate (i - length l) None ++ [Some x].

(** ** The reconciler *)

Section reconciler.

(** The bound of the loops that follow [sibling], [parent] and [child]
    pointers, and of the commit walk *)
Variable fuel : nat.

(** ** reconcileChildren *)

(** [keyMap]: the old fibers by the string of their key.  The list is
    the object [{}] of the code for the keys that [plain_key] admits; the
    theorems on reconciliation are stated for those. *)
Definition keymap := list (string * nat).

(** The loop [while (scan)] that fills [keyMap] and [byPos] *)
Fixpoint scan_old (n : nat) (scan : option nat) (keyMap : option keymap)
    (byPos : list nat) : M (option keymap * list nat) :=
  match scan with
  | None => ret (keyMap, byPos)
  | Some a =>
      match n with
      | 0 => throw OutOfFuel
      | S n' =>
          let* fb := read_fiber a in
          let sk := fiber_key fb in
          if not_nullish sk
          then scan_old n' (f_sibling fb)
                 (Some (alist_set (to_String sk) a (default [] keyMap))) byPos
          else scan_old n' (f_sibling fb) keyMap (byPos ++ [a])
      end
  end.

(** [old.effectTag = DELETION; deletions.push(old)] *)
Definition mark_deletion (old : nat) : M unit :=
  let* _ := write_fiber old (set_f_effectTag (Some DELETION)) in
  modify (set_deletions (λ l, l ++ [old])).

(** The lookup of the old fiber for [el]: the fiber found, and the new
    [keyMap] and [posIdx] *)
Definition find_old (byPos : list nat) (el : child) (keyMap : option keymap)
    (posIdx : nat) : option nat * option keymap * nat :=
  let elKey := el_key el in
  if not_nullish elKey then
    match keyMap with
    | Some km =>
        match alist_get (to_String elKey) km with
        | Some o => (Some o, Some (alist_del (to_String elKey) km), posIdx)
        | None => (None, keyMap, posIdx)
        end
    | None => (None, keyMap, posIdx)
    end
  else (byPos !! posIdx, keyMap, S posIdx).

(** One turn of the loop over [elements]; the loop variables are
    [keyMap], [posIdx] and [prev]. *)
Definition reconcile_step (fiber : nat) (byPos : list nat) (i : nat) (el : child)
    (vars : option keymap * nat * option nat) : M (option keymap * nat * option nat) :=
  let '(keyMap, posIdx, prev) := vars in
  let '(old, keyMap, posIdx) := find_old byPos el keyMap posIdx in
  let* oldf := match old with
               | Some o => let* f := read_fiber o in ret (Some (o, f))
               | None => ret None
               end in
  let sameType :=
    oldf ≫= (λ x, if el_truthy el && bool_decide (f_type x.2 = el_type el)
                  then Some x else None) in
  let* newFiber :=
    match sameType with
    | Some (o, f) =>
        let* parent := read_fiber fiber in
        new_fiber (Fiber (f_type f) (el_props el) (f_dom f) (Some fiber) None None
                     (Some o) (Some UPDATE) (Some []) (f_contextMap parent) None None)
    | None =>
        let* _ := match old with
                  | Some o => mark_deletion o
                  | None => ret ()
                  end in
        if nullish_child el then throw (TypeError "el is null or undefined")
        else
          let* parent := read_fiber fiber in
          new_fiber (Fiber (el_type el) (el_props el) None (Some fiber) None None
                       None (Some PLACEMENT) (Some []) (f_contextMap parent) None None)
    end in
  let* _ := if decide (i = 0) then write_fiber fiber (set_f_child (Some newFiber))
            else match prev with
                 | Some p => write_fiber p (set_f_sibling (Some newFiber))
                 | None => ret ()
                 end in
  ret (keyMap, posIdx, Some newFiber).

Fixpoint reconcile_loop (fiber : nat) (byPos : list nat) (i : nat)
    (elements : list child) (vars : option keymap * nat * option nat)
    : M (option keymap * nat * option nat) :=
  match elements with
  | [] => ret vars
  | el :: rest =>
      let* vars' := reconcile_step fiber byPos i el vars in
      reconcile_loop fiber byPos (S i) rest vars'
  end.

Definition reconcileChildren (fiber : nat) (elements : list child) : M unit :=
  let* fb := read_fiber fiber in
  let* oldFiber := match f_alternate fb with
                   | Some a => let* af := read_fiber a in ret (f_child af)
                   | None => ret None
                   end in
  let* (keyMap, byPos) := scan_old fuel oldFiber None [] in
  let* (keyMap, posIdx, prev) :=
    reconcile_loop fiber byPos 0 elements (keyMap, 0, None) in
  let* _ := for_each (drop posIdx byPos) mark_deletion in
  let* _ := match keyMap with
            | Some km => for_each ((for_in_order km).*2) mark_deletion
            | None => ret ()
            end in
  match prev with
  | Some p => write_fiber p (set_f_sibling None)
  | None => ret ()
  end.

(** ** Hooks *)

(** The value of a call [f(arg)] of user function [f]; user functions
    called for their value are pure. *)
Variable apply_fn : nat → value → value.

Definition call_fn (f : nat) (arg : value) : M value :=
  let* _ := emit (EvCall f) in
  ret (apply_fn f arg).

(** [typeof initial === 'function' ? initial() : initial] *)
Definition init_value (initial : value) : value :=
  match initial with
  | VFun f => apply_fn f VUndefined
  | _ => initial
  end.

Definition the_wipFiber : M nat :=
  let* st := get in
  match wipFiber st with
  | Some w => ret w
  | None => throw (TypeError "wipFiber is null")
  end.

(** [wipFiber.alternate && wipFiber.alternate.hooks[hookIdx]]: the old
    hook object and its address *)
Definition old_hook : M (option (nat * hook)) :=
  let* w := the_wipFiber in
  let* wf := read_fiber w in
  match f_alternate wf with
  | None => ret None
  | Some a =>
      let* af := read_fiber a in
      match f_hooks af with
      | None => throw (TypeError "hooks is undefined")
      | Some hs =>
          let* st := get in
          match hs !! hookIdx st with
          | Some (Some h) => let* hk := read_hook h in ret (Some (h, hk))
          | _ => ret None
          end
      end
  end.

(** [wipFiber.hooks[hookIdx++] = hook] *)
Definition push_hook (h : nat) : M unit :=
  let* w := the_wipFiber in
  let* wf := read_fiber w in
  match f_hooks wf with
  | None => throw (TypeError "hooks is undefined")
  | Some hs =>
      let* st := get in
      let* _ := write_fiber w (set_f_hooks (Some (array_set hs (hookIdx st) h))) in
      modify (set_hookIdx (S (hookIdx st)))
  end.

Definition useReducer (reducer : value → value → value) (initial : value)
    : M (value * nat) :=
  let* oldHook := old_hook in
  let* c := match oldHook with
            | Some (_, h) =>
                match hook_cell h with
                | Some c => ret c
                | None => throw (TypeError "cell is undefined")
                end
            | None => new_cell (Cell [] false)
            end in
  let state := match oldHook with
               | Some (_, h) => hook_state h
               | None => init_value initial
               end in
  let* cl := read_cell c in
  let state := fold_left reducer (queue cl) state in
  let* _ := write_cell c (λ cl, Cell [] true) in
  let* hook := new_hook (HState state c) in
  let* _ := push_hook hook in
  ret (state, c).

Definition useState (initial : value) : M (value * nat) :=
  useReducer (λ state action, match action with
                              | VFun f => apply_fn f state
                              | _ => action
                              end)
    (init_value initial).

(** [oldHook.deps && oldHook.deps[i]]: the falsy [deps] itself when the
    previous hook object has [undefined] or [null] there, and else the
    element at [i], which is [undefined] past the end of the array *)
Definition prev_dep (oldHook : hook) (i : nat) : value :=
  match hook_deps oldHook with
  | DepList od => default VUndefined (od !! i)
  | NullDeps => VNull
  | NoDeps => VUndefined
  end.

(** [!oldHook || !deps || deps.some((d, i) => d !== (oldHook.deps && oldHook.deps[i]))] *)
Definition depsChanged (oldHook : option hook) (deps : deplist) : bool :=
  match oldHook, deps with
  | None, _ => true
  | _, NoDeps => true
  | _, NullDeps => true
  | Some h, DepList ds =>
      existsb (λ id : nat * value, negb (strict_eq id.2 (prev_dep h id.1)))
        (imap pair ds)
  end.

Definition useEffect (effect : nat) (deps : deplist) : M unit :=
  let* oldHook := old_hook in
  let changed := depsChanged (snd <$> oldHook) deps in
  let oldCleanup := match oldHook with
                    | Some (_, h) => hook_cleanup h
                    | None => VNull
                    end in
  let* hook := new_hook (HEffect deps oldCleanup) in
  let* _ := if changed then
              let* w := the_wipFiber in
              write_fiber w (λ f, set_f_pendingEffects
                (Some (default [] (f_pendingEffects f)
                       ++ [EffectItem effect oldCleanup hook])) f)
            else ret () in
  push_hook hook.

Definition useMemo (factory : M value) (deps : deplist) : M value :=
  let* oldHook := old_hook in
  let changed := depsChanged (snd <$> oldHook) deps in
  let* v := if changed then factory
            else ret (match oldHook with
                      | Some (_, h) => hook_value h
                      | None => VUndefined
                      end) in
  let* hook := new_hook (HMemo v deps) in
  let* _ := push_hook hook in
  ret v.

Definition useCallback (fn : value) (deps : deplist) : M value :=
  useMemo (ret fn) deps.

Definition useRef (initial : value) : M value :=
  let* oldHook := old_hook in
  let* hook := match oldHook with
               | Some (h, _) => ret h
               | None =>
                   let* h := new_hook HRef in
                   let* _ := modify (set_boxes (box_set (VRefBox h) (init_value initial))) in
                   ret h
               end in
  let* _ := push_hook hook in
  ret (VRefBox hook).

Definition useContext (id : nat) (defaultValue : value) : M value :=
  let* st := get in
  match wipFiber st with
  | Some w =>
      let* wf := read_fiber w in
      match f_contextMap wf ≫= (λ m, m !! id) with
      | Some v => ret v
      | None => ret defaultValue
      end
  | None => ret defaultValue
  end.

(** The marking a Provider does before it returns its children *)
Definition provide (id : nat) (v : value) : M unit :=
  let* st := get in
  match wipFiber st with
  | Some w =>
      write_fiber w (λ f, set_f_ctxProvide (Some (<[id := v]> (default ∅ (f_ctxProvide f)))) f)
  | None => ret ()
  end.

(** Running the body of a component *)
Fixpoint run_comp (p : comp) : M child :=
  match p with
  | Return output => ret output
  | Throw v => throw (Thrown v)
  | UseState initial k =>
      let* (s, d) := useState initial in run_comp (k s d)
  | UseReducer reducer initial k =>
      let* (s, d) := useReducer reducer initial in run_comp (k s d)
  | UseEffect effect deps k =>
      let* _ := useEffect effect deps in run_comp k
  | UseMemo factory deps k =>
      let* v := useMemo (call_fn factory VUndefined) deps in run_comp (k v)
  | UseCallback fn deps k =>
      let* v := useCallback fn deps in run_comp (k v)
  | UseRef initial k =>
      let* r := useRef initial in run_comp (k r)
  | UseContext id defaultValue k =>
      let* v := useContext id defaultValue in run_comp (k v)
  | Provide id v k =>
      let* _ := provide id v in run_comp k
  end.

(** ** Per-fiber work *)

(** The component functions: what function [c] does on [props] *)
Variable component : nat → option props → comp.

Definition updateFunctionComponent (fiber : nat) (c : nat) : M unit :=
  let* _ := modify (set_wipFiber (Some fiber)) in
  let* _ := modify (set_hookIdx 0) in
  let* _ := write_fiber fiber (λ f, set_f_ctxProvide None (set_f_hooks (Some []) f)) in
  let* fb := read_fiber fiber in
  let* output := run_comp (component c (f_props fb)) in
  let* fb := read_fiber fiber in
  let* _ := match f_ctxProvide fb with
            | Some pr =>
                write_fiber fiber (λ f, set_f_ctxProvide None
                  (set_f_contextMap (Some (pr ∪ default ∅ (f_contextMap f))) f))
            | None => ret ()
            end in
  reconcileChildren fiber (flattenChildren output).

Definition updateHostComponent (fiber : nat) : M unit :=
  let* fb := read_fiber fiber in
  let* _ := match f_dom fb with
            | Some _ => ret ()
            | None =>
                let* dom := createDom fb in
                write_fiber fiber (set_f_dom (Some dom))
            end in
  match f_props fb with
  | Some p => reconcileChildren fiber (p_children p)
  | None => throw (TypeError "fiber.props is undefined")
  end.

(** The walk [while (next)] to the next sibling or uncle *)
Fixpoint next_up (n : nat) (next : option nat) : M (option nat) :=
  match next with
  | None => ret None
  | Some a =>
      match n with
      | 0 => throw OutOfFuel
      | S n' =>
          let* fb := read_fiber a in
          match f_sibling fb with
          | Some s => ret (Some s)
          | None => next_up n' (f_parent fb)
          end
      end
  end.

Definition performUnit (fiber : nat) : M (option nat) :=
  let* fb := read_fiber fiber in
  let* _ := match f_type fb with
            | Some (Comp c) => updateFunctionComponent fiber c
            | _ => updateHostComponent fiber
            end in
  let* fb := read_fiber fiber in
  match f_child fb with
  | Some c => ret (Some c)
  | None => next_up fuel (Some fiber)
  end.

(** ** Commit phase *)

(** The walk [while (f && !f.dom) f = f.parent] of nearestDom *)
Fixpoint nearestDom_loop (n : nat) (f : option nat) : M (option nat) :=
  match f with
  | None => ret None
  | Some a =>
      match n with
      | 0 => throw OutOfFuel
      | S n' =>
          let* fb := read_fiber a in
          match f_dom fb with
          | Some d => ret (Some d)
          | None => nearestDom_loop n' (f_parent fb)
          end
      end
  end.

Definition nearestDom (fiber : nat) : M (option nat) :=
  let* fb := read_fiber fiber in
  nearestDom_loop fuel (f_parent fb).

Definition flushFiberEffects (fiber : nat) : M unit :=
  let* fb := read_fiber fiber in
  match f_pendingEffects fb with
  | None => ret ()
  | Some l =>
      let* _ := modify (set_pendingEffects (λ p, p ++ l)) in
      write_fiber fiber (set_f_pendingEffects None)
  end.

(** Walk down the first-child chain to the first fiber with a node *)
Fixpoint removeFiberDom_loop (n : nat) (f : option nat) (parentDom : option nat) : M unit :=
  match f with
  | None => ret ()
  | Some a =>
      match n with
      | 0 => throw OutOfFuel
      | S n' =>
          let* fb := read_fiber a in
          match f_dom fb with
          | Some d =>
              match parentDom with
              | Some p => removeChild p d
              | None => ret ()
              end
          | None => removeFiberDom_loop n' (f_child fb) parentDom
          end
      end
  end.

Definition removeFiberDom (fiber : nat) (parentDom : option nat) : M unit :=
  removeFiberDom_loop fuel (Some fiber) parentDom.

(** [if (hooks[hi] && typeof hooks[hi].cleanup === 'function') hooks[hi].cleanup()];
    the cleanup is taken to return without calling back into the
    library and without throwing, and its call is an event. *)
Definition run_hook_cleanup (h : option nat) : M unit :=
  match h with
  | None => ret ()
  | Some a =>
      let* hk := read_hook a in
      match hook_cleanup hk with
      | VFun c => emit (EvCleanup c)
      | _ => ret ()
      end
  end.

(** Walk down the first-child chain, running the cleanups at each level *)
Fixpoint cleanupEffectTree_loop (n : nat) (f : option nat) : M unit :=
  match f with
  | None => ret ()
  | Some a =>
      match n with
      | 0 => throw OutOfFuel
      | S n' =>
          let* fb := read_fiber a in
          let* _ := match f_hooks fb with
                    | Some hs => for_each hs run_hook_cleanup
                    | None => ret ()
                    end in
          cleanupEffectTree_loop n' (f_child fb)
      end
  end.

Definition cleanupEffectTree (fiber : nat) : M unit :=
  cleanupEffectTree_loop fuel (Some fiber).

Definition commitDeletion (fiber : nat) (parentDom : option nat) : M unit :=
  let* _ := removeFiberDom fiber parentDom in
  cleanupEffectTree fiber.

(** What one turn of the loop of commitWork does with the fiber of the
    frame it popped; the result is the frames it pushes, the one pushed
    last first. *)
Definition commit_fiber (fiber : nat) (parentDom : option nat)
    : M (list (nat * option nat)) :=
  let* fb := read_fiber fiber in
  let push_rest :=
    let* _ := flushFiberEffects fiber in
    let childParent := match f_dom fb with Some d => Some d | None => parentDom end in
    ret (match f_child fb with Some c => [(c, childParent)] | None => [] end
         ++ match f_sibling fb with Some s => [(s, parentDom)] | None => [] end) in
  match f_effectTag fb, f_dom fb, parentDom with
  | Some PLACEMENT, Some d, Some p =>
      let* _ := appendChild p d in
      push_rest
  | Some UPDATE, Some d, _ =>
      let* alt := match f_alternate fb with
                  | Some a => read_fiber a
                  | None => throw (TypeError "fiber.alternate is null")
                  end in
      let* _ := emit (EvPatch d) in
      let* _ := patchDom_at d (f_props alt) (f_props fb) in
      let* _ := wire_ref (f_props fb) d in
      push_rest
  | Some DELETION, _, _ =>
      let* _ := commitDeletion fiber parentDom in
      let* _ := flushFiberEffects fiber in
      ret []
  | _, _, _ => push_rest
  end.

(** The loop [while (stack.length)]; the top of the stack is the head
    of the list. *)
Fixpoint commitWork_loop (n : nat) (stack : list (nat * option nat)) : M unit :=
  match stack with
  | [] => ret ()
  | (fiber, parentDom) :: stack' =>
      match n with
      | 0 => throw OutOfFuel
      | S n' =>
          let* pushed := commit_fiber fiber parentDom in
          commitWork_loop n' (pushed ++ stack')
      end
  end.

Definition commitWork (startFiber : nat) (startParentDom : option nat) : M unit :=
  commitWork_loop fuel [(startFiber, startParentDom)].

(** One turn of the loop over [toRun]; the old cleanup and the effect
    are taken to return without calling back into the library and without
    throwing, their calls are events, and what the effect returns is the
    value [apply_fn] gives for it. *)
Definition run_effect (item : effect_item) : M unit :=
  let* _ := match ei_oldCleanup item with
            | VFun c => emit (EvCleanup c)
            | _ => ret ()
            end in
  let* _ := emit (EvEffect (ei_effect item)) in
  let cleanup := apply_fn (ei_effect item) VUndefined in
  let cleanup := match cleanup with VFun _ => cleanup | _ => VNull end in
  modify (set_hooks (alter (λ h, match h with
                                 | HEffect deps _ => HEffect deps cleanup
                                 | _ => h
                                 end) (ei_hook item))).

Definition commitRoot : M unit :=
  let* st := get in
  let* _ := for_each (deletions st)
              (λ f, let* p := nearestDom f in commitWork f p) in
  let* w := match wipRoot st with
            | Some w => ret w
            | None => throw (TypeError "wipRoot is null")
            end in
  let* wf := read_fiber w in
  let* _ := match f_child wf with
            | Some c => commitWork c (f_dom wf)
            | None => ret ()
            end in
  let* _ := modify (set_curRoot (Some w)) in
  let* _ := emit (EvSwap w) in
  let* _ := modify (set_wipRoot None) in
  let* st := get in
  let toRun := pendingEffects st in
  let* _ := modify (set_pendingEffects (λ _, [])) in
  for_each toRun run_effect.

(** ** Scheduler: the idle callback *)

(** The loop [while (nextUnit && deadline.timeRemaining() > 1)]; the
    deadline is the list of the values [timeRemaining()] returns, call
    after call, and [0] once the list is used up. *)
Fixpoint work_units (deadline : list Z) : M unit :=
  let* st := get in
  match nextUnit st with
  | None => ret ()
  | Some u =>
      match deadline with
      | [] => ret ()
      | t :: deadline' =>
          if (1 <? t)%Z then
            let* next := performUnit u in
            let* _ := modify (set_nextUnit next) in
            work_units deadline'
          else ret ()
      end
  end.

Definition workLoop (deadline : list Z) : M unit :=
  let* _ := modify (set_scheduled false) in
  let* _ := work_units deadline in
  let* st := get in
  let* _ := match nextUnit st, wipRoot st with
            | None, Some _ => commitRoot
            | _, _ => ret ()
            end in
  let* st := get in
  match nextUnit st with
  | Some _ => scheduleWork
  | None => ret ()
  end.

(** The host serves one request made with [ric]. *)
Definition idle (deadline : list Z) : M unit :=
  let* st := get in
  match idle_requests st with
  | 0 => ret ()
  | S n =>
      let* _ := modify (set_idle_requests (λ _, n)) in
      workLoop deadline
  end.

(** ** Triggers *)

Definition scheduleUpdate : M unit :=
  let* st := get in
  match curRoot st with
  | None => ret ()
  | Some c =>
      let* cf := read_fiber c in
      let* w := new_fiber (root_fiber (f_dom cf) (f_props cf) (Some c)) in
      let* _ := modify (set_wipRoot (Some w)) in
      let* _ := modify (set_nextUnit (Some w)) in
      let* _ := modify (set_deletions (λ _, [])) in
      scheduleWork
  end.

Definition render (element : child) (container : nat) : M unit :=
  let* st := get in
  let* w := new_fiber (root_fiber (Some container) (Some (Props [] [element]))
                         (curRoot st)) in
  let* _ := modify (set_wipRoot (Some w)) in
  let* _ := modify (set_nextUnit (Some w)) in
  let* _ := modify (set_deletions (λ _, [])) in
  scheduleWork.

(** The dispatch function made by useReducer for the cell at [c] *)
Definition dispatch (c : nat) (action : value) : M unit :=
  let* _ := read_cell c in
  let* _ := write_cell c (λ cl, Cell (queue cl ++ [action]) (has_dispatch cl)) in
  scheduleUpdate.

End reconciler.

(** * Proofs *)

(** ** Running computations *)

Definition run {A} (m : M A) (st : state) : state := (m st).2.

Lemma bind_val {A B} (m : M A) (k : A → M B) st a st' :
  m st = (Val a, st') → bind m k st = k a st'.
Proof. unfold bind. by intros ->. Qed.

Lemma bind_exn {A B} (m : M A) (k : A → M B) st e st' :
  m st = (Exn e, st') → bind m k st = (Exn e, st').
Proof. unfold bind. by intros ->. Qed.

Lemma bind_inv_val {A B} (m : M A) (k : A → M B) st b st' :
  bind m k st = (Val b, st') →
  ∃ a st1, m st = (Val a, st1) ∧ k a st1 = (Val b, st').
Proof.
  unfold bind. destruct (m st) as [[a|e] st1]; [eauto | discriminate].
Qed.

(** ** Properties that a computation keeps

    [keeps R m]: the state after [m], whether it returns or throws, is
    related by [R] to the state before. *)

Definition keeps {A} (R : state → state → Prop) (m : M A) : Prop :=
  ∀ st, R st (m st).2.

Section keeps.
Context (R : state → state → Prop) `{!Reflexive R, !Transitive R}.

Lemma keeps_ret {A} (a : A) : keeps R (ret a).
Proof. intros st. reflexivity. Qed.

Lemma keeps_throw {A} (e : exn) : keeps R (@throw A e).
Proof. intros st. reflexivity. Qed.

Lemma keeps_get : keeps R get.
Proof. intros st. reflexivity. Qed.

Lemma keeps_bind {A B} (m : M A) (k : A → M B) :
  keeps R m → (∀ a, keeps R (k a)) → keeps R (bind m k).
Proof.
  intros Hm Hk st. unfold bind. specialize (Hm st).
  destruct (m st) as [[a|e] st1]; simpl in *; [|done].
  etrans; [exact Hm | apply Hk].
Qed.

Lemma keeps_modify (f : state → state) :
  (∀ st, R st (f st)) → keeps R (modify f).
Proof. intros H st. apply H. Qed.

Lemma keeps_for_each {A} (l : list A) (body : A → M unit) :
  (∀ x, keeps R (body x)) → keeps R (for_each l body).
Proof.
  intros H. induction l as [|x l IH]; simpl.
  - apply keeps_ret.
  - apply keeps_bind; [apply H | intros _; apply IH].
Qed.

Lemma keeps_read_fiber a : keeps R (read_fiber a).
Proof. intros st. unfold read_fiber. destruct (fibers st !! a); reflexivity. Qed.

Lemma keeps_read_hook a : keeps R (read_hook a).
Proof. intros st. unfold read_hook. destruct (hooks st !! a); reflexivity. Qed.

Lemma keeps_read_cell a : keeps R (read_cell a).
Proof. intros st. unfold read_cell. destruct (cells st !! a); reflexivity. Qed.

Lemma keeps_read_node a : keeps R (read_node a).
Proof. intros st. unfold read_node. destruct (nodes st !! a); reflexivity. Qed.
End keeps.

Lemma keeps_result {A} R (m : M A) st r st' :
  keeps R m → m st = (r, st') → R st st'.
Proof. intros H E. specialize (H st). by rewrite E in H. Qed.

(** Reduces a goal [keeps R m] to the calls and state updates in [m]. *)
Ltac keeps_split :=
  repeat first
    [ apply keeps_ret | apply keeps_throw | apply keeps_get
    | apply keeps_read_fiber | apply keeps_read_hook
    | apply keeps_read_cell | apply keeps_read_node
    | lazymatch goal with
      | |- keeps _ (bind _ _) => refine (keeps_bind _ _ _ _ _); [|intros ?; cbv beta]
      end
    | lazymatch goal with
      | |- keeps _ (for_each _ _) =>
          refine (keeps_for_each _ _ _ _); intros ?; cbv beta
      end
    | match goal with
      | |- keeps _ (match ?x with _ => _ end) => destruct x
      | |- keeps _ (let (_, _) := ?x in _) => destruct x
      end ].

(** ** The scheduler flag and the requests made to the host

    Only scheduleWork, workLoop and the host touch [scheduled] and the
    count of pending idle callbacks. *)

Definition same_sched (st st' : state) : Prop :=
  scheduled st' = scheduled st ∧ idle_requests st' = idle_requests st.

Global Instance same_sched_refl : Reflexive same_sched.
Proof. by intros st. Qed.

Global Instance same_sched_trans : Transitive same_sched.
Proof. intros a b c [? ?] [? ?]. split; congruence. Qed.

Create HintDb sched.

Ltac sched_step :=
  first
    [ lazymatch goal with
      | |- Reflexive _ => apply _
      | |- Transitive _ => apply _
      end
    | solve [auto with sched]
    | apply keeps_ret | apply keeps_throw | apply keeps_get
    | apply keeps_read_fiber | apply keeps_read_hook
    | apply keeps_read_cell | apply keeps_read_node
    | apply keeps_modify; intros ?; split; reflexivity
    | lazymatch goal with
      | |- keeps _ (for_each _ _) =>
          refine (keeps_for_each _ _ _ _); intros ?; cbv beta
      end
    | lazymatch goal with
      | |- keeps _ (bind _ _) => refine (keeps_bind _ _ _ _ _); [|intros ?; cbv beta]
      end
    | match goal with
      | |- keeps _ (match ?x with _ => _ end) => destruct x
      | |- keeps _ (let (_, _) := ?x in _) => destruct x
      end ].

Ltac sched := repeat sched_step.

Section sched_frame.
Variable fuel : nat.
Variable apply_fn : nat → value → value.
Variable component : nat → option props → comp.

Lemma sched_emit e : keeps same_sched (emit e).
Proof. unfold emit. sched. Qed.
Hint Resolve sched_emit : sched.

Lemma sched_write_fiber a g : keeps same_sched (write_fiber a g).
Proof. unfold write_fiber. sched. Qed.
Lemma sched_new_fiber f : keeps same_sched (new_fiber f).
Proof. by intros st. Qed.
Lemma sched_new_hook h : keeps same_sched (new_hook h).
Proof. by intros st. Qed.
Lemma sched_write_cell a g : keeps same_sched (write_cell a g).
Proof. unfold write_cell. sched. Qed.
Lemma sched_new_cell c : keeps same_sched (new_cell c).
Proof. by intros st. Qed.
Lemma sched_write_node a g : keeps same_sched (write_node a g).
Proof. unfold write_node. sched. Qed.
Lemma sched_new_node_at d : keeps same_sched (new_node_at d).
Proof. by intros st. Qed.
Hint Resolve sched_write_fiber sched_new_fiber sched_new_hook sched_write_cell
  sched_new_cell sched_write_node sched_new_node_at : sched.

Lemma sched_dom_create k : keeps same_sched (dom_create k).
Proof. unfold dom_create. sched. Qed.
Lemma sched_appendChild p c : keeps same_sched (appendChild p c).
Proof. unfold appendChild. sched. Qed.
Lemma sched_removeChild p c : keeps same_sched (removeChild p c).
Proof. unfold removeChild. sched. Qed.
Lemma sched_patchDom_at d p q : keeps same_sched (patchDom_at d p q).
Proof. unfold patchDom_at. sched. Qed.
Lemma sched_wire_ref p d : keeps same_sched (wire_ref p d).
Proof. unfold wire_ref. sched. Qed.
Hint Resolve sched_dom_create sched_appendChild sched_removeChild
  sched_patchDom_at sched_wire_ref : sched.

Lemma sched_createDom fb : keeps same_sched (createDom fb).
Proof. unfold createDom. sched. Qed.
Hint Resolve sched_createDom : sched.

Lemma sched_scan_old n scan keyMap byPos :
  keeps same_sched (scan_old n scan keyMap byPos).
Proof.
  revert scan keyMap byPos.
  induction n as [|n IH]; intros [a|] keyMap byPos; simpl; sched.
Qed.
Lemma sched_mark_deletion old : keeps same_sched (mark_deletion old).
Proof. unfold mark_deletion. sched. Qed.
Hint Resolve sched_scan_old sched_mark_deletion : sched.

Lemma sched_reconcile_step fiber byPos i el vars :
  keeps same_sched (reconcile_step fiber byPos i el vars).
Proof. unfold reconcile_step. sched. Qed.
Hint Resolve sched_reconcile_step : sched.

Lemma sched_reconcile_loop fiber byPos i elements vars :
  keeps same_sched (reconcile_loop fiber byPos i elements vars).
Proof.
  revert i vars. induction elements as [|el rest IH]; intros i vars; simpl; sched.
Qed.
Hint Resolve sched_reconcile_loop : sched.

Lemma sched_reconcileChildren fiber elements :
  keeps same_sched (reconcileChildren fuel fiber elements).
Proof. unfold reconcileChildren. sched. Qed.
Hint Resolve sched_reconcileChildren : sched.

Lemma sched_call_fn f arg : keeps same_sched (call_fn apply_fn f arg).
Proof. unfold call_fn. sched. Qed.
Lemma sched_the_wipFiber : keeps same_sched the_wipFiber.
Proof. unfold the_wipFiber. sched. Qed.
Hint Resolve sched_call_fn sched_the_wipFiber : sched.
Lemma sched_old_hook : keeps same_sched old_hook.
Proof. unfold old_hook. sched. Qed.
Lemma sched_push_hook h : keeps same_sched (push_hook h).
Proof. unfold push_hook. sched. Qed.
Hint Resolve sched_old_hook sched_push_hook : sched.

Lemma sched_useReducer reducer initial :
  keeps same_sched (useReducer apply_fn reducer initial).
Proof. unfold useReducer. sched. Qed.
Hint Resolve sched_useReducer : sched.
Lemma sched_useState initial : keeps same_sched (useState apply_fn initial).
Proof. unfold useState. sched. Qed.
Lemma sched_useEffect effect deps : keeps same_sched (useEffect effect deps).
Proof. unfold useEffect. sched. Qed.
Lemma sched_useMemo factory deps :
  keeps same_sched factory → keeps same_sched (useMemo factory deps).
Proof. intros H. unfold useMemo. sched. Qed.
Hint Resolve sched_useState sched_useEffect sched_useMemo : sched.
Lemma sched_useCallback fn deps : keeps same_sched (useCallback fn deps).
Proof. unfold useCallback. apply sched_useMemo. sched. Qed.
Lemma sched_useRef initial : keeps same_sched (useRef apply_fn initial).
Proof. unfold useRef. sched. Qed.
Lemma sched_useContext id d : keeps same_sched (useContext id d).
Proof. unfold useContext. sched. Qed.
Lemma sched_provide id v : keeps same_sched (provide id v).
Proof. unfold provide. sched. Qed.
Hint Resolve sched_useCallback sched_useRef sched_useContext sched_provide : sched.

Lemma sched_run_comp p : keeps same_sched (run_comp apply_fn p).
Proof. induction p; simpl; sched. Qed.
Hint Resolve sched_run_comp : sched.

Lemma sched_updateFunctionComponent fiber c :
  keeps same_sched (updateFunctionComponent fuel apply_fn component fiber c).
Proof. unfold updateFunctionComponent. sched. Qed.
Lemma sched_updateHostComponent fiber :
  keeps same_sched (updateHostComponent fuel fiber).
Proof. unfold updateHostComponent. sched. Qed.
Lemma sched_next_up n next : keeps same_sched (next_up n next).
Proof. revert next. induction n as [|n IH]; intros [a|]; simpl; sched. Qed.
Hint Resolve sched_updateFunctionComponent sched_updateHostComponent
  sched_next_up : sched.

Lemma sched_performUnit fiber :
  keeps same_sched (performUnit fuel apply_fn component fiber).
Proof. unfold performUnit. sched. Qed.
Hint Resolve sched_performUnit : sched.

Lemma sched_nearestDom_loop n f : keeps same_sched (nearestDom_loop n f).
Proof. revert f. induction n as [|n IH]; intros [a|]; simpl; sched. Qed.
Hint Resolve sched_nearestDom_loop : sched.
Lemma sched_nearestDom f : keeps same_sched (nearestDom fuel f).
Proof. unfold nearestDom. sched. Qed.
Lemma sched_flushFiberEffects f : keeps same_sched (flushFiberEffects f).
Proof. unfold flushFiberEffects. sched. Qed.
Lemma sched_removeFiberDom_loop n f p : keeps same_sched (removeFiberDom_loop n f p).
Proof. revert f. induction n as [|n IH]; intros [a|]; simpl; sched. Qed.
Lemma sched_run_hook_cleanup h : keeps same_sched (run_hook_cleanup h).
Proof. unfold run_hook_cleanup. sched. Qed.
Hint Resolve sched_nearestDom sched_flushFiberEffects sched_removeFiberDom_loop
  sched_run_hook_cleanup : sched.
Lemma sched_cleanupEffectTree_loop n f : keeps same_sched (cleanupEffectTree_loop n f).
Proof. revert f. induction n as [|n IH]; intros [a|]; simpl; sched. Qed.
Hint Resolve sched_cleanupEffectTree_loop : sched.
Lemma sched_commitDeletion f p : keeps same_sched (commitDeletion fuel f p).
Proof. unfold commitDeletion, removeFiberDom, cleanupEffectTree. sched. Qed.
Hint Resolve sched_commitDeletion : sched.
Lemma sched_commit_fiber f p : keeps same_sched (commit_fiber fuel f p).
Proof. unfold commit_fiber. sched. Qed.
Hint Resolve sched_commit_fiber : sched.
Lemma sched_commitWork_loop n stack : keeps same_sched (commitWork_loop fuel n stack).
Proof.
  revert stack. induction n as [|n IH]; intros [|[f p] stack]; simpl; sched.
Qed.
Hint Resolve sched_commitWork_loop : sched.
Lemma sched_run_effect item : keeps same_sched (run_effect apply_fn item).
Proof. unfold run_effect. sched. Qed.
Hint Resolve sched_run_effect : sched.
Lemma sched_commitRoot : keeps same_sched (commitRoot fuel apply_fn).
Proof. unfold commitRoot, commitWork. sched. Qed.
Hint Resolve sched_commitRoot : sched.

Lemma sched_work_units deadline :
  keeps same_sched (work_units fuel apply_fn component deadline).
Proof. induction deadline as [|t d IH]; simpl; sched. Qed.

End sched_frame.

(** ** The system as a whole: what can happen to the module state *)

Inductive trigger :=
| Render (element : child) (container : nat)   (* user code calls render *)
| Dispatch (c : nat) (action : value)          (* user code calls a dispatch function *)
| Idle (deadline : list Z).                    (* the host serves an idle request *)

Section system.
Variable fuel : nat.
Variable apply_fn : nat → value → value.
Variable component : nat → option props → comp.

Definition step (t : trigger) : M unit :=
  match t with
  | Render element container => render element container
  | Dispatch c action => dispatch c action
  | Idle deadline => idle fuel apply_fn component deadline
  end.

(** The state after a history of triggers, the oldest first *)
Definition after (ts : list trigger) (st : state) : state :=
  fold_left (λ st t, run (step t) st) ts st.

(** [scheduled] is set exactly when one request is pending. *)
Definition sched_inv (st : state) : Prop :=
  idle_requests st = if scheduled st then 1 else 0.

Lemma scheduleWork_pending st :
  scheduled st = true → scheduleWork st = (Val (), st).
Proof. intros H. unfold scheduleWork, bind, get. simpl. by rewrite H. Qed.

Lemma scheduleWork_idle st :
  scheduled st = false →
  scheduleWork st = (Val (), set_idle_requests S (set_scheduled true st)).
Proof. intros H. unfold scheduleWork, bind, get. simpl. by rewrite H. Qed.

Lemma scheduleWork_inv st : sched_inv st → sched_inv (run scheduleWork st).
Proof.
  unfold sched_inv, run. intros H. destruct (scheduled st) eqn:E.
  - rewrite scheduleWork_pending by done. simpl. by rewrite E.
  - rewrite scheduleWork_idle by done. simpl. by rewrite H.
Qed.

Lemma scheduleWork_after {A} (m : M A) st :
  keeps same_sched m → sched_inv st →
  sched_inv (run (let* _ := m in scheduleWork) st).
Proof.
  intros Hm Hst. unfold run, bind.
  destruct (m st) as [[a|e] st1] eqn:E; simpl;
    apply (keeps_result _ _ _ _ _ Hm) in E as [E1 E2].
  - apply scheduleWork_inv. unfold sched_inv. by rewrite E1, E2.
  - unfold sched_inv. by rewrite E1, E2.
Qed.

Lemma render_inv element container st :
  sched_inv st → sched_inv (run (render element container) st).
Proof.
  intros H. unfold render, run, bind, get, new_fiber, modify. simpl.
  apply (scheduleWork_inv (set_deletions _ (set_nextUnit _ (set_wipRoot _
    (set_fibers _ st))))), H.
Qed.

Lemma scheduleUpdate_inv st : sched_inv st → sched_inv (run scheduleUpdate st).
Proof.
  intros H. unfold scheduleUpdate, run, bind, get. simpl.
  destruct (curRoot st) as [c|]; [|done].
  unfold read_fiber. destruct (fibers st !! c) as [cf|]; [|done].
  unfold new_fiber, modify. simpl.
  apply (scheduleWork_inv (set_deletions _ (set_nextUnit _ (set_wipRoot _
    (set_fibers _ st))))), H.
Qed.

Lemma dispatch_inv c action st :
  sched_inv st → sched_inv (run (dispatch c action) st).
Proof.
  intros H. unfold dispatch, run, bind, read_cell.
  destruct (cells st !! c) as [cl|]; [|done].
  unfold write_cell, modify. simpl.
  apply (scheduleUpdate_inv (set_cells _ st)), H.
Qed.

(** What workLoop leaves: nothing pending, or one new request with a
    unit of work left. *)
Lemma workLoop_sched deadline st :
  let st' := run (workLoop fuel apply_fn component deadline) st in
  (scheduled st' = false ∧ idle_requests st' = idle_requests st)
  ∨ (scheduled st' = true ∧ idle_requests st' = S (idle_requests st)
     ∧ is_Some (nextUnit st')).
Proof.
  unfold workLoop, run, bind, modify. simpl.
  set (st0 := set_scheduled false st).
  destruct (work_units fuel apply_fn component deadline st0) as [[[]|e] st1] eqn:E1;
    apply (keeps_result _ _ _ _ _ (sched_work_units _ _ _ _)) in E1 as [E1 E1'];
    simpl in *; [|left; by rewrite E1, E1'].
  assert (∃ r st2, (match nextUnit st1, wipRoot st1 with
                    | None, Some _ => commitRoot fuel apply_fn
                    | _, _ => ret ()
                    end) st1 = (r, st2) ∧ same_sched st1 st2) as (r & st2 & -> & [E2 E2']).
  { destruct (nextUnit st1), (wipRoot st1);
      try (eexists _, _; split; [reflexivity | done]).
    destruct (commitRoot fuel apply_fn st1) as [r st2] eqn:E.
    eexists _, _; split; [done|].
    eapply keeps_result; [apply sched_commitRoot | done]. }
  destruct r as [[]|e]; simpl; [|left; split; congruence].
  destruct (nextUnit st2) as [u|] eqn:Eu.
  - rewrite scheduleWork_idle by congruence. simpl. right.
    split; [done|]. split; [congruence|]. rewrite Eu. eauto.
  - simpl. left. split; congruence.
Qed.

Lemma idle_unfold deadline st :
  idle fuel apply_fn component deadline st =
  match idle_requests st with
  | 0 => (Val (), st)
  | S n => workLoop fuel apply_fn component deadline (set_idle_requests (λ _, n) st)
  end.
Proof.
  unfold idle, bind, get, modify. simpl. by destruct (idle_requests st).
Qed.

Lemma idle_inv deadline st :
  sched_inv st → sched_inv (run (idle fuel apply_fn component deadline) st).
Proof.
  intros H. unfold run. rewrite idle_unfold.
  destruct (idle_requests st) as [|n] eqn:En; [done|].
  assert (n = 0) as ->.
  { unfold sched_inv in H. rewrite En in H. destruct (scheduled st); lia. }
  pose proof (workLoop_sched deadline (set_idle_requests (λ _, 0) st)) as Hw.
  unfold run in Hw. simpl in Hw. unfold sched_inv.
  destruct Hw as [[-> ->]|(-> & -> & _)]; done.
Qed.

Lemma step_inv t st : sched_inv st → sched_inv (run (step t) st).
Proof.
  destruct t; simpl; [apply render_inv | apply dispatch_inv | apply idle_inv].
Qed.

Lemma after_inv ts st : sched_inv st → sched_inv (after ts st).
Proof.
  revert st. induction ts as [|t ts IH]; intros st H; simpl; [done|].
  apply IH, step_inv, H.
Qed.

(** C9. At every point of every history at most one idle callback is
    pending. While one is pending scheduleWork changes nothing; when
    none is pending it requests exactly one. When the host serves the
    pending request, workLoop leaves a request pending only if a unit
    of work remains. *)
Theorem scheduleWork_at_most_one_callback (page : list node) (ts : list trigger) :
  let st := after ts (initial_state page) in
  idle_requests st ≤ 1
  ∧ (idle_requests st = 1 → scheduleWork st = (Val (), st))
  ∧ (idle_requests st = 0 → idle_requests (run scheduleWork st) = 1)
  ∧ (∀ deadline,
       let st' := run (idle fuel apply_fn component deadline) st in
       idle_requests st' ≤ 1 ∧ (idle_requests st' = 1 → is_Some (nextUnit st'))).
Proof.
  intros st.
  assert (sched_inv st) as Hinv by (by apply after_inv).
  split; [|split; [|split]].
  - unfold sched_inv in Hinv. destruct (scheduled st); lia.
  - intros H. apply scheduleWork_pending.
    unfold sched_inv in Hinv. destruct (scheduled st); [done | lia].
  - intros H. unfold run. rewrite scheduleWork_idle; [simpl; lia|].
    unfold sched_inv in Hinv. destruct (scheduled st); [lia | done].
  - intros deadline st'.
    assert (sched_inv st') as H by (by apply idle_inv).
    split.
    { unfold sched_inv in H. destruct (scheduled st'); lia. }
    intros H1. subst st'. unfold run in *. rewrite idle_unfold in *.
    destruct (idle_requests st) as [|n] eqn:En.
    { simpl in H1. lia. }
    assert (n = 0) as ->.
    { unfold sched_inv in Hinv. destruct (scheduled st); lia. }
    pose proof (workLoop_sched deadline (set_idle_requests (λ _, 0) st)) as Hw.
    unfold run in Hw. simpl in Hw.
    destruct Hw as [[_ Hw]|(_ & _ & Hw)]; [congruence | done].
Qed.

End system.

(** ** Hooks: state cells *)

Section hooks_facts.
Variable apply_fn : nat → value → value.

(** The state in which a hook is called: a component is being rendered
    into fiber [w], whose hooks array exists. *)
Definition rendering (st : state) (w : nat) (wf : fiber) (whs : list (option nat)) : Prop :=
  wipFiber st = Some w ∧ fibers st !! w = Some wf ∧ f_hooks wf = Some whs.

(** The hook object [hk] at address [h] is the one the previous render
    of this component left at the current hook index. *)
Definition previous_hook (st : state) (wf : fiber) (h : nat) (hk : hook) : Prop :=
  ∃ a af ahs,
    f_alternate wf = Some a ∧ fibers st !! a = Some af ∧ f_hooks af = Some ahs
    ∧ ahs !! hookIdx st = Some (Some h) ∧ hooks st !! h = Some hk.

(** There is no previous render of this hook. *)
Definition no_previous_hook (st : state) (wf : fiber) : Prop :=
  f_alternate wf = None
  ∨ ∃ a af ahs,
      f_alternate wf = Some a ∧ fibers st !! a = Some af ∧ f_hooks af = Some ahs
      ∧ (ahs !! hookIdx st = None ∨ ahs !! hookIdx st = Some None).

Lemma the_wipFiber_eq st w : wipFiber st = Some w → the_wipFiber st = (Val w, st).
Proof. intros H. unfold the_wipFiber, bind, get. simpl. by rewrite H. Qed.

Lemma read_fiber_eq st a f : fibers st !! a = Some f → read_fiber a st = (Val f, st).
Proof. intros H. unfold read_fiber. by rewrite H. Qed.

Lemma read_hook_eq st a h : hooks st !! a = Some h → read_hook a st = (Val h, st).
Proof. intros H. unfold read_hook. by rewrite H. Qed.

Lemma read_cell_eq st a c : cells st !! a = Some c → read_cell a st = (Val c, st).
Proof. intros H. unfold read_cell. by rewrite H. Qed.

Lemma read_node_eq st a d : nodes st !! a = Some d → read_node a st = (Val d, st).
Proof. intros H. unfold read_node. by rewrite H. Qed.

Lemma old_hook_some st w wf whs h hk :
  rendering st w wf whs → previous_hook st wf h hk →
  old_hook st = (Val (Some (h, hk)), st).
Proof.
  intros (Hw & Hwf & _) (a & af & ahs & Ha & Haf & Hahs & Hh & Hhk).
  unfold old_hook.
  rewrite (bind_val _ _ _ _ _ (the_wipFiber_eq _ _ Hw)).
  rewrite (bind_val _ _ _ _ _ (read_fiber_eq _ _ _ Hwf)), Ha.
  rewrite (bind_val _ _ _ _ _ (read_fiber_eq _ _ _ Haf)), Hahs.
  unfold bind at 1, get. simpl. rewrite Hh.
  by rewrite (bind_val _ _ _ _ _ (read_hook_eq _ _ _ Hhk)).
Qed.

Lemma old_hook_none st w wf whs :
  rendering st w wf whs → no_previous_hook st wf →
  old_hook st = (Val None, st).
Proof.
  intros (Hw & Hwf & _) Hno. unfold old_hook.
  rewrite (bind_val _ _ _ _ _ (the_wipFiber_eq _ _ Hw)).
  rewrite (bind_val _ _ _ _ _ (read_fiber_eq _ _ _ Hwf)).
  destruct Hno as [->|(a & af & ahs & -> & Haf & Hahs & Hh)]; [done|].
  rewrite (bind_val _ _ _ _ _ (read_fiber_eq _ _ _ Haf)), Hahs.
  unfold bind, get. simpl. by destruct Hh as [-> | ->].
Qed.

(** The state after [wipFiber.hooks[hookIdx++] = hook] *)
Definition pushed (w : nat) (whs : list (option nat)) (h : nat) (st : state) : state :=
  set_hookIdx (S (hookIdx st))
    (set_fibers (alter (set_f_hooks (Some (array_set whs (hookIdx st) h))) w) st).

Lemma push_hook_eq st w wf whs h :
  rendering st w wf whs → push_hook h st = (Val (), pushed w whs h st).
Proof.
  intros (Hw & Hwf & Hhs). unfold push_hook.
  rewrite (bind_val _ _ _ _ _ (the_wipFiber_eq _ _ Hw)).
  rewrite (bind_val _ _ _ _ _ (read_fiber_eq _ _ _ Hwf)), Hhs.
  reflexivity.
Qed.

(** What useReducer leaves when the previous render left the state
    [s] with cell [c]: the folded state [s'] in a new hook object, and
    the queue of [c] empty. *)
Definition reduced (w : nat) (whs : list (option nat)) (c : nat) (s' : value)
    (st : state) : state :=
  pushed w whs (length (hooks st))
    (set_hooks (λ l, l ++ [HState s' c])
       (set_cells (alter (λ _, Cell [] true) c) st)).

Lemma useReducer_rerender reducer initial st w wf whs h s c cl :
  rendering st w wf whs → previous_hook st wf h (HState s c) →
  cells st !! c = Some cl →
  useReducer apply_fn reducer initial st
  = (Val (fold_left reducer (queue cl) s, c),
     reduced w whs c (fold_left reducer (queue cl) s) st).
Proof.
  intros Hr Hp Hc. unfold useReducer.
  rewrite (bind_val _ _ _ _ _ (old_hook_some _ _ _ _ _ _ Hr Hp)). simpl.
  unfold bind at 1, ret at 1.
  rewrite (bind_val _ _ _ _ _ (read_cell_eq _ _ _ Hc)).
  unfold bind at 1, write_cell, modify.
  unfold bind at 1, new_hook.
  erewrite bind_val; [reflexivity|].
  eapply push_hook_eq. destruct Hr as (? & ? & ?). split_and!; simpl; eauto.
Qed.

Lemma useReducer_first reducer initial st w wf whs :
  rendering st w wf whs → no_previous_hook st wf →
  useReducer apply_fn reducer initial st
  = (Val (init_value apply_fn initial, length (cells st)),
     reduced w whs (length (cells st)) (init_value apply_fn initial)
       (set_cells (λ l, l ++ [Cell [] false]) st)).
Proof.
  intros Hr Hp. unfold useReducer.
  rewrite (bind_val _ _ _ _ _ (old_hook_none _ _ _ _ Hr Hp)). simpl.
  unfold bind at 1, new_cell.
  unfold bind at 1, read_cell. simpl.
  rewrite lookup_app_r, Nat.sub_diag by done. simpl.
  unfold bind at 1, write_cell, modify.
  unfold bind at 1, new_hook.
  erewrite bind_val; [reflexivity|].
  eapply push_hook_eq. destruct Hr as (? & ? & ?). split_and!; simpl; eauto.
Qed.

Lemma reduced_queue w whs c s' st cl :
  cells st !! c = Some cl →
  cells (reduced w whs c s' st) !! c = Some (Cell [] true).
Proof.
  intros H. unfold reduced, pushed. simpl.
  rewrite list_lookup_alter_eq, H. done.
Qed.

Lemma reduced_hook w whs c s' st :
  hooks (reduced w whs c s' st) !! length (hooks st) = Some (HState s' c).
Proof.
  unfold reduced, pushed. simpl.
  by rewrite lookup_app_r, Nat.sub_diag.
Qed.

(** A dispatch call puts its action last in the queue of its cell,
    whatever scheduleUpdate then does. *)
Lemma scheduleUpdate_cells : keeps (λ st st', cells st' = cells st) scheduleUpdate.
Proof.
  intros st. unfold scheduleUpdate, bind, get. simpl.
  destruct (curRoot st) as [r|]; [|done].
  unfold read_fiber. destruct (fibers st !! r); [|done]. simpl.
  unfold scheduleWork, bind, get. simpl. by destruct (scheduled st).
Qed.

Lemma dispatch_queue st c cl action :
  cells st !! c = Some cl →
  cells (run (dispatch c action) st)
  = <[c := Cell (queue cl ++ [action]) (has_dispatch cl)]> (cells st).
Proof.
  intros H. unfold run, dispatch.
  rewrite (bind_val _ _ _ _ _ (read_cell_eq _ _ _ H)).
  unfold bind at 1, write_cell, modify.
  rewrite (scheduleUpdate_cells _). simpl.
  apply list_eq. intros i. destruct (decide (i = c)) as [->|Hne].
  - rewrite list_lookup_alter_eq, H. simpl.
    by rewrite list_lookup_insert_eq by (by eapply lookup_lt_Some).
  - by rewrite list_lookup_alter_ne, list_lookup_insert_ne.
Qed.

Lemma dispatch_all_queue actions st c cl :
  cells st !! c = Some cl →
  cells (fold_left (λ st action, run (dispatch c action) st) actions st) !! c
  = Some (Cell (queue cl ++ actions) (has_dispatch cl)).
Proof.
  revert st cl. induction actions as [|a actions IH]; intros st cl H; simpl.
  - rewrite app_nil_r. by destruct cl.
  - rewrite (IH _ (Cell (queue cl ++ [a]) (has_dispatch cl))).
    + simpl. by rewrite <- app_assoc.
    + rewrite (dispatch_queue _ _ _ _ H).
      by rewrite list_lookup_insert_eq by (by eapply lookup_lt_Some).
Qed.

End hooks_facts.

(** ** Scenarios *)

(** The fiber a reference points to, and the first child of the
    committed root *)
Definition fiber_at (st : state) (a : option nat) : option fiber :=
  match a with
  | Some a => fibers st !! a
  | None => None
  end.

Definition committed_child (st : state) : option fiber :=
  match fiber_at st (curRoot st) with
  | Some r => fiber_at st (f_child r)
  | None => None
  end.

(** A deadline that leaves time for [n] units of work *)
Definition plenty (n : nat) : list Z := replicate n 50%Z.

Definition page : list node := [new_node (Element "div")].

(** A component that keeps a count in a state hook and shows it:
    function 0 is [x => x + 1]. *)
Module Counter.
Definition fns (f : nat) (v : value) : value :=
  match f, v with
  | 0, VNum n => VNum (n + 1)
  | _, _ => VUndefined
  end.

Definition inc : value := VFun 0.

Definition components (c : nat) (p : option props) : comp :=
  UseState (VNum 0) (λ count setCount,
    Return (createElement (Host "p") [("title", count)] [])).

Definition history : list trigger :=
  [Render (createElement (Comp 0) [] []) 0; Idle (plenty 10);
   Dispatch 0 inc; Dispatch 0 inc; Dispatch 0 inc; Idle (plenty 10)].

(** The second render of the component, at its call of the state hook:
    fiber 1 is being rendered, fiber 0 is its alternate with the hook
    object 0, whose cell 0 holds three queued actions. *)
Definition in_render : state :=
  State
    [Fiber (Some (Comp 0)) (Some (Props [] [])) None None None None None
       (Some PLACEMENT) (Some [Some 0]) None None None;
     Fiber (Some (Comp 0)) (Some (Props [] [])) None None None None (Some 0)
       (Some UPDATE) (Some []) None None None]
    [HState (VNum 0) 0] [Cell [inc; inc; inc] true] page []
    None None None [] (Some 1) 0 [] false 0 [].
End Counter.

(** One call of useReducer.  When a component is rendered again,
    useReducer returns the left fold of the reducer over the queue of its
    cell, from the first queued action to the last, starting from the
    state of the hook object of the alternate fiber, which is the one
    that was committed last, and leaves the queue empty; on the first
    render it returns the initial value with a new, empty queue. A
    dispatch call puts its action last in the queue, so the queue holds
    the actions in the order of the calls. useState is useReducer with the
    reducer that applies a function action to the state and takes any
    other action as the new state: a counter started at 0 and sent
    [x => x + 1] three times before the next render renders 3. *)
Theorem useReducer_folds_queue (apply_fn : nat → value → value)
    (reducer : value → value → value) (initial : value)
    (st : state) (w : nat) (wf : fiber) (whs : list (option nat)) :
  rendering st w wf whs →
  (∀ h s c cl,
     previous_hook st wf h (HState s c) → cells st !! c = Some cl →
     ∃ st',
       useReducer apply_fn reducer initial st
       = (Val (fold_left reducer (queue cl) s, c), st')
       ∧ queue <$> cells st' !! c = Some []
       ∧ hooks st' !! length (hooks st)
         = Some (HState (fold_left reducer (queue cl) s) c))
  ∧ (no_previous_hook st wf →
     ∃ st',
       useReducer apply_fn reducer initial st
       = (Val (init_value apply_fn initial, length (cells st)), st')
       ∧ queue <$> cells st' !! length (cells st) = Some [])
  ∧ (∀ c cl actions,
       cells st !! c = Some cl →
       queue <$> cells (fold_left (λ st action, run (dispatch c action) st) actions st) !! c
       = Some (queue cl ++ actions))
  ∧ useState apply_fn initial
    = useReducer apply_fn
        (λ state action, match action with
                         | VFun f => apply_fn f state
                         | _ => action
                         end)
        (init_value apply_fn initial)
  ∧ (let st := after 100 Counter.fns Counter.components Counter.history
                 (initial_state page) in
     hooks st !! 1 = Some (HState (VNum 3) 0)
     ∧ f_hooks <$> committed_child st = Some (Some [Some 1])
     ∧ (λ d, n_props d !! "title") <$> nodes st !! 1 = Some (Some (VNum 3))).
Proof.
  intros Hr. split_and!.
  - intros h s c cl Hp Hc. eexists. split; [by eapply useReducer_rerender|].
    split; [by erewrite reduced_queue | apply reduced_hook].
  - intros Hp. eexists. split; [by eapply useReducer_first|].
    erewrite reduced_queue; [done|]. simpl. by rewrite lookup_app_r, Nat.sub_diag.
  - intros c cl actions Hc. by erewrite dispatch_all_queue.
  - reflexivity.
  - vm_compute. done.
Qed.

Lemma useReducer_folds_queue_witness :
  (useState Counter.fns (VNum 0) Counter.in_render).1 = Val (VNum 3, 0).
Proof.
  pose proof (useReducer_folds_queue Counter.fns
    (λ state action, match action with
                     | VFun f => Counter.fns f state
                     | _ => action
                     end)
    (VNum 0) Counter.in_render 1
    (Fiber (Some (Comp 0)) (Some (Props [] [])) None None None None (Some 0)
       (Some UPDATE) (Some []) None None None) []) as H.
  destruct H as (H & _).
  { split_and!; reflexivity. }
  destruct (H 0 (VNum 0) 0 (Cell [Counter.inc; Counter.inc; Counter.inc] true))
    as (st' & E & _).
  { eexists 0, _, _. split_and!; reflexivity. }
  { reflexivity. }
  unfold useState. simpl init_value. rewrite E. reflexivity.
Defined.

(** A pass that is given up.  The counter is mounted and committed; an
    increment is dispatched and the idle callback has time for two units
    of work, the root and the component, so that the component is
    rendered but the pass is not committed; a second increment is
    dispatched, which starts a new pass from the committed tree, and the
    idle callback finishes it. *)
Module Lost.
Definition mounted : state :=
  after 100 Counter.fns Counter.components
    [Render (createElement (Comp 0) [] []) 0; Idle (plenty 10)] (initial_state page).

Definition interrupted : state :=
  after 100 Counter.fns Counter.components
    [Dispatch 0 Counter.inc; Idle (plenty 2)] mounted.

Definition finished : state :=
  after 100 Counter.fns Counter.components
    [Dispatch 0 Counter.inc; Idle (plenty 10)] interrupted.

(** The hook objects of the committed component, and the title that the
    committed paragraph shows *)
Definition committed_hooks (st : state) : option (list (option nat)) :=
  committed_child st ≫= f_hooks.

Definition shown (st : state) : option value :=
  nodes st !! 1 ≫= λ d, n_props d !! "title".
End Lost.

(** C3. An action that was folded in by a render that is not committed
    is lost.  The counter renders 0 and is committed.  After the first
    increment the component is rendered with the state 1, the fold of the
    one queued action, and the queue is emptied, but the pass stops before
    its commit.  The second increment starts a new pass from the committed
    tree: the component is rendered from the committed state 0 with the
    queue that holds the second increment only, so that it renders 1, and
    1 is committed and shown, where the fold of the reducer over the
    action enqueued since the previous render, from the state 1 of that
    render, is 2. *)
Theorem useReducer_loses_drained_action :
  (hooks Lost.mounted !! 0 = Some (HState (VNum 0) 0)
   ∧ Lost.committed_hooks Lost.mounted = Some [Some 0]
   ∧ queue <$> cells Lost.mounted !! 0 = Some [])
  ∧ (hooks Lost.interrupted !! 1 = Some (HState (VNum 1) 0)
     ∧ queue <$> cells Lost.interrupted !! 0 = Some []
     ∧ Lost.committed_hooks Lost.interrupted = Some [Some 0]
     ∧ curRoot Lost.interrupted = curRoot Lost.mounted
     ∧ is_Some (nextUnit Lost.interrupted))
  ∧ (queue <$> cells (run (dispatch 0 Counter.inc) Lost.interrupted) !! 0
     = Some [Counter.inc])
  ∧ (hooks Lost.finished !! 2 = Some (HState (VNum 1) 0)
     ∧ Lost.committed_hooks Lost.finished = Some [Some 2]
     ∧ Lost.shown Lost.finished = Some (VNum 1)
     ∧ queue <$> cells Lost.finished !! 0 = Some []
     ∧ nextUnit Lost.finished = None)
  ∧ fold_left (λ state action, match action with
                                | VFun f => Counter.fns f state
                                | _ => action
                                end) [Counter.inc] (VNum 1) = VNum 2.
Proof. vm_compute. split_and!; eauto. Qed.

(** ** Hooks: effects and memos *)

(** The previous element that corresponds to the new element at index
    [i]: the element at [i] of the previous array; [undefined] where that
    array is shorter or the previous hook object has no dependencies;
    [null] where the previous dependencies were [null]. *)
Inductive corresponding : deplist → nat → value → Prop :=
| corresponding_element od i d :
    od !! i = Some d → corresponding (DepList od) i d
| corresponding_missing od i :
    od !! i = None → corresponding (DepList od) i VUndefined
| corresponding_undefined i : corresponding NoDeps i VUndefined
| corresponding_null i : corresponding NullDeps i VNull.

(** The dependencies changed: there is no previous hook object, or no
    dependency list is given, or some element of the new list is not
    [===] to its corresponding previous element. *)
Definition deps_differ (prev : option hook) (deps : deplist) : Prop :=
  prev = None ∨ deps = NoDeps ∨ deps = NullDeps
  ∨ ∃ hk ds i d d', prev = Some hk ∧ deps = DepList ds ∧ ds !! i = Some d
                    ∧ corresponding (hook_deps hk) i d' ∧ strict_eq d d' = false.

Lemma prev_dep_corresponding (hk : hook) (i : nat) :
  corresponding (hook_deps hk) i (prev_dep hk i).
Proof.
  unfold prev_dep. destruct (hook_deps hk) as [| |od]; [constructor..|].
  destruct (od !! i) as [d|] eqn:E; by constructor.
Qed.

Lemma corresponding_fun (od : deplist) (i : nat) (d d' : value) :
  corresponding od i d → corresponding od i d' → d = d'.
Proof. intros H1 H2. destruct H1; inversion H2; congruence. Qed.

Lemma depsChanged_spec (oldHook : option hook) (deps : deplist) :
  depsChanged oldHook deps = true ↔ deps_differ oldHook deps.
Proof.
  unfold deps_differ.
  destruct oldHook as [h|], deps as [| |ds]; simpl; try (split; [eauto | done]).
  rewrite existsb_exists. split.
  - intros ([i d] & Hin & Hd). do 3 right. exists h, ds, i, d, (prev_dep h i).
    apply list_elem_of_In, elem_of_lookup_imap in Hin as (i' & d' & [= <- <-] & Hl).
    split_and!; [done..|apply prev_dep_corresponding|].
    simpl in Hd. by destruct (strict_eq d (prev_dep h i)).
  - intros [|[|[|(h' & ds' & i & d & d' & [= <-] & [= <-] & Hl & Hc & Hd)]]]; [done..|].
    exists (i, d). split; [apply list_elem_of_In, elem_of_lookup_imap; eauto|].
    simpl. rewrite (corresponding_fun _ _ _ _ (prev_dep_corresponding h i) Hc).
    by rewrite Hd.
Qed.

Section effect_facts.

(** The previous hook object of the hook being called, if any *)
Definition previous (st : state) (wf : fiber) (prev : option (nat * hook)) : Prop :=
  match prev with
  | Some (h, hk) => previous_hook st wf h hk
  | None => no_previous_hook st wf
  end.

Lemma old_hook_eq st w wf whs prev :
  rendering st w wf whs → previous st wf prev → old_hook st = (Val prev, st).
Proof.
  intros Hr Hp. destruct prev as [[h hk]|].
  - by eapply old_hook_some.
  - by eapply old_hook_none.
Qed.

(** [oldHook ? oldHook.cleanup : null] *)
Definition old_cleanup (prev : option (nat * hook)) : value :=
  match prev with
  | Some (_, h) => hook_cleanup h
  | None => VNull
  end.

(** What useEffect leaves *)
Definition effect_used (w : nat) (whs : list (option nat)) (effect : nat)
    (deps : deplist) (prev : option (nat * hook)) (st : state) : state :=
  let h := length (hooks st) in
  let st1 := set_hooks (λ l, l ++ [HEffect deps (old_cleanup prev)]) st in
  let st2 :=
    if depsChanged (snd <$> prev) deps
    then set_fibers (alter (λ f, set_f_pendingEffects
           (Some (default [] (f_pendingEffects f)
                  ++ [EffectItem effect (old_cleanup prev) h])) f) w) st1
    else st1 in
  pushed w whs h st2.

Lemma useEffect_eq effect deps st w wf whs prev :
  rendering st w wf whs → previous st wf prev →
  useEffect effect deps st = (Val (), effect_used w whs effect deps prev st).
Proof.
  intros Hr Hp. unfold useEffect, effect_used.
  rewrite (bind_val _ _ _ _ _ (old_hook_eq _ _ _ _ _ Hr Hp)).
  fold (old_cleanup prev).
  unfold bind at 1, new_hook.
  destruct Hr as (Hw & Hwf & Hhs).
  destruct (depsChanged (snd <$> prev) deps).
  - erewrite bind_val; [|erewrite bind_val; [reflexivity|by apply the_wipFiber_eq]].
    eapply push_hook_eq. split_and!; simpl; [done| |].
    + rewrite list_lookup_alter_eq, Hwf. done.
    + done.
  - unfold bind at 1, ret. eapply push_hook_eq. split_and!; simpl; eauto.
Qed.

(** What useMemo leaves once the value [v] of the hook is known *)
Definition memo_stored (w : nat) (whs : list (option nat)) (v : value)
    (deps : deplist) (st : state) : state :=
  pushed w whs (length (hooks st)) (set_hooks (λ l, l ++ [HMemo v deps]) st).

Lemma useMemo_unchanged factory deps st w wf whs prev :
  rendering st w wf whs → previous st wf prev →
  depsChanged (snd <$> prev) deps = false →
  useMemo factory deps st
  = (Val (hook_value (default HRef (snd <$> prev))),
     memo_stored w whs (hook_value (default HRef (snd <$> prev))) deps st).
Proof.
  intros Hr Hp Hc. unfold useMemo.
  rewrite (bind_val _ _ _ _ _ (old_hook_eq _ _ _ _ _ Hr Hp)), Hc.
  destruct prev as [[h hk]|]; [|done]. simpl.
  unfold bind at 1, ret at 1. unfold bind at 1, new_hook.
  erewrite bind_val; [reflexivity|].
  eapply push_hook_eq. destruct Hr as (? & ? & ?). split_and!; simpl; eauto.
Qed.

Lemma useMemo_changed factory deps st w wf whs prev :
  rendering st w wf whs → previous st wf prev →
  depsChanged (snd <$> prev) deps = true →
  useMemo factory deps st
  = (let* v := factory in
     let* hook := new_hook (HMemo v deps) in
     let* _ := push_hook hook in
     ret v) st.
Proof.
  intros Hr Hp Hc. unfold useMemo.
  by rewrite (bind_val _ _ _ _ _ (old_hook_eq _ _ _ _ _ Hr Hp)), Hc.
Qed.

End effect_facts.

(** A component rendered for the second time: the state at its call of
    useEffect or useMemo.  Fiber 1 is being rendered; hook object 0 of its
    alternate is the effect hook [{deps: null, cleanup: f7}] that a first
    render with [null] for the dependencies left. *)
Module Deps.
Definition in_render : state :=
  State
    [Fiber (Some (Comp 0)) (Some (Props [] [])) None None None None None
       (Some PLACEMENT) (Some [Some 0]) None None None;
     Fiber (Some (Comp 0)) (Some (Props [] [])) None None None None (Some 0)
       (Some UPDATE) (Some []) None None None]
    [HEffect NullDeps (VFun 7)] [] page []
    None None None [] (Some 1) 0 [] false 0 [].

Definition wf : fiber :=
  Fiber (Some (Comp 0)) (Some (Props [] [])) None None None None (Some 0)
    (Some UPDATE) (Some []) None None None.
End Deps.

(** C4. useEffect puts the effect, with the cleanup handle of the previous
    hook object, at the end of the pending list of the fiber exactly when
    the dependencies differ: there is no previous hook object, or no
    dependency list is given ([undefined] or [null]), or some element of
    the new list is not [===] to the corresponding previous element, which
    is the element at the same index of the previous list ([undefined]
    where that list is shorter or was not given, [null] where it was
    [null]); otherwise the pending list is left as it was.  useMemo
    decides in the same way: when the dependencies differ it calls the
    factory and keeps what it returns, otherwise it returns the value of
    the previous hook object and does not call the factory. *)
Theorem effect_enqueued_iff_deps_changed (st : state) (w : nat) (wf : fiber)
    (whs : list (option nat)) (prev : option (nat * hook)) (deps : deplist) :
  rendering st w wf whs → previous st wf prev →
  (∀ effect, ∃ st',
     useEffect effect deps st = (Val (), st')
     ∧ hooks st' !! length (hooks st) = Some (HEffect deps (old_cleanup prev))
     ∧ ((deps_differ (snd <$> prev) deps
         ∧ f_pendingEffects <$> fibers st' !! w
           = Some (Some (default [] (f_pendingEffects wf)
                         ++ [EffectItem effect (old_cleanup prev) (length (hooks st))])))
        ∨ (¬ deps_differ (snd <$> prev) deps
           ∧ f_pendingEffects <$> fibers st' !! w = Some (f_pendingEffects wf))))
  ∧ (∀ factory,
       (deps_differ (snd <$> prev) deps
        ∧ useMemo factory deps st
          = (let* v := factory in
             let* hook := new_hook (HMemo v deps) in
             let* _ := push_hook hook in
             ret v) st)
       ∨ (¬ deps_differ (snd <$> prev) deps
          ∧ ∃ h hk, prev = Some (h, hk)
            ∧ useMemo factory deps st
              = (Val (hook_value hk), memo_stored w whs (hook_value hk) deps st))).
Proof.
  intros Hr Hp.
  pose proof (depsChanged_spec (snd <$> prev) deps) as Hspec.
  split.
  - intros effect. eexists. split; [by eapply useEffect_eq|].
    destruct Hr as (Hw & Hwf & Hhs). unfold effect_used, pushed.
    destruct (depsChanged (snd <$> prev) deps) eqn:E; simpl.
    + split; [by rewrite lookup_app_r, Nat.sub_diag|]. left.
      split; [by apply Hspec|].
      rewrite list_lookup_alter_eq, list_lookup_alter_eq, Hwf. done.
    + split; [by rewrite lookup_app_r, Nat.sub_diag|]. right.
      split; [intros H; apply Hspec in H; congruence|].
      rewrite list_lookup_alter_eq, Hwf. done.
  - intros factory. destruct (depsChanged (snd <$> prev) deps) eqn:E.
    + left. split; [by apply Hspec|].
      eapply useMemo_changed; [exact Hr | exact Hp | exact E].
    + right. split; [intros H; apply Hspec in H; congruence|].
      destruct prev as [[h hk]|]; [|done]. exists h, hk. split; [done|].
      exact (useMemo_unchanged factory deps st w wf whs (Some (h, hk)) Hr Hp E).
Qed.

(** The dependencies were [null], and are now the list of [null] alone:
    the effect is not enqueued. *)
Lemma effect_enqueued_iff_deps_changed_witness :
  f_pendingEffects <$> fibers (run (useEffect 5 (DepList [VNull])) Deps.in_render) !! 1
  = Some None.
Proof.
  pose proof (effect_enqueued_iff_deps_changed Deps.in_render 1 Deps.wf []
    (Some (0, HEffect NullDeps (VFun 7))) (DepList [VNull])) as H.
  destruct H as (H & _).
  { split_and!; reflexivity. }
  { eexists 0, _, _. split_and!; reflexivity. }
  destruct (H 5) as (st' & E & _ & [[Hd _]|[_ Hp]]).
  - exfalso. destruct Hd as [Hd|[Hd|[Hd|(hk & ds & i & d & d' & Hk & Hds & Hi & Hc & He)]]];
      [discriminate Hd..|].
    injection Hk as <-. injection Hds as <-.
    destruct i as [|i]; [|discriminate Hi]. injection Hi as <-.
    inversion Hc; subst. discriminate He.
  - unfold run. rewrite E. exact Hp.
Defined.

(** ** Triggers *)

(** A state hook whose dispatch function escaped from a first render that
    has not been committed yet: its cell 0 exists, [curRoot] is null. *)
Module Early.
Definition not_committed : state :=
  State [] [] [Cell [] true] page [] None None None [] None 0 [] false 0 [].
End Early.

(** C10. A dispatch call made while no tree has been committed appends
    the action to the queue of its cell and does nothing else: the
    work-in-progress root, the cursor, the deletions and the scheduler are
    as before, and no idle callback is requested. The action stays last in
    the queue, and whenever the component is rendered again with this
    queue, useReducer applies the reducer to it after the actions queued
    before it. *)
Theorem dispatch_before_first_commit (st : state) (c : nat) (cl : cell)
    (action : value) :
  curRoot st = None → cells st !! c = Some cl →
  let st' := set_cells (alter (λ cl, Cell (queue cl ++ [action]) (has_dispatch cl)) c) st in
  dispatch c action st = (Val (), st')
  ∧ wipRoot st' = wipRoot st ∧ nextUnit st' = nextUnit st
  ∧ deletions st' = deletions st
  ∧ scheduled st' = scheduled st ∧ idle_requests st' = idle_requests st
  ∧ queue <$> cells st' !! c = Some (queue cl ++ [action])
  ∧ (∀ apply_fn reducer initial st2 w wf whs h s,
       rendering st2 w wf whs → previous_hook st2 wf h (HState s c) →
       cells st2 !! c = cells st' !! c →
       (useReducer apply_fn reducer initial st2).1
       = Val (reducer (fold_left reducer (queue cl) s) action, c)).
Proof.
  intros Hcur Hc st'.
  assert (cells st' !! c = Some (Cell (queue cl ++ [action]) (has_dispatch cl))) as Hc'.
  { subst st'. simpl. by rewrite list_lookup_alter_eq, Hc. }
  split_and!; try reflexivity.
  - unfold dispatch.
    rewrite (bind_val _ _ _ _ _ (read_cell_eq _ _ _ Hc)).
    unfold bind at 1, write_cell, modify.
    unfold scheduleUpdate, bind, get. simpl. by rewrite Hcur.
  - by rewrite Hc'.
  - intros apply_fn reducer initial st2 w wf whs h s Hr Hp Hc2.
    rewrite Hc' in Hc2.
    erewrite useReducer_rerender by done. simpl.
    by rewrite fold_left_app.
Qed.

Lemma dispatch_before_first_commit_witness :
  dispatch 0 (VFun 0) Early.not_committed
  = (Val (), State [] [] [Cell [VFun 0] true] page [] None None None [] None 0 []
               false 0 []).
Proof.
  exact (proj1 (dispatch_before_first_commit Early.not_committed 0 (Cell [] true)
                  (VFun 0) eq_refl eq_refl)).
Defined.

(** ** Flattening of children *)

(** What one child value contributes to the children of a description,
    in the words of the specification: nothing for null, undefined and
    false, the contributions of its items for an array, itself for any
    other object, and a text description for any other value. *)
Fixpoint contribution (c : child) : list child :=
  if dropped c then []
  else match c with
       | CArr items => flat_map contribution items
       | _ => [text_or_object c]
       end.

Lemma flatPush_item_contribution : ∀ c out,
  flatPush_item out c = out ++ contribution c.
Proof.
  fix IH 1. intros [v|items|t a ch] out.
  - cbn [flatPush_item contribution].
    destruct (dropped (CVal v)); [by rewrite app_nil_r | done].
  - simpl. revert out. induction items as [|c items IHitems]; intros out; simpl.
    + by rewrite app_nil_r.
    + rewrite IHitems, IH. by rewrite <- app_assoc.
  - simpl. done.
Qed.

(** createElement and flatPush follow the flattening rule. *)
Lemma flatPush_spec (out arr : list child) :
  flatPush out arr = out ++ flat_map contribution arr.
Proof.
  unfold flatPush. revert out. induction arr as [|c arr IH]; intros out; simpl.
  - by rewrite app_nil_r.
  - rewrite IH, flatPush_item_contribution. by rewrite <- app_assoc.
Qed.

Lemma createElement_children (type : etype) (attrs : list (string * value))
    (args : list child) :
  createElement type attrs args
  = CElem type (alist_del "children" attrs) (flat_map contribution args).
Proof. unfold createElement. by rewrite flatPush_spec. Qed.

(** No raw value is left among the children createElement builds. *)
Lemma contribution_objects : ∀ c, Forall (λ x, child_is_object x = true) (contribution c).
Proof.
  fix IH 1. intros [v|items|t a ch]; cbn [contribution].
  - destruct (dropped (CVal v)); [constructor|].
    repeat constructor. unfold text_or_object.
    by destruct (child_is_object (CVal v)) eqn:E.
  - induction items as [|c items IHitems]; simpl; [constructor|].
    apply Forall_app. split; [apply IH | apply IHitems].
  - repeat constructor.
Qed.

(** flattenChildren drops and splices in the same way, and leaves every
    other value as it is. *)
Fixpoint kept (c : child) : list child :=
  if dropped c then []
  else match c with
       | CArr items => flat_map kept items
       | _ => [c]
       end.

Lemma flattenChildren_kept : ∀ output, flattenChildren output = kept output.
Proof.
  fix IH 1. intros [v|items|t a ch]; simpl; [done| |done].
  induction items as [|c items IHitems]; simpl; [done|].
  rewrite IHitems. f_equal.
  pose proof (IH c) as Hc.
  destruct c as [v|items'|t a ch]; simpl; [done| |done].
  exact Hc.
Qed.

(** A component that returns the string "hello" *)
Module Greeting.
Definition components (c : nat) (p : option props) : comp :=
  Return (CVal (VStr "hello")).

Definition fns (f : nat) (v : value) : value := VUndefined.

Definition history : list trigger :=
  [Render (createElement (Comp 0) [] []) 0].
End Greeting.

(** C7 at the input that fails: a string in child position of
    createElement becomes a text description, but a string that a
    component returns is left as it is by flattenChildren; the fiber made
    for it has no props, and the unit of work on that fiber throws a
    TypeError. *)
Theorem flattenChildren_keeps_raw_values :
  createElement (Host "p") [] [CVal (VStr "hello")]
  = CElem (Host "p") [] [createTextElement "hello"]
  ∧ flattenChildren (CVal (VStr "hello")) = [CVal (VStr "hello")]
  ∧ (let st := after 100 Greeting.fns Greeting.components Greeting.history
                 (initial_state page) in
     (idle 100 Greeting.fns Greeting.components (plenty 10) st).1
     = Exn (TypeError "fiber.props is undefined")).
Proof. split_and!; vm_compute; reflexivity. Qed.

(** ** Deletion *)

(** A panel that renders two items side by side; each item has an effect
    with a cleanup. Function 10 is the effect of the first item and
    returns the cleanup 11, function 20 is the effect of the second item
    and returns the cleanup 21. The panel is mounted under a div and then
    taken away. *)
Module Panel.
Definition components (c : nat) (p : option props) : comp :=
  match c with
  | 0 => Return (CArr [createElement (Comp 1) [] []; createElement (Comp 2) [] []])
  | 1 => UseEffect 10 (DepList []) (Return (createElement (Host "span") [] []))
  | _ => UseEffect 20 (DepList []) (Return (createElement (Host "b") [] []))
  end.

Definition fns (f : nat) (v : value) : value :=
  match f with
  | 10 => VFun 11
  | 20 => VFun 21
  | _ => VUndefined
  end.

Definition history : list trigger :=
  [Render (createElement (Host "div") [] [createElement (Comp 0) [] []]) 0;
   Idle (plenty 20);
   Render (createElement (Host "div") [] []) 0;
   Idle (plenty 20)].
End Panel.

(** C6 at the input that fails: when the panel is deleted, the first
    output node of its subtree is removed and the cleanup of the first
    item runs once, but the cleanup of the second item, which the hook of
    a fiber of the deleted subtree holds, is never called, and the output
    node of the second item stays under the div. *)
Theorem cleanupEffectTree_skips_siblings :
  let st := after 100 Panel.fns Panel.components Panel.history (initial_state page) in
  deletions st = [2]
  ∧ f_child <$> fibers st !! 2 = Some (Some 3)
  ∧ f_sibling <$> fibers st !! 3 = Some (Some 4)
  ∧ f_hooks <$> fibers st !! 4 = Some (Some [Some 1])
  ∧ hooks st !! 1 = Some (HEffect (DepList []) (VFun 21))
  ∧ cleanups_in (trace st) = [11]
  ∧ removals_in (trace st) = [(1, 2)]
  ∧ n_children <$> nodes st !! 1 = Some [3].
Proof. vm_compute. split_and!; reflexivity. Qed.

(** ** Reconciliation: what one turn of the loop does *)

(** [sameType]: the old fiber found for [el], with its type and its
    output node, when the description is truthy and the types are equal *)
Definition compatible_old (st : state) (old : option nat) (el : child)
    : option (nat * option etype * option nat) :=
  match old with
  | Some o =>
      match fibers st !! o with
      | Some f =>
          if el_truthy el && bool_decide (f_type f = el_type el)
          then Some (o, f_type f, f_dom f) else None
      | None => None
      end
  | None => None
  end.

(** The old fiber that the turn marks for deletion, if any *)
Definition marked (same : option (nat * option etype * option nat))
    (old : option nat) : list nat :=
  match same, old with
  | None, Some o => [o]
  | _, _ => []
  end.

(** The fibers after [old.effectTag = DELETION] for each fiber of [D] *)
Definition mark_fibers (D : list nat) (fs : list fiber) : list fiber :=
  fold_left (λ fs o, alter (set_f_effectTag (Some DELETION)) o fs) D fs.

(** The state after [old.effectTag = DELETION; deletions.push(old)] for
    each fiber of [D] in turn *)
Definition mark_all (D : list nat) (st : state) : state :=
  set_deletions (λ l, l ++ D) (set_fibers (mark_fibers D) st).

(** The fiber object made for [el] *)
Definition new_child (parent : nat) (ctx : option (gmap nat value)) (el : child)
    (same : option (nat * option etype * option nat)) : fiber :=
  match same with
  | Some (o, t, d) =>
      Fiber t (el_props el) d (Some parent) None None
        (Some o) (Some UPDATE) (Some []) ctx None None
  | None =>
      Fiber (el_type el) (el_props el) None (Some parent) None None
        None (Some PLACEMENT) (Some []) ctx None None
  end.

(** The link to the new fiber: from the parent for the first
    description, from the previous new fiber for the others *)
Definition linked (parent i : nat) (prev : option nat) (new : nat)
    (fs : list fiber) : list fiber :=
  if decide (i = 0) then alter (set_f_child (Some new)) parent fs
  else match prev with
       | Some p => alter (set_f_sibling (Some new)) p fs
       | None => fs
       end.

Definition step_state (parent i : nat) (prev : option nat) (el : child)
    (old : option nat) (st : state) : state :=
  let same := compatible_old st old el in
  let st1 := mark_all (marked same old) st in
  let ctx := default None (f_contextMap <$> fibers st1 !! parent) in
  set_fibers (λ fs, linked parent i prev (length fs)
                      (fs ++ [new_child parent ctx el same])) st1.

Lemma mark_all_cons (o : nat) (D : list nat) (st : state) :
  mark_all D (set_deletions (λ l, l ++ [o])
                (set_fibers (alter (set_f_effectTag (Some DELETION)) o) st))
  = mark_all (o :: D) st.
Proof.
  unfold mark_all, set_deletions, set_fibers. simpl. by rewrite <- app_assoc.
Qed.

Lemma mark_all_nil (st : state) : mark_all [] st = st.
Proof. unfold mark_all, set_deletions, set_fibers. simpl. rewrite app_nil_r. by destruct st. Qed.

Lemma for_each_mark (D : list nat) (st : state) :
  for_each D mark_deletion st = (Val (), mark_all D st).
Proof.
  revert st. induction D as [|o D IH]; intros st; simpl.
  - by rewrite mark_all_nil.
  - unfold bind at 1, mark_deletion at 1, bind, write_fiber, modify. simpl.
    rewrite IH. by rewrite mark_all_cons.
Qed.

Ltac step_done :=
  unfold bind, new_fiber, write_fiber, modify, linked, ret; simpl;
  repeat (first [ rewrite list_lookup_alter_eq
                | rewrite list_lookup_alter_ne by done
                | rewrite length_alter
                | match goal with
                  | H : fibers _ !! _ = Some _ |- _ => rewrite H
                  end ]; simpl);
  destruct (decide (_ = 0));
    [|match goal with |- context [match ?p with Some _ => _ | None => _ end] =>
        destruct p end];
  unfold set_fibers, set_deletions; simpl; rewrite ?length_alter, ?app_nil_r;
  try reflexivity;
  match goal with s : state |- _ => by destruct s end.

Lemma reconcile_step_eq (parent : nat) (byPos : list nat) (i : nat) (el : child)
    (keyMap : option keymap) (posIdx : nat) (prev : option nat) (st : state) :
  is_Some (fibers st !! parent) →
  (∀ o, (find_old byPos el keyMap posIdx).1.1 = Some o → is_Some (fibers st !! o)) →
  nullish_child el = false →
  reconcile_step parent byPos i el (keyMap, posIdx, prev) st
  = (Val ((find_old byPos el keyMap posIdx).1.2, (find_old byPos el keyMap posIdx).2,
          Some (length (fibers st))),
     step_state parent i prev el (find_old byPos el keyMap posIdx).1.1 st).
Proof.
  intros [pf Hpf] Hold Hel.
  unfold reconcile_step, step_state, compatible_old, marked, mark_all.
  destruct (find_old byPos el keyMap posIdx) as [[old keyMap'] posIdx']. simpl in *.
  destruct old as [o|]; simpl.
  - destruct (Hold o eq_refl) as [f Hf].
    unfold bind, ret, read_fiber, mark_deletion, bind, write_fiber, modify. simpl.
    rewrite Hf. simpl.
    destruct (el_truthy el && bool_decide (f_type f = el_type el)); simpl.
    + rewrite Hpf. step_done.
    + rewrite Hel. destruct (decide (parent = o)) as [->|Hne].
      * rewrite list_lookup_alter_eq, Hf. step_done.
      * rewrite list_lookup_alter_ne, Hpf by done. step_done.
  - unfold bind, ret, read_fiber. simpl. rewrite Hel, Hpf. step_done.
Qed.

(** ** Reconciliation: the loop over the descriptions *)

Definition mark_if (b : bool) (f : fiber) : fiber :=
  if b then set_f_effectTag (Some DELETION) f else f.
Definition child_if (b : bool) (c : nat) (f : fiber) : fiber :=
  if b then set_f_child (Some c) f else f.
Definition sibling_if (b : bool) (c : nat) (f : fiber) : fiber :=
  if b then set_f_sibling (Some c) f else f.

Lemma mark_fibers_lookup (D : list nat) (fs : list fiber) (a : nat) :
  mark_fibers D fs !! a = mark_if (bool_decide (a ∈ D)) <$> fs !! a.
Proof.
  revert fs. induction D as [|o D IH]; intros fs; simpl.
  - by destruct (fs !! a).
  - rewrite IH. destruct (decide (a = o)) as [->|Hne].
    + rewrite list_lookup_alter_eq. destruct (fs !! o) as [f|]; [|done]. simpl.
      rewrite (bool_decide_eq_true_2 (o ∈ o :: D)) by set_solver.
      by destruct (bool_decide (o ∈ D)).
    + rewrite list_lookup_alter_ne by done.
      by rewrite (bool_decide_ext (a ∈ o :: D) (a ∈ D)) by set_solver.
Qed.

Lemma mark_fibers_length (D : list nat) (fs : list fiber) :
  length (mark_fibers D fs) = length fs.
Proof.
  revert fs. induction D as [|o D IH]; intros fs; simpl; [done|].
  by rewrite IH, length_alter.
Qed.

Lemma linked_lookup (parent i : nat) (prev : option nat) (new : nat)
    (fs : list fiber) (a : nat) :
  linked parent i prev new fs !! a
  = (λ f, child_if (bool_decide (i = 0 ∧ a = parent)) new
            (sibling_if (bool_decide (i ≠ 0 ∧ prev = Some a)) new f)) <$> fs !! a.
Proof.
  unfold linked. destruct (decide (i = 0)) as [->|Hi].
  - rewrite (bool_decide_eq_false_2 (0 ≠ 0 ∧ _)) by naive_solver.
    destruct (decide (a = parent)) as [->|Hne].
    + rewrite list_lookup_alter_eq, bool_decide_eq_true_2 by done. done.
    + rewrite list_lookup_alter_ne, bool_decide_eq_false_2 by naive_solver.
      by destruct (fs !! a).
  - rewrite (bool_decide_eq_false_2 (i = 0 ∧ _)) by naive_solver.
    destruct prev as [p|].
    + destruct (decide (a = p)) as [->|Hne].
      * rewrite list_lookup_alter_eq, bool_decide_eq_true_2 by done. done.
      * rewrite list_lookup_alter_ne, bool_decide_eq_false_2 by naive_solver.
        by destruct (fs !! a).
    + rewrite bool_decide_eq_false_2 by naive_solver. by destruct (fs !! a).
Qed.

Lemma linked_length (parent i : nat) (prev : option nat) (new : nat) (fs : list fiber) :
  length (linked parent i prev new fs) = length fs.
Proof.
  unfold linked. destruct (decide (i = 0)); [|destruct prev];
    by rewrite ?length_alter.
Qed.

(** [st'] is [st] but for its fibers and its deletions. *)
Definition same_but_fibers (st st' : state) : Prop :=
  st' = set_deletions (λ _, deletions st') (set_fibers (λ _, fibers st') st).

Lemma same_but_fibers_refl st : same_but_fibers st st.
Proof. unfold same_but_fibers. by destruct st. Qed.

Lemma same_but_fibers_trans st1 st2 st3 :
  same_but_fibers st1 st2 → same_but_fibers st2 st3 → same_but_fibers st1 st3.
Proof.
  unfold same_but_fibers. intros H1 H2. rewrite H2 at 1. rewrite H1 at 1.
  by destruct st1.
Qed.

Lemma step_state_same parent i prev el old st :
  same_but_fibers st (step_state parent i prev el old st).
Proof. unfold same_but_fibers, step_state, mark_all. by destruct st. Qed.

Lemma mark_all_same D st : same_but_fibers st (mark_all D st).
Proof. unfold same_but_fibers, mark_all. by destruct st. Qed.

(** The old fibers found for the descriptions, in order, and the loop
    variables [keyMap] and [posIdx] after the loop *)
Fixpoint lookups (byPos : list nat) (els : list child) (keyMap : option keymap)
    (posIdx : nat) : list (option nat) :=
  match els with
  | [] => []
  | el :: rest =>
      let r := find_old byPos el keyMap posIdx in
      r.1.1 :: lookups byPos rest r.1.2 r.2
  end.

Fixpoint final_vars (byPos : list nat) (els : list child) (keyMap : option keymap)
    (posIdx : nat) : option keymap * nat :=
  match els with
  | [] => (keyMap, posIdx)
  | el :: rest =>
      let r := find_old byPos el keyMap posIdx in
      final_vars byPos rest r.1.2 r.2
  end.

(** The old fibers the loop marks for deletion, in order *)
Fixpoint loop_marked (st : state) (els : list child) (olds : list (option nat))
    : list nat :=
  match els, olds with
  | el :: els', old :: olds' =>
      marked (compatible_old st old el) old ++ loop_marked st els' olds'
  | _, _ => []
  end.

(** What the loop does to a fiber that was there before it *)
Definition loop_old (parent i : nat) (prev : option nat) (base n : nat)
    (D : list nat) (a : nat) (f : fiber) : fiber :=
  child_if (bool_decide (i = 0 ∧ 0 < n ∧ a = parent)) base
    (sibling_if (bool_decide (i ≠ 0 ∧ 0 < n ∧ prev = Some a)) base
       (mark_if (bool_decide (a ∈ D)) f)).

Definition valid_olds (base : nat) (olds : list (option nat)) : Prop :=
  ∀ j o, olds !! j = Some (Some o) → o < base.

Record loop_post (parent i : nat) (prev : option nat) (els : list child)
    (olds : list (option nat)) (st st' : state) : Prop := LoopPost {
  lp_length : length (fibers st') = length (fibers st) + length els;
  lp_old : ∀ a, a < length (fibers st) →
    fibers st' !! a
    = loop_old parent i prev (length (fibers st)) (length els)
        (loop_marked st els olds) a <$> fibers st !! a;
  lp_new : ∀ j el old, els !! j = Some el → olds !! j = Some old →
    fibers st' !! (length (fibers st) + j)
    = Some (sibling_if (bool_decide (S j < length els)) (length (fibers st) + S j)
              (new_child parent (default None (f_contextMap <$> fibers st !! parent))
                 el (compatible_old st old el)));
  lp_deletions : deletions st' = deletions st ++ loop_marked st els olds;
  lp_same : same_but_fibers st st'
}.

Lemma compatible_old_stable (st st1 : state) (old : option nat) (el : child) :
  (∀ o, old = Some o →
     ∃ g, fibers st1 !! o = g <$> fibers st !! o
          ∧ ∀ f, f_type (g f) = f_type f ∧ f_dom (g f) = f_dom f) →
  compatible_old st1 old el = compatible_old st old el.
Proof.
  intros H. destruct old as [o|]; [|done]. simpl.
  destruct (H o eq_refl) as (g & -> & Hg).
  destruct (fibers st !! o) as [f|]; [|done]. simpl.
  destruct (Hg f) as [-> ->]. done.
Qed.

Lemma loop_old_static parent i prev base n D a f :
  f_type (loop_old parent i prev base n D a f) = f_type f
  ∧ f_dom (loop_old parent i prev base n D a f) = f_dom f
  ∧ f_contextMap (loop_old parent i prev base n D a f) = f_contextMap f
  ∧ f_props (loop_old parent i prev base n D a f) = f_props f
  ∧ f_alternate (loop_old parent i prev base n D a f) = f_alternate f
  ∧ f_parent (loop_old parent i prev base n D a f) = f_parent f
  ∧ f_hooks (loop_old parent i prev base n D a f) = f_hooks f.
Proof.
  unfold loop_old, child_if, sibling_if, mark_if.
  repeat case_bool_decide; done.
Qed.

Section step_state_facts.
Context (parent i : nat) (prev : option nat) (el : child) (old : option nat)
  (st : state).
Context (Hparent : parent < length (fibers st)).
Context (Hprev : ∀ p, prev = Some p → p < length (fibers st)).

Lemma step_state_length :
  length (fibers (step_state parent i prev el old st)) = S (length (fibers st)).
Proof.
  unfold step_state, mark_all. simpl.
  rewrite linked_length, length_app, mark_fibers_length. simpl. lia.
Qed.

Lemma step_state_old (a : nat) :
  a < length (fibers st) →
  fibers (step_state parent i prev el old st) !! a
  = (λ f, child_if (bool_decide (i = 0 ∧ a = parent)) (length (fibers st))
            (sibling_if (bool_decide (i ≠ 0 ∧ prev = Some a)) (length (fibers st))
               (mark_if (bool_decide (a ∈ marked (compatible_old st old el) old)) f)))
    <$> fibers st !! a.
Proof.
  intros Ha. unfold step_state, mark_all. simpl.
  rewrite linked_lookup, lookup_app_l by (by rewrite mark_fibers_length).
  rewrite mark_fibers_lookup, mark_fibers_length.
  by destruct (fibers st !! a).
Qed.

Lemma step_state_new :
  fibers (step_state parent i prev el old st) !! length (fibers st)
  = Some (new_child parent (default None (f_contextMap <$> fibers st !! parent)) el
            (compatible_old st old el)).
Proof.
  unfold step_state, mark_all. simpl.
  rewrite linked_lookup, mark_fibers_length.
  rewrite lookup_app_r by (by rewrite mark_fibers_length).
  rewrite mark_fibers_length, Nat.sub_diag. simpl.
  rewrite bool_decide_eq_false_2 by lia.
  rewrite bool_decide_eq_false_2.
  2: { intros [_ H]. apply Hprev in H. lia. }
  simpl. do 3 f_equal. rewrite mark_fibers_lookup.
  destruct (fibers st !! parent) as [f|]; [|done]. simpl.
  by destruct (bool_decide _).
Qed.

Lemma step_state_deletions :
  deletions (step_state parent i prev el old st)
  = deletions st ++ marked (compatible_old st old el) old.
Proof. done. Qed.
End step_state_facts.

Lemma loop_old_nil parent i prev base a f :
  loop_old parent i prev base 0 [] a f = f.
Proof.
  unfold loop_old.
  rewrite !bool_decide_eq_false_2; [done | set_solver | lia | lia].
Qed.

Lemma loop_old_step parent i prev base n D1 DR a f :
  a < base →
  loop_old parent (S i) (Some base) (S base) n DR a
    (child_if (bool_decide (i = 0 ∧ a = parent)) base
       (sibling_if (bool_decide (i ≠ 0 ∧ prev = Some a)) base
          (mark_if (bool_decide (a ∈ D1)) f)))
  = loop_old parent i prev base (S n) (D1 ++ DR) a f.
Proof.
  intros Ha. unfold loop_old.
  rewrite (bool_decide_eq_false_2 (S i = 0 ∧ _)) by lia.
  rewrite (bool_decide_eq_false_2 (S i ≠ 0 ∧ _ ∧ Some base = Some a)).
  2: { intros (_ & _ & [= ->]). lia. }
  rewrite (bool_decide_ext (i = 0 ∧ 0 < S n ∧ a = parent) (i = 0 ∧ a = parent))
    by (intuition lia).
  rewrite (bool_decide_ext (i ≠ 0 ∧ 0 < S n ∧ prev = Some a) (i ≠ 0 ∧ prev = Some a))
    by (intuition lia).
  rewrite (bool_decide_ext (a ∈ D1 ++ DR) (a ∈ D1 ∨ a ∈ DR)) by set_solver.
  unfold child_if, sibling_if, mark_if.
  destruct (bool_decide (i = 0 ∧ a = parent)), (bool_decide (i ≠ 0 ∧ prev = Some a)),
    (bool_decide (a ∈ D1)) eqn:E1, (bool_decide (a ∈ DR)) eqn:E2;
    try apply bool_decide_eq_true_1 in E1; try apply bool_decide_eq_false_1 in E1;
    try apply bool_decide_eq_true_1 in E2; try apply bool_decide_eq_false_1 in E2;
    simpl;
    first [ rewrite bool_decide_eq_true_2 by tauto
          | rewrite bool_decide_eq_false_2 by tauto ];
    done.
Qed.

Lemma loop_marked_valid (st : state) (base : nat) (els : list child)
    (olds : list (option nat)) (a : nat) :
  valid_olds base olds → a ∈ loop_marked st els olds → a < base.
Proof.
  revert olds. induction els as [|el els IH]; intros [|old olds] Hv; simpl;
    try (intros H; by apply elem_of_nil in H).
  rewrite elem_of_app. intros [H|H].
  - unfold marked in H. destruct (compatible_old st old el), old as [o|];
      try (by apply elem_of_nil in H).
    apply list_elem_of_singleton in H as ->. by apply (Hv 0).
  - apply (IH olds); [|done]. intros j o Hj. by apply (Hv (S j)).
Qed.

Lemma loop_marked_stable (st st1 : state) (base : nat) (els : list child)
    (olds : list (option nat)) :
  valid_olds base olds →
  (∀ o, o < base →
     ∃ g, fibers st1 !! o = g <$> fibers st !! o
          ∧ ∀ f, f_type (g f) = f_type f ∧ f_dom (g f) = f_dom f) →
  loop_marked st1 els olds = loop_marked st els olds.
Proof.
  intros Hv Hg. revert olds Hv.
  induction els as [|el els IH]; intros [|old olds] Hv; simpl; try done.
  rewrite (compatible_old_stable st st1 old el).
  - f_equal. apply IH. intros j o Hj. by apply (Hv (S j)).
  - intros o ->. apply Hg. by apply (Hv 0).
Qed.

Lemma reconcile_loop_cons parent byPos i el rest vars :
  reconcile_loop parent byPos i (el :: rest) vars
  = let* vars' := reconcile_step parent byPos i el vars in
    reconcile_loop parent byPos (S i) rest vars'.
Proof. reflexivity. Qed.

Lemma lookups_cons byPos el els keyMap posIdx :
  lookups byPos (el :: els) keyMap posIdx
  = (find_old byPos el keyMap posIdx).1.1
    :: lookups byPos els (find_old byPos el keyMap posIdx).1.2
         (find_old byPos el keyMap posIdx).2.
Proof. reflexivity. Qed.

Lemma final_vars_cons byPos el els keyMap posIdx :
  final_vars byPos (el :: els) keyMap posIdx
  = final_vars byPos els (find_old byPos el keyMap posIdx).1.2
      (find_old byPos el keyMap posIdx).2.
Proof. reflexivity. Qed.

Lemma reconcile_loop_spec (parent : nat) (byPos : list nat) (els : list child) :
  ∀ (i : nat) (keyMap : option keymap) (posIdx : nat) (prev : option nat) (st : state),
    parent < length (fibers st) →
    (∀ p, prev = Some p → p < length (fibers st)) →
    (i ≠ 0 → is_Some prev) →
    valid_olds (length (fibers st)) (lookups byPos els keyMap posIdx) →
    Forall (λ el, nullish_child el = false) els →
    ∃ st',
      reconcile_loop parent byPos i els (keyMap, posIdx, prev) st
      = (Val (final_vars byPos els keyMap posIdx,
              match els with
              | [] => prev
              | _ => Some (length (fibers st) + length els - 1)
              end), st')
      ∧ loop_post parent i prev els (lookups byPos els keyMap posIdx) st st'.
Proof.
  induction els as [|el els IH]; intros i keyMap posIdx prev st Hpar Hprev Hprev' Hv Hels.
  - exists st. split; [done|]. split; simpl.
    + lia.
    + intros a Ha. destruct (fibers st !! a) as [f|]; [|done]. simpl.
      by rewrite loop_old_nil.
    + intros j el old H. by rewrite lookup_nil in H.
    + by rewrite app_nil_r.
    + apply same_but_fibers_refl.
  - apply Forall_cons in Hels as [Hel Hels].
    rewrite reconcile_loop_cons, lookups_cons, final_vars_cons.
    rewrite lookups_cons in Hv.
    set (r := find_old byPos el keyMap posIdx) in *.
    pose proof (reconcile_step_eq parent byPos i el keyMap posIdx prev st) as Hstep.
    pose proof (step_state_length parent i prev el r.1.1 st Hpar) as Hlen1.
    pose proof (step_state_old parent i prev el r.1.1 st) as Hold1.
    pose proof (step_state_new parent i prev el r.1.1 st Hpar Hprev) as Hnew1.
    pose proof (step_state_deletions parent i prev el r.1.1 st) as Hdel1.
    pose proof (step_state_same parent i prev el r.1.1 st) as Hsame1.
    pose proof (lookup_lt_is_Some_2 (fibers st)) as Hlt.
    fold r in Hstep.
    remember (length (fibers st)) as base eqn:Ebase.
    assert (∀ o, r.1.1 = Some o → o < base) as Hold.
    { intros o Ho. apply (Hv 0). simpl. by rewrite Ho. }
    rewrite (bind_val _ _ _ _ _ (Hstep (Hlt _ Hpar) (λ o Ho, Hlt _ (Hold o Ho)) Hel)).
    clear Hstep Hlt.
    generalize dependent (step_state parent i prev el r.1.1 st). intros st1.
    intros Hlen1 Hold1 Hnew1 Hdel1 Hsame1.
    assert (∀ o, o < base →
              ∃ g, fibers st1 !! o = g <$> fibers st !! o
                   ∧ ∀ f, f_type (g f) = f_type f ∧ f_dom (g f) = f_dom f) as Hstatic.
    { intros o Ho. eexists. split; [by apply Hold1|].
      intros f. unfold child_if, sibling_if, mark_if.
      by repeat destruct (bool_decide _). }
    destruct (IH (S i) r.1.2 r.2 (Some base) st1) as (st' & E & HP).
    { rewrite Hlen1. lia. }
    { intros p [= <-]. rewrite Hlen1. lia. }
    { eauto. }
    { rewrite Hlen1. intros j o Hj. specialize (Hv (S j) o Hj). lia. }
    { done. }
    exists st'. split.
    { rewrite E. do 3 f_equal. rewrite Hlen1. destruct els; simpl; f_equal; lia. }
    destruct HP as [L O N Dl Hsame]. rewrite Hlen1 in *.
    assert (valid_olds base (lookups byPos els r.1.2 r.2)) as Hv'.
    { intros j o Hj. by apply (Hv (S j)). }
    rewrite (loop_marked_stable st st1 base) in * by done.
    split; simpl; rewrite <- ?Ebase.
    + rewrite L. lia.
    + intros a Ha. rewrite O by lia.
      rewrite (Hold1 a Ha).
      destruct (fibers st !! a) as [f|]; [|done]. simpl. f_equal.
      by apply loop_old_step.
    + intros [|j] el' old' Hel' Hold'; simpl in *.
      * injection Hel' as <-. injection Hold' as <-.
        rewrite Nat.add_0_r, O by lia.
        rewrite Hnew1. simpl.
        f_equal. unfold loop_old.
        rewrite (bool_decide_eq_false_2 (S i = 0 ∧ _)) by lia.
        rewrite (bool_decide_eq_false_2 (base ∈ _)).
        2: { intros H. eapply loop_marked_valid in H; [|done]. lia. }
        unfold child_if at 1, mark_if.
        rewrite (bool_decide_ext (S i ≠ 0 ∧ 0 < length els ∧ Some base = Some base)
                   (1 < S (length els))) by (intuition lia).
        by rewrite Nat.add_1_r.
      * replace (base + S j) with (S (base + j)) by lia.
        rewrite (N j el' old' Hel' Hold').
        rewrite (compatible_old_stable st st1 old' el').
        2: { intros o ->. apply Hstatic. by apply (Hv' j). }
        rewrite (Hold1 parent Hpar).
        replace (S (base + S j)) with (base + S (S j)) by lia.
        rewrite (bool_decide_ext (S j < length els) (S (S j) < S (length els))) by lia.
        do 3 f_equal.
        destruct (fibers st !! parent) as [f|]; [|done]. simpl.
        unfold child_if, sibling_if, mark_if.
        by repeat destruct (bool_decide _).
    + rewrite Dl, Hdel1. by rewrite <- app_assoc.
    + eapply same_but_fibers_trans; [apply Hsame1 | done].
Qed.

(** ** Reconciliation: the old children *)

(** [chain fs o l]: following [sibling] from the reference [o] visits the
    fibers at the addresses [l], in this order, and ends at null. *)
Inductive chain (fs : list fiber) : option nat → list nat → Prop :=
| chain_nil : chain fs None []
| chain_cons a f l :
    fs !! a = Some f → chain fs (f_sibling f) l → chain fs (Some a) (a :: l).

Lemma chain_valid fs o l a : chain fs o l → a ∈ l → a < length fs.
Proof.
  induction 1 as [|b f l Hb _ IH]; intros Ha.
  - by apply elem_of_nil in Ha.
  - apply elem_of_cons in Ha as [->|Ha]; [by eapply lookup_lt_Some | by apply IH].
Qed.

Lemma chain_fun fs o l1 l2 : chain fs o l1 → chain fs o l2 → l1 = l2.
Proof.
  intros H. revert l2. induction H as [|a f l Ha _ IH]; intros l2 H2.
  - by inversion H2.
  - inversion H2 as [|a' f' l' Ha' Hl']; subst.
    rewrite Ha in Ha'. injection Ha' as <-. f_equal. by apply IH.
Qed.

Lemma chain_suffix fs o l a :
  chain fs o l → a ∈ l → ∃ l', chain fs (Some a) l' ∧ length l' ≤ length l.
Proof.
  induction 1 as [|b f l Hb Hl IH]; intros Ha.
  - by apply elem_of_nil in Ha.
  - apply elem_of_cons in Ha as [->|Ha].
    + exists (b :: l). split; [by econstructor | done].
    + destruct (IH Ha) as (l' & H' & Hlen). exists l'. split; [done|]. simpl. lia.
Qed.

(** A chain that ends visits no fiber twice. *)
Lemma chain_NoDup fs o l : chain fs o l → NoDup l.
Proof.
  induction 1 as [|a f l Ha Hl IH]; constructor; [|done].
  intros Hin. destruct (chain_suffix _ _ _ _ Hl Hin) as (l' & H' & Hlen).
  assert (chain fs (Some a) (a :: l)) as H2 by (by econstructor).
  rewrite (chain_fun _ _ _ _ H' H2) in Hlen. simpl in Hlen. lia.
Qed.

(** The key of an old fiber as a property name, if it has a key *)
Definition old_key (fs : list fiber) (a : nat) : option string :=
  match fs !! a with
  | Some f => if not_nullish (fiber_key f) then Some (to_String (fiber_key f)) else None
  | None => None
  end.

(** The key of a description as a property name, if it has a key *)
Definition new_key (el : child) : option string :=
  if not_nullish (el_key el) then Some (to_String (el_key el)) else None.

(** The lookup structures after the scan of the old children [olds] *)
Definition scan_maps (fs : list fiber) (olds : list nat) (keyMap : option keymap)
    (byPos : list nat) : option keymap * list nat :=
  fold_left (λ (acc : option keymap * list nat) a,
               match old_key fs a with
               | Some k => (Some (alist_set k a (default [] acc.1)), acc.2)
               | None => (acc.1, acc.2 ++ [a])
               end) olds (keyMap, byPos).

Lemma scan_maps_cons fs a olds keyMap byPos :
  scan_maps fs (a :: olds) keyMap byPos
  = match old_key fs a with
    | Some k => scan_maps fs olds (Some (alist_set k a (default [] keyMap))) byPos
    | None => scan_maps fs olds keyMap (byPos ++ [a])
    end.
Proof. unfold scan_maps. simpl. by destruct (old_key fs a). Qed.

Lemma scan_old_spec (n : nat) (o : option nat) (olds : list nat)
    (keyMap : option keymap) (byPos : list nat) (st : state) :
  chain (fibers st) o olds → length olds < n →
  scan_old n o keyMap byPos st
  = (Val (scan_maps (fibers st) olds keyMap byPos), st).
Proof.
  intros H. revert n keyMap byPos.
  induction H as [|a f l Ha Hl IH]; intros n keyMap byPos Hn.
  - by destruct n.
  - destruct n as [|n]; [simpl in Hn; lia|]. simpl in Hn.
    cbn [scan_old]. rewrite (bind_val _ _ _ _ _ (read_fiber_eq _ _ _ Ha)).
    rewrite scan_maps_cons. unfold old_key. rewrite Ha.
    destruct (not_nullish (fiber_key f)); apply IH; lia.
Qed.

(** ** Reconciliation: which old fiber each description finds *)

Section alist_facts.
Context {A : Type}.
Implicit Types l : list (string * A).

Lemma alist_get_set_eq k v l : alist_get k (alist_set k v l) = Some v.
Proof.
  induction l as [|[k' v'] l IH]; simpl.
  - by rewrite decide_True.
  - destruct (decide (k = k')) as [->|Hne]; simpl.
    + by rewrite decide_True.
    + by rewrite decide_False.
Qed.

Lemma alist_get_set_ne k k' v l :
  k ≠ k' → alist_get k' (alist_set k v l) = alist_get k' l.
Proof.
  intros Hne. induction l as [|[k2 v2] l IH]; simpl.
  - by rewrite decide_False.
  - destruct (decide (k = k2)) as [->|]; simpl.
    + by rewrite !decide_False.
    + destruct (decide (k' = k2)); [done | apply IH].
Qed.

Lemma alist_get_del_eq k l : alist_get k (alist_del k l) = None.
Proof.
  unfold alist_del. induction l as [|[k' v'] l IH]; simpl; [done|].
  rewrite filter_cons. simpl. destruct (decide (k' ≠ k)); simpl; [|done].
  by rewrite decide_False.
Qed.

Lemma alist_get_del_ne k k' l :
  k ≠ k' → alist_get k' (alist_del k l) = alist_get k' l.
Proof.
  intros Hne. unfold alist_del. induction l as [|[k2 v2] l IH]; simpl; [done|].
  rewrite filter_cons. simpl. destruct (decide (k2 ≠ k)) as [|Heq]; simpl.
  - destruct (decide (k' = k2)); [done | apply IH].
  - apply dec_stable in Heq as ->. by rewrite decide_False.
Qed.

Lemma alist_get_Some_elem k v l : alist_get k l = Some v → v ∈ l.*2.
Proof.
  induction l as [|[k' v'] l IH]; simpl; [done|].
  destruct (decide (k = k')); [intros [= ->]; left | right; auto].
Qed.

Lemma alist_set_keys k v l x : x ∈ (alist_set k v l).*1 → x = k ∨ x ∈ l.*1.
Proof.
  induction l as [|[k' v'] l IH]; simpl.
  - rewrite list_elem_of_singleton. auto.
  - destruct (decide (k = k')) as [->|]; simpl; rewrite !elem_of_cons.
    + tauto.
    + intros [->|H]; [tauto|]. destruct (IH H); tauto.
Qed.

Lemma alist_set_NoDup k v l : NoDup l.*1 → NoDup (alist_set k v l).*1.
Proof.
  induction l as [|[k' v'] l IH]; simpl; intros Hnd.
  - repeat constructor. set_solver.
  - apply NoDup_cons in Hnd as [Hk Hnd]. simpl in Hk.
    destruct (decide (k = k')) as [->|Hne]; simpl.
    + by constructor.
    + constructor; [|by apply IH].
      intros H. apply alist_set_keys in H as [?|?]; [congruence | done].
Qed.

Lemma alist_del_NoDup k l : NoDup l.*1 → NoDup (alist_del k l).*1.
Proof.
  unfold alist_del. induction l as [|[k' v'] l IH]; simpl; intros Hnd; [done|].
  apply NoDup_cons in Hnd as [Hk Hnd]. rewrite filter_cons. simpl.
  destruct (decide (k' ≠ k)); [|by apply IH]. simpl.
  constructor; [|by apply IH].
  intros H. apply Hk. apply list_elem_of_fmap in H as ([k2 v2] & -> & H).
  apply list_elem_of_filter in H as [_ H]. apply list_elem_of_fmap. by exists (k2, v2).
Qed.

Lemma alist_elem_get k v l : NoDup l.*1 → (k, v) ∈ l → alist_get k l = Some v.
Proof.
  induction l as [|[k' v'] l IH]; simpl; intros Hnd Hin.
  - by apply elem_of_nil in Hin.
  - apply NoDup_cons in Hnd as [Hk Hnd].
    apply elem_of_cons in Hin as [[= <- <-]|Hin]; [by rewrite decide_True|].
    rewrite decide_False; [by apply IH|].
    intros ->. apply Hk. apply list_elem_of_fmap. by exists (k', v).
Qed.

(** An object none of whose properties can be read has none. *)
Lemma alist_get_all_None l : (∀ k, alist_get k l = None) → l = [].
Proof.
  destruct l as [|[k v] l]; [done|]. intros H. specialize (H k). simpl in H.
  by rewrite decide_True in H.
Qed.
End alist_facts.

(** [keyMap[k]], where [keyMap] may still be null *)
Definition km_get (km : option keymap) (k : string) : option nat :=
  alist_get k (default [] km).

Definition km_NoDup (km : option keymap) : Prop := NoDup (default [] km).*1.

Lemma scan_maps_spec (fs : list fiber) (olds : list nat) :
  ∀ (km0 : option keymap) (bp0 : list nat),
    (scan_maps fs olds km0 bp0).2 = bp0 ++ filter (λ a, old_key fs a = None) olds
    ∧ (∀ k, km_get (scan_maps fs olds km0 bp0).1 k
            = match last (filter (λ a, old_key fs a = Some k) olds) with
              | Some a => Some a
              | None => km_get km0 k
              end)
    ∧ (km_NoDup km0 → km_NoDup (scan_maps fs olds km0 bp0).1).
Proof.
  induction olds as [|a olds IH]; intros km0 bp0.
  - unfold scan_maps. simpl. by rewrite app_nil_r.
  - rewrite scan_maps_cons. destruct (old_key fs a) as [k0|] eqn:Ek.
    + destruct (IH (Some (alist_set k0 a (default [] km0))) bp0) as (IH1 & IH2 & IH3).
      split_and!.
      * rewrite IH1. by rewrite filter_cons_False by congruence.
      * intros k. rewrite IH2. destruct (decide (k = k0)) as [->|Hne].
        -- rewrite filter_cons_True by done. rewrite last_cons.
           destruct (last _); [done|]. unfold km_get. simpl.
           apply alist_get_set_eq.
        -- rewrite filter_cons_False by congruence.
           destruct (last _); [done|]. unfold km_get. simpl.
           by apply alist_get_set_ne.
      * intros H. apply IH3. unfold km_NoDup. simpl. by apply alist_set_NoDup.
    + destruct (IH km0 (bp0 ++ [a])) as (IH1 & IH2 & IH3). split_and!.
      * rewrite IH1. rewrite filter_cons_True by done. by rewrite <- app_assoc.
      * intros k. rewrite IH2. by rewrite filter_cons_False by congruence.
      * done.
Qed.

Lemma find_old_keyed byPos el km pi k :
  new_key el = Some k →
  (find_old byPos el km pi).1.1 = km_get km k
  ∧ (∀ k', km_get (find_old byPos el km pi).1.2 k'
           = if decide (k' = k) then None else km_get km k')
  ∧ (find_old byPos el km pi).2 = pi
  ∧ (km_NoDup km → km_NoDup (find_old byPos el km pi).1.2).
Proof.
  unfold new_key, find_old, km_get, km_NoDup.
  destruct (not_nullish (el_key el)); [|done]. intros [= <-].
  destruct km as [l|]; simpl.
  - destruct (alist_get (to_String (el_key el)) l) as [o|] eqn:E; simpl.
    + split_and!; [done| |done|apply alist_del_NoDup].
      intros k'. destruct (decide (k' = _)) as [->|Hne].
      * apply alist_get_del_eq.
      * by apply alist_get_del_ne.
    + split_and!; [done| |done|done].
      intros k'. by destruct (decide (k' = _)) as [->|Hne].
  - split_and!; [done| |done|done]. intros k'. by destruct (decide _).
Qed.

Lemma find_old_unkeyed byPos el km pi :
  new_key el = None → find_old byPos el km pi = (byPos !! pi, km, S pi).
Proof.
  unfold new_key, find_old. by destruct (not_nullish (el_key el)).
Qed.

(** The descriptions without a key among the first [j] *)
Definition unkeyed_before (els : list child) (j : nat) : nat :=
  length (filter (λ el, new_key el = None) (take j els)).

Lemma if_bool_decide_ext {A} (P Q : Prop) `{!Decision P, !Decision Q} (x y : A) :
  (P ↔ Q) → (if bool_decide P then x else y) = (if bool_decide Q then x else y).
Proof. intros H. by rewrite (bool_decide_ext P Q). Qed.

Lemma lookups_spec (byPos : list nat) (els : list child) :
  ∀ (km : option keymap) (pi j : nat) (el : child),
    els !! j = Some el →
    lookups byPos els km pi !! j
    = Some (match new_key el with
            | Some k =>
                if bool_decide (Some k ∈ new_key <$> take j els) then None
                else km_get km k
            | None => byPos !! (pi + unkeyed_before els j)
            end).
Proof.
  induction els as [|el0 els IH]; intros km pi j el Hj; [done|].
  rewrite lookups_cons. destruct j as [|j]; simpl in Hj.
  - injection Hj as ->. simpl. f_equal.
    destruct (new_key el) as [k|] eqn:Ek.
    + by apply find_old_keyed.
    + rewrite find_old_unkeyed by done. unfold unkeyed_before. simpl.
      by rewrite Nat.add_0_r.
  - rewrite lookup_cons. rewrite (IH _ _ j el Hj). f_equal.
    change (take (S j) (el0 :: els)) with (el0 :: take j els).
    unfold unkeyed_before.
    change (take (S j) (el0 :: els)) with (el0 :: take j els).
    rewrite fmap_cons.
    destruct (new_key el0) as [k0|] eqn:Ek0.
    + destruct (find_old_keyed byPos el0 km pi k0 Ek0) as (_ & Hget & -> & _).
      rewrite filter_cons_False by congruence.
      destruct (new_key el) as [k|] eqn:Ek; [|done].
      rewrite Hget.
      destruct (decide (k = k0)) as [->|Hne].
      * rewrite (bool_decide_eq_true_2 (Some k0 ∈ Some k0 :: _)) by set_solver.
        by destruct (bool_decide _).
      * apply if_bool_decide_ext. set_solver.
    + rewrite find_old_unkeyed by done. simpl.
      rewrite filter_cons_True by done.
      destruct (new_key el) as [k|] eqn:Ek.
      * apply if_bool_decide_ext. set_solver.
      * simpl. f_equal. lia.
Qed.

Lemma final_vars_spec (byPos : list nat) (els : list child) :
  ∀ (km : option keymap) (pi : nat),
    (final_vars byPos els km pi).2
    = pi + length (filter (λ el, new_key el = None) els)
    ∧ (∀ k, km_get (final_vars byPos els km pi).1 k
            = if bool_decide (Some k ∈ new_key <$> els) then None else km_get km k)
    ∧ (km_NoDup km → km_NoDup (final_vars byPos els km pi).1).
Proof.
  induction els as [|el els IH]; intros km pi.
  - simpl. split_and!; [lia | done | done].
  - rewrite final_vars_cons. rewrite fmap_cons.
    destruct (IH (find_old byPos el km pi).1.2 (find_old byPos el km pi).2)
      as (IH1 & IH2 & IH3).
    destruct (new_key el) as [k0|] eqn:Ek0.
    + destruct (find_old_keyed byPos el km pi k0 Ek0) as (_ & Hget & Hpi & Hnd).
      rewrite filter_cons_False by congruence. split_and!.
      * by rewrite IH1, Hpi.
      * intros k. rewrite IH2, Hget. destruct (decide (k = k0)) as [->|Hne].
        -- rewrite (bool_decide_eq_true_2 (Some k0 ∈ Some k0 :: _)) by set_solver.
           by destruct (bool_decide _).
        -- apply if_bool_decide_ext. set_solver.
      * auto.
    + rewrite find_old_unkeyed in * by done. simpl in *.
      rewrite filter_cons_True by done. split_and!.
      * rewrite IH1. simpl. lia.
      * intros k. rewrite IH2. apply if_bool_decide_ext. set_solver.
      * done.
Qed.

Lemma for_in_order_Permutation {A} (l : list (string * A)) : for_in_order l ≡ₚ l.
Proof.
  unfold for_in_order. rewrite merge_sort_Permutation.
  induction l as [|[k v] l IH]; simpl; [done|].
  rewrite filter_cons. simpl.
  destruct (array_index k) as [n|] eqn:E; simpl.
  - apply perm_skip, IH.
  - rewrite <- Permutation_middle. apply perm_skip, IH.
Qed.

Lemma for_in_order_values {A} (l : list (string * A)) (x : A) :
  x ∈ (for_in_order l).*2 ↔ x ∈ l.*2.
Proof. by rewrite for_in_order_Permutation. Qed.

(** The old fiber a description is matched with, in the words of the
    specification: a description with a key takes the old fiber under
    that key in the key map, which holds for each key the last old fiber
    that has it, unless an earlier description asked for the same key; a
    description without a key takes the next old fiber without a key. *)
Definition matched (fs : list fiber) (olds : list nat) (els : list child) (j : nat)
    : option nat :=
  match els !! j with
  | Some el =>
      match new_key el with
      | Some k =>
          if bool_decide (Some k ∈ new_key <$> take j els) then None
          else last (filter (λ a, old_key fs a = Some k) olds)
      | None => filter (λ a, old_key fs a = None) olds !! unkeyed_before els j
      end
  | None => None
  end.

Lemma lookups_matched (fs : list fiber) (olds : list nat) (els : list child)
    (j : nat) (el : child) :
  els !! j = Some el →
  lookups (scan_maps fs olds None []).2 els (scan_maps fs olds None []).1 0 !! j
  = Some (matched fs olds els j).
Proof.
  intros Hj. rewrite (lookups_spec _ _ _ _ _ _ Hj). unfold matched. rewrite Hj.
  destruct (scan_maps_spec fs olds None []) as (H1 & H2 & _).
  f_equal. destruct (new_key el) as [k|].
  - rewrite H2. by destruct (last _).
  - by rewrite H1.
Qed.

Lemma matched_old (fs : list fiber) (olds : list nat) (els : list child) (j o : nat) :
  matched fs olds els j = Some o → o ∈ olds.
Proof.
  unfold matched. destruct (els !! j) as [el|]; [|done].
  destruct (new_key el) as [k|].
  - destruct (bool_decide _); [done|]. intros H.
    apply last_Some in H as [l' H].
    assert (o ∈ filter (λ a, old_key fs a = Some k) olds) as Hin.
    { rewrite H. set_solver. }
    by apply list_elem_of_filter in Hin as [_ ?].
  - intros H. apply list_elem_of_lookup_2 in H.
    by apply list_elem_of_filter in H as [_ ?].
Qed.

(** The old fibers left in the lookup structures after the loop, in the
    order in which they are marked *)
Definition leftover (fs : list fiber) (olds : list nat) (els : list child) : list nat :=
  let sm := scan_maps fs olds None [] in
  let fv := final_vars sm.2 els sm.1 0 in
  drop fv.2 sm.2 ++ (for_in_order (default [] fv.1)).*2.

Lemma leftover_old (fs : list fiber) (olds : list nat) (els : list child) (o : nat) :
  o ∈ leftover fs olds els → o ∈ olds.
Proof.
  unfold leftover.
  destruct (scan_maps_spec fs olds None []) as (H1 & H2 & H3).
  destruct (final_vars_spec (scan_maps fs olds None []).2 els
              (scan_maps fs olds None []).1 0) as (F1 & F2 & F3).
  rewrite elem_of_app. intros [H|H].
  - apply list_elem_of_lookup in H as [i H]. rewrite lookup_drop in H.
    apply list_elem_of_lookup_2 in H. rewrite H1 in H. simpl in H.
    by apply list_elem_of_filter in H as [_ ?].
  - rewrite for_in_order_values in H.
    apply list_elem_of_fmap in H as ([k o'] & -> & H). simpl.
    apply alist_elem_get in H; [|apply F3, H3; constructor].
    fold (km_get (final_vars (scan_maps fs olds None []).2 els
                    (scan_maps fs olds None []).1 0).1 k) in H.
    rewrite F2 in H. destruct (bool_decide _); [done|]. rewrite H2 in H.
    destruct (last _) as [a|] eqn:E; [|done]. injection H as ->.
    apply last_Some in E as [l' E].
    assert (o' ∈ filter (λ a, old_key fs a = Some k) olds) as Hin.
    { rewrite E. set_solver. }
    by apply list_elem_of_filter in Hin as [_ ?].
Qed.

(** ** Reconciliation: reconcileChildren *)

(** [fiber.alternate && fiber.alternate.child] *)
Definition old_child (st : state) (pf : fiber) (o : option nat) : Prop :=
  match f_alternate pf with
  | Some a => ∃ af, fibers st !! a = Some af ∧ o = f_child af
  | None => o = None
  end.

(** The old fibers matched with the descriptions, in order *)
Definition found (fs : list fiber) (olds : list nat) (els : list child)
    : list (option nat) :=
  matched fs olds els <$> seq 0 (length els).

Lemma lookups_length byPos els : ∀ km pi, length (lookups byPos els km pi) = length els.
Proof. induction els as [|el els IH]; intros km pi; simpl; [done | by rewrite IH]. Qed.

Lemma lookups_found (fs : list fiber) (olds : list nat) (els : list child) :
  lookups (scan_maps fs olds None []).2 els (scan_maps fs olds None []).1 0
  = found fs olds els.
Proof.
  apply list_eq. intros j. unfold found. rewrite list_lookup_fmap.
  destruct (els !! j) as [el|] eqn:E.
  - rewrite (lookups_matched _ _ _ _ _ E).
    rewrite lookup_seq_lt by (by eapply lookup_lt_Some). done.
  - apply lookup_ge_None in E.
    rewrite lookup_ge_None_2 by (by rewrite lookups_length).
    by rewrite lookup_seq_ge.
Qed.

Lemma found_lookup fs olds els j el :
  els !! j = Some el → found fs olds els !! j = Some (matched fs olds els j).
Proof.
  intros H. unfold found. rewrite list_lookup_fmap.
  by rewrite lookup_seq_lt by (by eapply lookup_lt_Some).
Qed.

(** All the old fibers one call marks for deletion, in order: the ones
    found with another type, then the ones left in [byPos], then the
    ones left in [keyMap] *)
Definition all_marked (st : state) (olds : list nat) (els : list child) : list nat :=
  loop_marked st els (found (fibers st) olds els) ++ leftover (fibers st) olds els.

Record reconciled (parent : nat) (olds : list nat) (els : list child)
    (st st' : state) : Prop := Reconciled {
  rc_length : length (fibers st') = length (fibers st) + length els;
  rc_old : ∀ a, a < length (fibers st) →
    fibers st' !! a
    = (λ f, child_if (bool_decide (0 < length els ∧ a = parent)) (length (fibers st))
              (mark_if (bool_decide (a ∈ all_marked st olds els)) f))
      <$> fibers st !! a;
  rc_new : ∀ j el, els !! j = Some el →
    fibers st' !! (length (fibers st) + j)
    = Some (sibling_if (bool_decide (S j < length els)) (length (fibers st) + S j)
              (new_child parent (default None (f_contextMap <$> fibers st !! parent))
                 el (compatible_old st (matched (fibers st) olds els j) el)));
  rc_deletions : deletions st' = deletions st ++ all_marked st olds els;
  rc_same : same_but_fibers st st'
}.

Lemma all_marked_old st olds els a : a ∈ all_marked st olds els → a ∈ olds.
Proof.
  unfold all_marked. rewrite elem_of_app. intros [H|H]; [|by eapply leftover_old].
  assert (∀ ms, (∀ j o, ms !! j = Some (Some o) → o ∈ olds) →
                a ∈ loop_marked st els ms → a ∈ olds) as Hgen.
  { clear H. induction els as [|el els IH]; intros [|m ms] Hms; simpl;
      try (intros H; by apply elem_of_nil in H).
    rewrite elem_of_app. intros [H|H].
    - unfold marked in H. destruct (compatible_old st m el), m as [o|];
        try (by apply elem_of_nil in H).
      apply list_elem_of_singleton in H as ->. by apply (Hms 0).
    - apply (IH ms); [|done]. intros j o Hj. by apply (Hms (S j)). }
  eapply Hgen; [|exact H]. intros j o Hj. unfold found in Hj.
  rewrite list_lookup_fmap in Hj.
  destruct (seq 0 (length els) !! j) as [j'|]; [|done]. simpl in Hj.
  injection Hj as Hj. by eapply matched_old.
Qed.

Lemma new_child_sibling parent ctx el same :
  set_f_sibling None (new_child parent ctx el same) = new_child parent ctx el same.
Proof. unfold new_child. by destruct same as [[[o t] d]|]. Qed.

Lemma mark_all_fibers D st a :
  fibers (mark_all D st) !! a = mark_if (bool_decide (a ∈ D)) <$> fibers st !! a.
Proof. unfold mark_all. simpl. apply mark_fibers_lookup. Qed.

Lemma mark_all_length D st : length (fibers (mark_all D st)) = length (fibers st).
Proof. unfold mark_all. simpl. apply mark_fibers_length. Qed.

Lemma mark_if_out (D : list nat) (a : nat) (f : fiber) :
  a ∉ D → mark_if (bool_decide (a ∈ D)) f = f.
Proof. intros H. by rewrite bool_decide_eq_false_2. Qed.

Lemma reconcileChildren_spec (fuel parent : nat) (els : list child) (st : state)
    (pf : fiber) (o : option nat) (olds : list nat) :
  fibers st !! parent = Some pf →
  old_child st pf o →
  chain (fibers st) o olds →
  length olds < fuel →
  Forall (λ el, nullish_child el = false) els →
  ∃ st', reconcileChildren fuel parent els st = (Val (), st')
         ∧ reconciled parent olds els st st'.
Proof.
  intros Hpf Ho Hch Hfuel Hels.
  pose proof (lookups_found (fibers st) olds els) as Hfound.
  pose proof (eq_refl : leftover (fibers st) olds els = _) as Hleft.
  unfold leftover at 2 in Hleft.
  unfold reconcileChildren.
  rewrite (bind_val _ _ _ _ _ (read_fiber_eq _ _ _ Hpf)).
  assert ((match f_alternate pf with
           | Some a => let* af := read_fiber a in ret (f_child af)
           | None => ret None
           end) st = (Val o, st)) as E0.
  { unfold old_child in Ho. destruct (f_alternate pf) as [a|].
    - destruct Ho as (af & Haf & ->).
      by rewrite (bind_val _ _ _ _ _ (read_fiber_eq _ _ _ Haf)).
    - by subst. }
  rewrite (bind_val _ _ _ _ _ E0).
  rewrite (bind_val _ _ _ _ _ (scan_old_spec _ _ _ _ _ _ Hch Hfuel)).
  destruct (scan_maps (fibers st) olds None []) as [km0 byPos]. simpl in Hfound, Hleft.
  assert (parent < length (fibers st)) as Hpar by (by eapply lookup_lt_Some).
  assert (∀ a, a ∈ olds → a < length (fibers st)) as Hvalid.
  { intros a. by eapply chain_valid. }
  destruct (reconcile_loop_spec parent byPos els 0 km0 0 None st) as (st1 & E1 & HP);
    [done | done | done | | done |].
  { rewrite Hfound. intros j a Hj. apply Hvalid. unfold found in Hj.
    rewrite list_lookup_fmap in Hj.
    destruct (seq 0 (length els) !! j) as [j'|]; [|done]. simpl in Hj.
    injection Hj as Hj. by eapply matched_old. }
  rewrite (bind_val _ _ _ _ _ E1). rewrite Hfound in HP. clear E1 Hfound.
  destruct (final_vars byPos els km0 0) as [km' pi']. simpl in Hleft.
  rewrite (bind_val _ _ _ _ _ (for_each_mark _ _)).
  set (D2 := drop pi' byPos) in *.
  set (D3 := (for_in_order (default [] km')).*2) in *.
  assert ((match km' with
           | Some km => for_each (for_in_order km).*2 mark_deletion
           | None => ret ()
           end) (mark_all D2 st1) = (Val (), mark_all D3 (mark_all D2 st1))) as E3.
  { subst D3. destruct km' as [km|]; simpl.
    - apply for_each_mark.
    - by rewrite mark_all_nil. }
  rewrite (bind_val _ _ _ _ _ E3). clear E3.
  destruct HP as [L O N Dl Hsame].
  assert (∀ a, a ∈ D2 ++ D3 → a < length (fibers st)) as HD23.
  { intros a Ha. apply Hvalid. eapply leftover_old. by rewrite Hleft. }
  set (D1 := loop_marked st els (found (fibers st) olds els)) in *.
  assert (all_marked st olds els = D1 ++ D2 ++ D3) as HD.
  { unfold all_marked. by rewrite Hleft. }
  set (st3 := mark_all D3 (mark_all D2 st1)).
  assert (∀ a, fibers st3 !! a
               = mark_if (bool_decide (a ∈ D2 ++ D3)) <$> fibers st1 !! a) as H3.
  { intros a. subst st3. rewrite !mark_all_fibers.
    destruct (fibers st1 !! a) as [f|]; [|done]. simpl. f_equal.
    rewrite (bool_decide_ext (a ∈ D2 ++ D3) (a ∈ D2 ∨ a ∈ D3)) by set_solver.
    unfold mark_if.
    destruct (bool_decide (a ∈ D2)) eqn:E2, (bool_decide (a ∈ D3)) eqn:E3;
      try apply bool_decide_eq_true_1 in E2; try apply bool_decide_eq_false_1 in E2;
      try apply bool_decide_eq_true_1 in E3; try apply bool_decide_eq_false_1 in E3;
      first [ rewrite bool_decide_eq_true_2 by tauto
            | rewrite bool_decide_eq_false_2 by tauto ]; done. }
  assert (length (fibers st3) = length (fibers st) + length els) as L3.
  { subst st3. by rewrite !mark_all_length. }
  assert (deletions st3 = deletions st ++ all_marked st olds els) as Dl3.
  { subst st3. unfold mark_all. simpl. rewrite Dl, HD. by rewrite <- !app_assoc. }
  assert (same_but_fibers st st3) as S3.
  { subst st3. eapply same_but_fibers_trans; [exact Hsame|].
    eapply same_but_fibers_trans; apply mark_all_same. }
  assert (∀ a, a < length (fibers st) →
            fibers st3 !! a
            = (λ f, child_if (bool_decide (0 < length els ∧ a = parent))
                      (length (fibers st))
                      (mark_if (bool_decide (a ∈ all_marked st olds els)) f))
              <$> fibers st !! a) as O3.
  { intros a Ha. rewrite H3, O by done.
    destruct (fibers st !! a) as [f|]; [|done]. simpl. f_equal.
    unfold loop_old. rewrite HD.
    rewrite (bool_decide_eq_false_2 (0 ≠ 0 ∧ _)) by naive_solver.
    rewrite (bool_decide_ext (0 = 0 ∧ 0 < length els ∧ a = parent)
               (0 < length els ∧ a = parent)) by naive_solver.
    rewrite (bool_decide_ext (a ∈ D1 ++ D2 ++ D3) (a ∈ D1 ∨ a ∈ D2 ++ D3)) by set_solver.
    unfold child_if, sibling_if, mark_if.
    destruct (bool_decide (0 < length els ∧ a = parent)),
      (bool_decide (a ∈ D1)) eqn:E2, (bool_decide (a ∈ D2 ++ D3)) eqn:E3;
      try apply bool_decide_eq_true_1 in E2; try apply bool_decide_eq_false_1 in E2;
      try apply bool_decide_eq_true_1 in E3; try apply bool_decide_eq_false_1 in E3;
      first [ rewrite bool_decide_eq_true_2 by tauto
            | rewrite bool_decide_eq_false_2 by tauto ]; done. }
  assert (∀ j el, els !! j = Some el →
            fibers st3 !! (length (fibers st) + j)
            = Some (sibling_if (bool_decide (S j < length els))
                      (length (fibers st) + S j)
                      (new_child parent
                         (default None (f_contextMap <$> fibers st !! parent))
                         el (compatible_old st (matched (fibers st) olds els j) el))))
    as N3.
  { intros j el Hj. rewrite H3.
    rewrite (N j el _ Hj (found_lookup _ _ _ _ _ Hj)). simpl. f_equal.
    apply mark_if_out. intros H. apply HD23 in H. lia. }
  clearbody st3. clear H3 O N Dl Hsame L.
  destruct els as [|el0 els'] eqn:Eels.
  - simpl. exists st3. split; [done|]. by split.
  - rewrite <- Eels in *.
    assert (0 < length els) as Hn by (rewrite Eels; simpl; lia).
    set (p := length (fibers st) + length els - 1).
    exists (set_fibers (alter (set_f_sibling None) p) st3). split; [done|].
    split; simpl.
    + by rewrite length_alter.
    + intros a Ha. rewrite list_lookup_alter_ne by (subst p; lia). by apply O3.
    + intros j el Hj. pose proof (lookup_lt_Some _ _ _ Hj) as Hlt.
      destruct (decide (S j = length els)) as [Hlast|Hnl].
      * replace (length (fibers st) + j) with p by (subst p; lia).
        rewrite list_lookup_alter_eq.
        replace p with (length (fibers st) + j) by (subst p; lia).
        rewrite (N3 j el Hj). simpl. f_equal.
        rewrite bool_decide_eq_false_2 by lia. apply new_child_sibling.
      * rewrite list_lookup_alter_ne by (subst p; lia). by apply N3.
    + done.
    + unfold same_but_fibers in *. simpl. rewrite S3 at 1. by destruct st.
Qed.

(** ** Reconciliation: which old fibers are marked for deletion *)

Lemma filter_nth {A} (P : A → Prop) `{!∀ x, Decision (P x)} (l : list A) :
  ∀ i, i < length (filter P l) →
       ∃ j x, l !! j = Some x ∧ P x ∧ length (filter P (take j l)) = i.
Proof.
  induction l as [|e l IH]; intros i Hi; [simpl in Hi; lia|].
  destruct (decide (P e)) as [He|He].
  - rewrite filter_cons_True in Hi by done. destruct i as [|i].
    + exists 0, e. split_and!; done.
    + destruct (IH i) as (j & x & Hj & Hx & Hlen); [simpl in Hi; lia|].
      exists (S j), x. split_and!; [done..|].
      change (take (S j) (e :: l)) with (e :: take j l).
      rewrite filter_cons_True by done. simpl. by rewrite Hlen.
  - rewrite filter_cons_False in Hi by done.
    destruct (IH i Hi) as (j & x & Hj & Hx & Hlen).
    exists (S j), x. split_and!; [done..|].
    change (take (S j) (e :: l)) with (e :: take j l).
    by rewrite filter_cons_False.
Qed.

Lemma filter_take_lt {A} (P : A → Prop) `{!∀ x, Decision (P x)} (l : list A) j x :
  l !! j = Some x → P x → length (filter P (take j l)) < length (filter P l).
Proof.
  intros Hj Hx. rewrite <- (take_drop_middle l j x Hj) at 2.
  rewrite filter_app, filter_cons_True, length_app by done. simpl. lia.
Qed.

(** An old fiber can be found: it has no key, or it is the last old
    fiber with its key. *)
Definition visible (fs : list fiber) (olds : list nat) (a : nat) : Prop :=
  match old_key fs a with
  | Some k => last (filter (λ b, old_key fs b = Some k) olds) = Some a
  | None => True
  end.

Lemma last_filter_elem {A} (P : A → Prop) `{!∀ x, Decision (P x)} (l : list A) x :
  last (filter P l) = Some x → P x ∧ x ∈ l.
Proof.
  intros Hl. apply last_Some in Hl as [l' Hl].
  apply (list_elem_of_filter P). rewrite Hl. set_solver.
Qed.

Lemma matched_cases fs olds els j a :
  matched fs olds els j = Some a →
  ∃ el, els !! j = Some el
        ∧ ((∃ k, new_key el = Some k ∧ (Some k ∉ new_key <$> take j els)
                 ∧ last (filter (λ b, old_key fs b = Some k) olds) = Some a
                 ∧ old_key fs a = Some k)
           ∨ (new_key el = None
              ∧ filter (λ b, old_key fs b = None) olds !! unkeyed_before els j = Some a
              ∧ old_key fs a = None)).
Proof.
  unfold matched. destruct (els !! j) as [el|]; [|done]. intros H.
  exists el. split; [done|]. destruct (new_key el) as [k|].
  - left. exists k. case_bool_decide; [done|]. split_and!; [done..|].
    by apply last_filter_elem in H as [? _].
  - right. split_and!; [done..|].
    apply list_elem_of_lookup_2, list_elem_of_filter in H. tauto.
Qed.

Lemma matched_visible fs olds els j a :
  matched fs olds els j = Some a → visible fs olds a.
Proof.
  intros H. apply matched_cases in H as (el & _ & [(k & _ & _ & Hl & Hk)|(_ & _ & Hk)]);
    unfold visible; by rewrite Hk.
Qed.

Lemma leftover_elem (fs : list fiber) (olds : list nat) (els : list child) (a : nat) :
  NoDup olds →
  a ∈ leftover fs olds els
  ↔ a ∈ olds ∧ visible fs olds a ∧ ∀ j, matched fs olds els j ≠ Some a.
Proof.
  intros Hnd. unfold leftover.
  destruct (scan_maps_spec fs olds None []) as (H1 & H2 & H3).
  destruct (final_vars_spec (scan_maps fs olds None []).2 els
              (scan_maps fs olds None []).1 0) as (F1 & F2 & F3).
  set (sm := scan_maps fs olds None []) in *.
  set (fv := final_vars sm.2 els sm.1 0) in *.
  simpl in H1, F1.
  assert (∀ k, km_get sm.1 k = last (filter (λ b, old_key fs b = Some k) olds)) as H2'.
  { intros k. rewrite H2. by destruct (last _). }
  assert (NoDup sm.2) as Hndp by (rewrite H1; by apply NoDup_filter).
  rewrite elem_of_app. split.
  - intros [H|H].
    + apply list_elem_of_lookup in H as [i H]. rewrite lookup_drop in H.
      pose proof H as Hin. apply list_elem_of_lookup_2 in Hin. rewrite H1 in Hin.
      apply list_elem_of_filter in Hin as [Hk Hin].
      split_and!; [done | unfold visible; by rewrite Hk|].
      intros j Hm. apply matched_cases in Hm
        as (el & Hj & [(k & _ & _ & _ & Hk')|(He & Hm & _)]); [congruence|].
      rewrite <- H1 in Hm.
      pose proof (NoDup_lookup _ _ _ _ Hndp H Hm) as Heq.
      pose proof (filter_take_lt (λ el, new_key el = None) els j el Hj He) as Hlt.
      unfold unkeyed_before in Heq. lia.
    + rewrite for_in_order_values in H.
      apply list_elem_of_fmap in H as ([k a'] & -> & H). simpl.
      apply alist_elem_get in H; [|apply F3, H3; constructor].
      fold (km_get fv.1 k) in H. rewrite F2 in H.
      case_bool_decide as Hreq; [done|]. rewrite H2' in H.
      pose proof H as Hl. apply last_filter_elem in Hl as [Hk Hin].
      split_and!; [done | unfold visible; by rewrite Hk|].
      intros j Hm. apply matched_cases in Hm
        as (el & Hj & [(k' & He & _ & _ & Hk')|(_ & _ & Hk')]); [|congruence].
      assert (k' = k) as -> by congruence.
      apply Hreq. apply list_elem_of_fmap. exists el. split; [done|].
      by eapply list_elem_of_lookup_2.
  - intros (Hin & Hvis & Hnever). unfold visible in Hvis.
    destruct (old_key fs a) as [k|] eqn:Hk.
    + right. rewrite for_in_order_values.
      assert (km_get fv.1 k = Some a) as Hget.
      { rewrite F2. case_bool_decide as Hreq; [|by rewrite H2'].
        exfalso. apply list_elem_of_split_l in Hreq as (l1 & l2 & Hl & Hfirst).
        apply fmap_app_inv in Hl as (e1 & e2' & -> & He2 & ->).
        symmetry in He2. apply fmap_cons_inv in He2 as (el & e2 & Hel & -> & ->).
        apply (Hnever (length e1)). unfold matched.
        rewrite list_lookup_middle by done. rewrite <- Hel.
        rewrite take_app_length. by rewrite bool_decide_eq_false_2. }
      apply alist_get_Some_elem in Hget. done.
    + left. assert (a ∈ sm.2) as Ha.
      { rewrite H1. by apply list_elem_of_filter. }
      apply list_elem_of_lookup in Ha as [i Hi].
      destruct (decide (i < fv.2)) as [Hlt|Hge].
      * exfalso. rewrite F1 in Hlt. simpl in Hlt.
        destruct (filter_nth (λ el, new_key el = None) els i Hlt)
          as (j & el & Hj & He & Hlen).
        apply (Hnever j). unfold matched. rewrite Hj, He.
        unfold unkeyed_before. rewrite Hlen. by rewrite <- H1.
      * apply list_elem_of_lookup. exists (i - fv.2). rewrite lookup_drop.
        by replace (fv.2 + (i - fv.2)) with i by lia.
Qed.

Lemma loop_marked_elem (st : state) (els : list child) :
  ∀ (ms : list (option nat)) (a : nat),
    a ∈ loop_marked st els ms
    ↔ ∃ j el, els !! j = Some el ∧ ms !! j = Some (Some a)
              ∧ compatible_old st (Some a) el = None.
Proof.
  induction els as [|el els IH]; intros [|m ms] a; cbn [loop_marked];
    try (split; [intros H; by apply elem_of_nil in H
                | intros ([|j] & e & Hj & Hm & _); by simplify_eq/=]).
  rewrite elem_of_app, IH. split.
  - intros [H|(j & e & Hj & Hm & Hc)].
    + unfold marked in H. destruct (compatible_old st m el) eqn:E, m as [o|];
        try (by apply elem_of_nil in H).
      apply list_elem_of_singleton in H as ->. by exists 0, el.
    + by exists (S j), e.
  - intros ([|j] & e & Hj & Hm & Hc).
    + left. cbn in Hj, Hm. injection Hj as <-. injection Hm as ->.
      unfold marked. rewrite Hc. set_solver.
    + right. by exists j, e.
Qed.

(** The old fibers that one call marks are the ones found for a
    description of another type and the ones that could be found and
    were not. *)
Lemma all_marked_elem (st : state) (olds : list nat) (els : list child) (a : nat) :
  NoDup olds →
  a ∈ all_marked st olds els
  ↔ (∃ j el, els !! j = Some el ∧ matched (fibers st) olds els j = Some a
             ∧ compatible_old st (Some a) el = None)
    ∨ (a ∈ olds ∧ visible (fibers st) olds a
       ∧ ∀ j, matched (fibers st) olds els j ≠ Some a).
Proof.
  intros Hnd. unfold all_marked.
  rewrite elem_of_app, loop_marked_elem, leftover_elem by done.
  apply or_iff_compat_r. split.
  - intros (j & el & Hj & Hm & Hc). exists j, el.
    rewrite (found_lookup _ _ _ _ _ Hj) in Hm. by injection Hm as ->.
  - intros (j & el & Hj & Hm & Hc). exists j, el.
    by rewrite (found_lookup _ _ _ _ _ Hj), Hm.
Qed.

(** ** Reconciliation: the result in the words of the specification *)

(** [old.effectTag = DELETION; deletions.push(old)] has been done for
    the fiber at [a]. *)
Definition deleted (st : state) (a : nat) : Prop :=
  f_effectTag <$> fibers st !! a = Some (Some DELETION) ∧ a ∈ deletions st.

(** The new fiber [nf] made for the description [el] when the lookup
    gave [old]: an Update fiber on the output node of the old fiber when
    the types are equal, a Placement fiber otherwise, and then the old
    fiber is marked in [st']. *)
Definition emitted (st st' : state) (parent : nat) (el : child) (old : option nat)
    (nf : fiber) : Prop :=
  f_parent nf = Some parent ∧ f_props nf = el_props el ∧ f_type nf = el_type el
  ∧ match old with
    | Some a =>
        ∃ f, fibers st !! a = Some f
             ∧ if decide (f_type f = el_type el)
               then f_effectTag nf = Some UPDATE ∧ f_dom nf = f_dom f
                    ∧ f_alternate nf = Some a
               else f_effectTag nf = Some PLACEMENT ∧ f_dom nf = None
                    ∧ f_alternate nf = None ∧ deleted st' a
    | None =>
        f_effectTag nf = Some PLACEMENT ∧ f_dom nf = None ∧ f_alternate nf = None
    end.

Lemma f_effectTag_child_if b c f : f_effectTag (child_if b c f) = f_effectTag f.
Proof. by destruct b, f. Qed.

Lemma reconciled_deleted parent o olds els st st' a :
  reconciled parent olds els st st' → chain (fibers st) o olds →
  a ∈ all_marked st olds els → deleted st' a.
Proof.
  intros R Hch Ha. split.
  - assert (a < length (fibers st)) as Hlt.
    { eapply chain_valid; [done|]. by eapply all_marked_old. }
    rewrite (rc_old _ _ _ _ _ R a Hlt).
    destruct (lookup_lt_is_Some_2 _ _ Hlt) as [f Hf]. rewrite Hf. simpl.
    rewrite f_effectTag_child_if, bool_decide_eq_true_2 by done. by destruct f.
  - rewrite (rc_deletions _ _ _ _ _ R). set_solver.
Qed.

Lemma compatible_old_cases st a f el :
  fibers st !! a = Some f → el_truthy el = true →
  compatible_old st (Some a) el
  = if decide (f_type f = el_type el) then Some (a, f_type f, f_dom f) else None.
Proof.
  intros Hf Ht. unfold compatible_old. rewrite Hf, Ht. simpl.
  case_bool_decide; by case_decide.
Qed.

Lemma el_truthy_not_nullish el : el_truthy el = true → nullish_child el = false.
Proof. by destruct el as [[]| |]. Qed.

Lemma filter_take_mono {A} (P : A → Prop) `{!∀ x, Decision (P x)} (l : list A) i j x :
  i < j → l !! i = Some x → P x →
  length (filter P (take i l)) < length (filter P (take j l)).
Proof.
  intros Hij Hi Hx.
  replace (take i l) with (take i (take j l)) by (rewrite take_take; f_equal; lia).
  eapply filter_take_lt; [|done]. by rewrite lookup_take_lt.
Qed.

(** No old fiber is given to two descriptions. *)
Lemma matched_inj fs olds els i j a :
  NoDup olds →
  matched fs olds els i = Some a → matched fs olds els j = Some a → i = j.
Proof.
  intros Hnd Hi Hj.
  apply matched_cases in Hi as (ei & Hei & Hi).
  apply matched_cases in Hj as (ej & Hej & Hj).
  destruct Hi as [(k & Hk & Hfirst & _ & Hka)|(Hk & Hpos & Hka)],
           Hj as [(k' & Hk' & Hfirst' & _ & Hka')|(Hk' & Hpos' & Hka')];
    try congruence.
  - assert (k' = k) as -> by congruence.
    destruct (lt_eq_lt_dec i j) as [[Hlt| ->]|Hlt]; [|done|]; exfalso.
    + apply Hfirst'. apply list_elem_of_fmap. exists ei. split; [done|].
      apply list_elem_of_lookup. exists i. by rewrite lookup_take_lt.
    + apply Hfirst. apply list_elem_of_fmap. exists ej. split; [done|].
      apply list_elem_of_lookup. exists j. by rewrite lookup_take_lt.
  - assert (NoDup (filter (λ b, old_key fs b = None) olds)) as Hndf
      by (by apply NoDup_filter).
    pose proof (NoDup_lookup _ _ _ _ Hndf Hpos Hpos') as Heq.
    unfold unkeyed_before in Heq.
    destruct (lt_eq_lt_dec i j) as [[Hlt| ->]|Hlt]; [|done|]; exfalso.
    + pose proof (filter_take_mono (λ el, new_key el = None) els i j ei Hlt Hei Hk).
      lia.
    + pose proof (filter_take_mono (λ el, new_key el = None) els j i ej Hlt Hej Hk').
      lia.
Qed.

(** The keys of the old children [olds] and of the descriptions [els]
    are all plain keys. *)
Definition plain_keys (fs : list fiber) (olds : list nat) (els : list child) : Prop :=
  Forall (λ a, plain_key (default VUndefined (fiber_key <$> fs !! a)) = true) olds
  ∧ Forall (λ el, plain_key (el_key el) = true) els.


(** Lists of items in a [ul], without components: the second render is
    stopped after its first unit of work, which is the root, so that the
    next unit is the [ul]. *)
Module Listing.
Definition fns (f : nat) (v : value) : value := VUndefined.
Definition components (c : nat) (p : option props) : comp := Return (CVal VNull).

Definition item (tag k : string) : child := createElement (Host tag) [("key", VStr k)] [].
Definition plain (tag : string) : child := createElement (Host tag) [] [].
Definition ul (items : list child) : child := createElement (Host "ul") [] items.

Definition before_ul (old new : list child) : state :=
  after 100 fns components
    [Render (ul old) 0; Idle (plenty 20); Render (ul new) 0; Idle (plenty 1)]
    (initial_state page).

Definition rendered (old new : list child) : state :=
  after 100 fns components
    [Render (ul old) 0; Idle (plenty 20); Render (ul new) 0; Idle (plenty 20)]
    (initial_state page).

(** Items a, b, a span and an em; then the span, b, a as a paragraph and
    a new item c: fibers 2 to 5 are the old children, fiber 7 is the new
    [ul]. *)
Definition old_items : list child := [item "li" "a"; item "li" "b"; plain "span"; plain "em"].
Definition new_items : list child := [plain "span"; item "li" "b"; item "p" "a"; item "li" "c"].
Definition mixed : state := before_ul old_items new_items.

(** Two items with the key a, then no item: fibers 2 and 3 are the old
    children, fiber 5 is the new [ul]. *)
Definition twins : state := before_ul [item "li" "a"; item "li" "a"] [].
End Listing.



(** ** Commit: the fibers stay as they are

    The commit phase writes to a fiber only to take its pending effects
    away. *)

Definition same_tree (st st' : state) : Prop :=
  set_f_pendingEffects None <$> fibers st' = set_f_pendingEffects None <$> fibers st.

Global Instance same_tree_refl : Reflexive same_tree.
Proof. intros st. by unfold same_tree. Qed.

Global Instance same_tree_trans : Transitive same_tree.
Proof. intros a b c H1 H2. unfold same_tree in *. congruence. Qed.

Lemma same_tree_lookup st st' a f :
  same_tree st st' → fibers st !! a = Some f →
  ∃ f', fibers st' !! a = Some f'
        ∧ set_f_pendingEffects None f' = set_f_pendingEffects None f.
Proof.
  intros H Hf. apply (f_equal (λ l, l !! a)) in H.
  rewrite !list_lookup_fmap, Hf in H.
  destruct (fibers st' !! a) as [f'|]; [|done]. exists f'. split; [done|].
  by apply (inj Some) in H.
Qed.

Lemma same_tree_fields f f' :
  set_f_pendingEffects None f' = set_f_pendingEffects None f →
  f_child f' = f_child f ∧ f_sibling f' = f_sibling f ∧ f_dom f' = f_dom f
  ∧ f_effectTag f' = f_effectTag f.
Proof. destruct f, f'. unfold set_f_pendingEffects. simpl. by intros [=]. Qed.

Create HintDb tree.

Ltac tree_step :=
  first
    [ lazymatch goal with
      | |- Reflexive _ => apply _
      | |- Transitive _ => apply _
      end
    | solve [auto with tree]
    | apply keeps_ret | apply keeps_throw | apply keeps_get
    | apply keeps_read_fiber | apply keeps_read_hook
    | apply keeps_read_cell | apply keeps_read_node
    | apply keeps_modify; intros ?; reflexivity
    | lazymatch goal with
      | |- keeps _ (for_each _ _) =>
          refine (keeps_for_each _ _ _ _); intros ?; cbv beta
      end
    | lazymatch goal with
      | |- keeps _ (bind _ _) => refine (keeps_bind _ _ _ _ _); [|intros ?; cbv beta]
      end
    | match goal with
      | |- keeps _ (match ?x with _ => _ end) => destruct x
      | |- keeps _ (let (_, _) := ?x in _) => destruct x
      end ].

Ltac tree := repeat tree_step.

Section tree_frame.
Variable fuel : nat.

Lemma tree_emit e : keeps same_tree (emit e).
Proof. unfold emit. tree. Qed.
Hint Resolve tree_emit : tree.

Lemma tree_write_node a g : keeps same_tree (write_node a g).
Proof. unfold write_node. tree. Qed.
Hint Resolve tree_write_node : tree.

Lemma tree_appendChild p c : keeps same_tree (appendChild p c).
Proof. unfold appendChild. tree. Qed.
Hint Resolve tree_appendChild : tree.

Lemma tree_removeChild p c : keeps same_tree (removeChild p c).
Proof. unfold removeChild. tree. Qed.
Hint Resolve tree_removeChild : tree.

Lemma tree_patchDom_at d prev next : keeps same_tree (patchDom_at d prev next).
Proof. unfold patchDom_at. tree. Qed.
Hint Resolve tree_patchDom_at : tree.

Lemma tree_wire_ref p d : keeps same_tree (wire_ref p d).
Proof. unfold wire_ref. tree. Qed.
Hint Resolve tree_wire_ref : tree.

Lemma tree_flushFiberEffects a : keeps same_tree (flushFiberEffects a).
Proof.
  unfold flushFiberEffects, write_fiber. tree.
  apply keeps_modify. intros st. unfold same_tree. simpl.
  apply list_eq. intros i. rewrite !list_lookup_fmap.
  destruct (decide (i = a)) as [->|Hne].
  - rewrite list_lookup_alter_eq. by destruct (fibers st !! a).
  - by rewrite list_lookup_alter_ne.
Qed.
Hint Resolve tree_flushFiberEffects : tree.

Lemma tree_nearestDom_loop n f : keeps same_tree (nearestDom_loop n f).
Proof. revert f. induction n as [|n IH]; intros [a|]; simpl; tree. Qed.
Hint Resolve tree_nearestDom_loop : tree.

Lemma tree_nearestDom a : keeps same_tree (nearestDom fuel a).
Proof. unfold nearestDom. tree. Qed.
Hint Resolve tree_nearestDom : tree.

Lemma tree_removeFiberDom_loop n f p : keeps same_tree (removeFiberDom_loop n f p).
Proof. revert f. induction n as [|n IH]; intros [a|]; simpl; tree. Qed.
Hint Resolve tree_removeFiberDom_loop : tree.

Lemma tree_run_hook_cleanup h : keeps same_tree (run_hook_cleanup h).
Proof. unfold run_hook_cleanup. tree. Qed.
Hint Resolve tree_run_hook_cleanup : tree.

Lemma tree_cleanupEffectTree_loop n f : keeps same_tree (cleanupEffectTree_loop n f).
Proof. revert f. induction n as [|n IH]; intros [a|]; simpl; tree. Qed.
Hint Resolve tree_cleanupEffectTree_loop : tree.

Lemma tree_commitDeletion a p : keeps same_tree (commitDeletion fuel a p).
Proof. unfold commitDeletion, removeFiberDom, cleanupEffectTree. tree. Qed.
Hint Resolve tree_commitDeletion : tree.

Lemma tree_commit_fiber a p : keeps same_tree (commit_fiber fuel a p).
Proof. unfold commit_fiber. tree. Qed.
Hint Resolve tree_commit_fiber : tree.

Lemma tree_commitWork_loop n stack : keeps same_tree (commitWork_loop fuel n stack).
Proof. revert stack. induction n as [|n IH]; intros [|[a p] stack]; simpl; tree. Qed.

End tree_frame.

(** ** Commit: the order of the walk *)

(** The frames of the walk from a fiber, in the order of the
    specification: the fiber, then its children, then its siblings, each
    with the output node that owns it; the children of a fiber with an
    output node are owned by that node, the children of a fiber without
    one by the owner of the fiber.  No fiber of the tree is marked
    Deletion. *)
Inductive walk (fs : list fiber)
  : option nat → option nat → list (nat * option nat) → Prop :=
| walk_none p : walk fs None p []
| walk_fiber a f p below after :
    fs !! a = Some f → f_effectTag f ≠ Some DELETION →
    walk fs (f_child f) (match f_dom f with Some d => Some d | None => p end) below →
    walk fs (f_sibling f) p after →
    walk fs (Some a) p ((a, p) :: below ++ after).

(** The frames that the frames of a stack stand for, the top first *)
Inductive stack_walk (fs : list fiber)
  : list (nat * option nat) → list (nat * option nat) → Prop :=
| stack_walk_nil : stack_walk fs [] []
| stack_walk_cons a p stack l ls :
    walk fs (Some a) p l → stack_walk fs stack ls →
    stack_walk fs ((a, p) :: stack) (l ++ ls).

Lemma walk_same_tree st st' o p l :
  same_tree st st' → walk (fibers st) o p l → walk (fibers st') o p l.
Proof.
  intros Hsame. induction 1 as [|a f p below after Hf Htag _ IH1 _ IH2];
    [constructor|].
  destruct (same_tree_lookup _ _ _ _ Hsame Hf) as (f' & Hf' & Heq).
  apply same_tree_fields in Heq as (Hc & Hs & Hd & Ht).
  eapply walk_fiber; [done | congruence | by rewrite Hc, Hd | by rewrite Hs].
Qed.

Lemma stack_walk_same_tree st st' stack l :
  same_tree st st' → stack_walk (fibers st) stack l → stack_walk (fibers st') stack l.
Proof.
  intros Hsame. induction 1; constructor; [by eapply walk_same_tree | done].
Qed.

Lemma stack_walk_push fs o p l stack ls :
  walk fs o p l → stack_walk fs stack ls →
  stack_walk fs (match o with Some c => [(c, p)] | None => [] end ++ stack) (l ++ ls).
Proof.
  intros Hw Hs. destruct o as [c|].
  - by constructor.
  - by inversion Hw.
Qed.

(** One turn of the loop, when the frames it pushes do not matter *)
Definition visit (fuel : nat) (fr : nat * option nat) : M unit :=
  let* _ := commit_fiber fuel fr.1 fr.2 in ret ().

(** What commitWork does with a fiber marked Deletion *)
Definition apply_deletion (fuel : nat) (a : nat) (parentDom : option nat) : M unit :=
  let* _ := commitDeletion fuel a parentDom in
  flushFiberEffects a.

Ltac bind_inv H :=
  let a := fresh "a" in
  let st := fresh "st" in
  let H1 := fresh H in
  apply bind_inv_val in H as (a & st & H1 & H).

Lemma read_fiber_val a st f : fibers st !! a = Some f → read_fiber a st = (Val f, st).
Proof. unfold read_fiber. by intros ->. Qed.

Lemma commit_fiber_pushed fuel a p st f pushed st' :
  fibers st !! a = Some f → f_effectTag f ≠ Some DELETION →
  commit_fiber fuel a p st = (Val pushed, st') →
  pushed = match f_child f with
           | Some c => [(c, match f_dom f with Some d => Some d | None => p end)]
           | None => []
           end ++ match f_sibling f with Some s => [(s, p)] | None => [] end.
Proof.
  intros Hf Htag E. unfold commit_fiber in E.
  rewrite (bind_val _ _ _ _ _ (read_fiber_val _ _ _ Hf)) in E.
  destruct (f_effectTag f) as [[| |]|], (f_dom f) as [d|], p as [p|];
    try done; repeat bind_inv E; unfold ret in E; by injection E as <- _.
Qed.

Lemma commit_fiber_deletion fuel a p st f :
  fibers st !! a = Some f → f_effectTag f = Some DELETION →
  commit_fiber fuel a p st
  = (let* _ := apply_deletion fuel a p in ret []) st.
Proof.
  intros Hf Htag. unfold commit_fiber, apply_deletion.
  rewrite (bind_val _ _ _ _ _ (read_fiber_val _ _ _ Hf)), Htag.
  unfold bind. by destruct (commitDeletion fuel a p st) as [[[]|e] st1].
Qed.

Lemma commitWork_loop_walk fuel :
  ∀ n stack frames st,
    stack_walk (fibers st) stack frames → length frames ≤ n →
    commitWork_loop fuel n stack st = for_each frames (visit fuel) st.
Proof.
  induction n as [|n IH]; intros stack frames st Hs Hn.
  - destruct frames; [|simpl in Hn; lia].
    inversion Hs as [|a p stack' l ls Hw Hs' E1 E2]; [done|].
    inversion Hw; subst; discriminate.
  - inversion Hs as [|a p stack' l ls Hw Hs' E1 E2]; [done|]. subst.
    inversion Hw as [|a' f p' below after Hf Htag Hbelow Hafter]. subst.
    cbn [commitWork_loop for_each app].
    destruct (commit_fiber fuel a p st) as [[pushed|e] st1] eqn:E.
    2:{ rewrite (bind_exn _ _ _ _ _ E). symmetry. apply bind_exn.
        unfold visit. cbn [fst snd]. by rewrite (bind_exn _ _ _ _ _ E). }
    assert (visit fuel (a, p) st = (Val (), st1)) as Hv.
    { unfold visit. cbn [fst snd]. by rewrite (bind_val _ _ _ _ _ E). }
    rewrite (bind_val _ _ _ _ _ E), (bind_val _ _ _ _ _ Hv).
    pose proof (keeps_result _ _ _ _ _ (tree_commit_fiber fuel a p) E) as Hsame.
    rewrite (commit_fiber_pushed _ _ _ _ _ _ _ Hf Htag E).
    apply IH.
    + rewrite <- !app_assoc. apply stack_walk_push; [by eapply walk_same_tree|].
      apply stack_walk_push; [by eapply walk_same_tree|].
      by eapply stack_walk_same_tree.
    + simpl in Hn. rewrite !length_app in *. lia.
Qed.

(** ** Commit: the order of the phases *)

(** The effects queued during the pass: the previous cleanup of each
    one, then the effect, whose cleanup is stored in the hook. *)
Definition flush_effects (apply_fn : nat → value → value) : M unit :=
  let* st := get in
  let* _ := modify (set_pendingEffects (λ _, [])) in
  for_each (pendingEffects st) (run_effect apply_fn).

(** The commit in the order of the specification: the deletions, each
    with the nearest output node above it; the frames of the walk of the
    new tree; the new root becomes the current one; the effects. *)
Definition commit_in_order (fuel : nat) (apply_fn : nat → value → value)
    (dels : list nat) (frames : list (nat * option nat)) (w : nat) : M unit :=
  let* _ := for_each dels (λ f, let* p := nearestDom fuel f in apply_deletion fuel f p) in
  let* _ := for_each frames (visit fuel) in
  let* _ := modify (set_curRoot (Some w)) in
  let* _ := emit (EvSwap w) in
  let* _ := modify (set_wipRoot None) in
  flush_effects apply_fn.

Definition marked_deletion (st : state) (a : nat) : Prop :=
  f_effectTag <$> fibers st !! a = Some (Some DELETION).

Lemma marked_deletion_same_tree st st' a :
  same_tree st st' → marked_deletion st a → marked_deletion st' a.
Proof.
  unfold marked_deletion. intros Hsame H.
  destruct (fibers st !! a) as [f|] eqn:Hf; [|done].
  destruct (same_tree_lookup _ _ _ _ Hsame Hf) as (f' & Hf' & Heq).
  apply same_tree_fields in Heq as (_ & _ & _ & Ht).
  rewrite Hf'. simpl in *. by rewrite Ht.
Qed.

Lemma commitWork_deletion fuel a p st :
  0 < fuel → marked_deletion st a →
  commitWork fuel a p st = apply_deletion fuel a p st.
Proof.
  intros Hfuel H. unfold marked_deletion in H.
  destruct (fibers st !! a) as [f|] eqn:Hf; [|done]. injection H as Htag.
  unfold commitWork. destruct fuel as [|n]; [lia|]. cbn [commitWork_loop].
  unfold bind at 1. rewrite (commit_fiber_deletion _ _ _ _ _ Hf Htag).
  unfold bind at 1.
  destruct (apply_deletion (S n) a p st) as [[[]|e] st1]; [|done].
  cbn [ret app]. by destruct n.
Qed.

Lemma deletions_phase fuel (dels : list nat) :
  ∀ st, 0 < fuel → Forall (marked_deletion st) dels →
        for_each dels (λ f, let* p := nearestDom fuel f in commitWork fuel f p) st
        = for_each dels (λ f, let* p := nearestDom fuel f in apply_deletion fuel f p) st.
Proof.
  induction dels as [|a dels IH]; intros st Hfuel Hd; [done|].
  apply Forall_cons in Hd as [Ha Hd]. cbn [for_each].
  assert ((let* p := nearestDom fuel a in commitWork fuel a p) st
          = (let* p := nearestDom fuel a in apply_deletion fuel a p) st) as Hhead.
  { destruct (nearestDom fuel a st) as [[p|e] st1] eqn:E.
    - rewrite !(bind_val _ _ _ _ _ E). apply commitWork_deletion; [done|].
      eapply marked_deletion_same_tree; [|done].
      exact (keeps_result _ _ _ _ _ (tree_nearestDom fuel a) E).
    - by rewrite !(bind_exn _ _ _ _ _ E). }
  destruct ((let* p := nearestDom fuel a in apply_deletion fuel a p) st)
    as [[[]|e] st1] eqn:E.
  - rewrite (bind_val _ _ _ _ _ E), (bind_val _ _ _ _ _ Hhead). apply IH; [done|].
    eapply Forall_impl; [done|]. intros b. apply marked_deletion_same_tree.
    refine (keeps_result same_tree _ _ _ _ _ Hhead).
    apply keeps_bind; [apply _ | apply tree_nearestDom|].
    intros p. unfold commitWork. apply tree_commitWork_loop.
  - by rewrite (bind_exn _ _ _ _ _ E), (bind_exn _ _ _ _ _ Hhead).
Qed.

Lemma commitRoot_eq (fuel : nat) (apply_fn : nat → value → value) (st : state)
    (w : nat) (wf : fiber) (frames : list (nat * option nat)) :
  wipRoot st = Some w → fibers st !! w = Some wf →
  walk (fibers st) (f_child wf) (f_dom wf) frames → length frames < fuel →
  Forall (marked_deletion st) (deletions st) →
  commitRoot fuel apply_fn st
  = commit_in_order fuel apply_fn (deletions st) frames w st.
Proof.
  intros Hw Hwf Hwalk Hfuel Hdel. unfold commitRoot, commit_in_order.
  unfold bind at 1. cbn [get]. rewrite Hw.
  assert (0 < fuel) as Hpos by lia.
  pose proof (deletions_phase fuel (deletions st) st Hpos Hdel) as Hphase.
  destruct (for_each (deletions st)
              (λ f, let* p := nearestDom fuel f in apply_deletion fuel f p) st)
    as [[[]|e] st1] eqn:E.
  2:{ by rewrite (bind_exn _ _ _ _ _ Hphase), (bind_exn _ _ _ _ _ E). }
  rewrite (bind_val _ _ _ _ _ Hphase), (bind_val _ _ _ _ _ E).
  assert (same_tree st st1) as Hsame.
  { refine (keeps_result same_tree _ _ _ _ _ E).
    apply keeps_for_each; [apply _..|]. intros a.
    apply keeps_bind; [apply _ | apply tree_nearestDom|].
    intros p. unfold apply_deletion.
    apply keeps_bind; [apply _ | apply tree_commitDeletion|].
    intros _. apply tree_flushFiberEffects. }
  destruct (same_tree_lookup _ _ _ _ Hsame Hwf) as (wf' & Hwf' & Heq).
  apply same_tree_fields in Heq as (Hc & _ & Hd & _).
  unfold bind at 1. cbn [ret].
  rewrite (bind_val _ _ _ _ _ (read_fiber_val _ _ _ Hwf')).
  rewrite Hc, Hd.
  assert ((match f_child wf with
           | Some c => commitWork fuel c (f_dom wf)
           | None => ret ()
           end) st1 = for_each frames (visit fuel) st1) as Hwalk1.
  { destruct (f_child wf) as [c|].
    - unfold commitWork. apply commitWork_loop_walk; [|lia].
      rewrite <- (app_nil_r frames). constructor; [|constructor].
      by eapply walk_same_tree.
    - by inversion Hwalk. }
  destruct (for_each frames (visit fuel) st1) as [[[]|e] st2] eqn:E2.
  - by rewrite (bind_val _ _ _ _ _ Hwalk1), (bind_val _ _ _ _ _ E2).
  - by rewrite (bind_exn _ _ _ _ _ Hwalk1), (bind_exn _ _ _ _ _ E2).
Qed.

(** ** Commit: the events of each phase *)

Definition deletion_event (e : event) : Prop :=
  match e with EvRemove _ _ | EvCleanup _ => True | _ => False end.

Definition placement_event (e : event) : Prop :=
  match e with EvAppend _ _ | EvPatch _ => True | _ => False end.

(** The fibers stay as they are and the events added are of kind [P]. *)
Definition grows (P : event → Prop) (st st' : state) : Prop :=
  same_tree st st' ∧ ∃ l, trace st' = trace st ++ l ∧ Forall P l.

Global Instance grows_refl P : Reflexive (grows P).
Proof. intros st. split; [reflexivity|]. exists []. by rewrite app_nil_r. Qed.

Global Instance grows_trans P : Transitive (grows P).
Proof.
  intros a b c [S1 (l1 & E1 & F1)] [S2 (l2 & E2 & F2)].
  split; [by etrans|]. exists (l1 ++ l2).
  rewrite E2, E1, app_assoc. split; [done | by apply Forall_app].
Qed.

Lemma grows_of_same_tree P m :
  (∀ st, same_tree st (m st) ∧ trace (m st) = trace st) → keeps (grows P) (modify m).
Proof.
  intros H. apply keeps_modify. intros st. destruct (H st) as [Hs Ht].
  split; [done|]. exists []. by rewrite app_nil_r.
Qed.

Create HintDb grows.

Ltac grows_step :=
  first
    [ lazymatch goal with
      | |- Reflexive _ => apply _
      | |- Transitive _ => apply _
      end
    | solve [auto with grows]
    | apply keeps_ret | apply keeps_throw | apply keeps_get
    | apply keeps_read_fiber | apply keeps_read_hook
    | apply keeps_read_cell | apply keeps_read_node
    | apply grows_of_same_tree; intros ?; split; reflexivity
    | lazymatch goal with
      | |- keeps _ (for_each _ _) =>
          refine (keeps_for_each _ _ _ _); intros ?; cbv beta
      end
    | lazymatch goal with
      | |- keeps _ (bind _ _) => refine (keeps_bind _ _ _ _ _); [|intros ?; cbv beta]
      end
    | match goal with
      | |- keeps _ (match ?x with _ => _ end) => destruct x
      | |- keeps _ (let (_, _) := ?x in _) => destruct x
      end ].

Ltac grows := repeat grows_step.

Section grows_frame.
Variable fuel : nat.
Variable P : event → Prop.

Lemma grows_emit e : P e → keeps (grows P) (emit e).
Proof.
  intros He st. split; [apply tree_emit|]. exists [e]. split; [done|].
  by apply Forall_singleton.
Qed.

Lemma grows_write_node a g : keeps (grows P) (write_node a g).
Proof. unfold write_node. grows. Qed.
Hint Resolve grows_write_node : grows.

Lemma grows_patchDom_at d prev next : keeps (grows P) (patchDom_at d prev next).
Proof. unfold patchDom_at. grows. Qed.
Hint Resolve grows_patchDom_at : grows.

Lemma grows_wire_ref p d : keeps (grows P) (wire_ref p d).
Proof. unfold wire_ref. grows. Qed.
Hint Resolve grows_wire_ref : grows.

Lemma grows_flushFiberEffects a : keeps (grows P) (flushFiberEffects a).
Proof.
  intros st. split; [apply tree_flushFiberEffects|]. exists [].
  rewrite app_nil_r. split; [|done].
  unfold flushFiberEffects, bind, read_fiber.
  destruct (fibers st !! a) as [f|]; [|done]. by destruct (f_pendingEffects f).
Qed.
Hint Resolve grows_flushFiberEffects : grows.

Lemma grows_nearestDom_loop n f : keeps (grows P) (nearestDom_loop n f).
Proof. revert f. induction n as [|n IH]; intros [a|]; simpl; grows. Qed.
Hint Resolve grows_nearestDom_loop : grows.

Lemma grows_nearestDom a : keeps (grows P) (nearestDom fuel a).
Proof. unfold nearestDom. grows. Qed.

End grows_frame.

#[global] Hint Resolve grows_write_node grows_patchDom_at grows_wire_ref
  grows_flushFiberEffects grows_nearestDom_loop grows_nearestDom : grows.

Lemma grows_appendChild p c : keeps (grows placement_event) (appendChild p c).
Proof.
  unfold appendChild. grows. by apply grows_emit.
Qed.

Lemma grows_removeChild p c : keeps (grows deletion_event) (removeChild p c).
Proof.
  unfold removeChild. grows. by apply grows_emit.
Qed.

Lemma grows_removeFiberDom_loop n f p :
  keeps (grows deletion_event) (removeFiberDom_loop n f p).
Proof.
  revert f. induction n as [|n IH]; intros [a|]; simpl; grows.
  apply grows_removeChild.
Qed.

Lemma grows_run_hook_cleanup h : keeps (grows deletion_event) (run_hook_cleanup h).
Proof. unfold run_hook_cleanup. grows. by apply grows_emit. Qed.

Lemma grows_cleanupEffectTree_loop n f :
  keeps (grows deletion_event) (cleanupEffectTree_loop n f).
Proof.
  revert f. induction n as [|n IH]; intros [a|]; simpl; grows.
  apply grows_run_hook_cleanup.
Qed.

Lemma grows_apply_deletion fuel a p :
  keeps (grows deletion_event) (apply_deletion fuel a p).
Proof.
  unfold apply_deletion, commitDeletion, removeFiberDom, cleanupEffectTree. grows.
  - apply grows_removeFiberDom_loop.
  - apply grows_cleanupEffectTree_loop.
Qed.

(** A fiber that is not marked Deletion *)
Definition live (st : state) (a : nat) : Prop :=
  ∃ f, fibers st !! a = Some f ∧ f_effectTag f ≠ Some DELETION.

Lemma live_same_tree st st' a : same_tree st st' → live st a → live st' a.
Proof.
  intros Hsame (f & Hf & Htag).
  destruct (same_tree_lookup _ _ _ _ Hsame Hf) as (f' & Hf' & Heq).
  apply same_tree_fields in Heq as (_ & _ & _ & Ht).
  exists f'. split; [done | congruence].
Qed.

Lemma walk_live st o p frames :
  walk (fibers st) o p frames → Forall (λ fr, live st fr.1) frames.
Proof.
  induction 1 as [|a f p below after Hf Htag _ IH1 _ IH2]; [constructor|].
  constructor; [by exists f|]. by apply Forall_app.
Qed.

Lemma visit_grows fuel fr st :
  live st fr.1 → grows placement_event st (visit fuel fr st).2.
Proof.
  destruct fr as [a p]. intros (f & Hf & Htag). unfold visit.
  cbn [fst snd]. unfold bind at 1. unfold commit_fiber.
  rewrite (bind_val _ _ _ _ _ (read_fiber_val _ _ _ Hf)).
  match goal with
  | |- grows _ _ (let (r, st') := ?m st in _).2 =>
      assert (keeps (grows placement_event) m) as Hk;
        [|specialize (Hk st); by destruct (m st) as [[?|?] ?]]
  end.
  destruct (f_effectTag f) as [[| |]|]; [| |done|]; grows;
    first [apply grows_appendChild | by apply grows_emit].
Qed.

Lemma walk_grows fuel (frames : list (nat * option nat)) :
  ∀ st, Forall (λ fr, live st fr.1) frames →
        grows placement_event st (for_each frames (visit fuel) st).2.
Proof.
  induction frames as [|fr frames IH]; intros st Hl; [reflexivity|].
  apply Forall_cons in Hl as [Hfr Hl]. cbn [for_each]. unfold bind.
  pose proof (visit_grows fuel fr st Hfr) as Hg.
  destruct (visit fuel fr st) as [[[]|e] st1]; [|done]. simpl in Hg.
  etrans; [done|]. apply IH. eapply Forall_impl; [done|].
  intros fr'. apply live_same_tree. apply Hg.
Qed.

Lemma deletions_grow fuel (dels : list nat) :
  keeps (grows deletion_event)
    (for_each dels (λ f, let* p := nearestDom fuel f in apply_deletion fuel f p)).
Proof.
  apply keeps_for_each; [apply _..|]. intros a.
  apply keeps_bind; [apply _ | apply grows_nearestDom|].
  intros p. apply grows_apply_deletion.
Qed.

(** The events of one queued effect: its previous cleanup, if there is
    one, then the effect *)
Definition effect_events (item : effect_item) : list event :=
  match ei_oldCleanup item with VFun c => [EvCleanup c] | _ => [] end
  ++ [EvEffect (ei_effect item)].

(** [item.hook.cleanup = typeof cleanup === 'function' ? cleanup : null] *)
Definition store_cleanup (apply_fn : nat → value → value) (item : effect_item)
    (hs : list hook) : list hook :=
  let cleanup := apply_fn (ei_effect item) VUndefined in
  let cleanup := match cleanup with VFun _ => cleanup | _ => VNull end in
  alter (λ h, match h with
              | HEffect deps _ => HEffect deps cleanup
              | _ => h
              end) (ei_hook item) hs.

Definition effect_ran (apply_fn : nat → value → value) (st : state)
    (item : effect_item) : state :=
  set_hooks (store_cleanup apply_fn item) (set_trace (λ t, t ++ effect_events item) st).

Lemma run_effect_eq apply_fn item st :
  run_effect apply_fn item st = (Val (), effect_ran apply_fn st item).
Proof.
  unfold run_effect, effect_ran, effect_events, store_cleanup, bind, emit, modify.
  unfold set_hooks, set_trace.
  destruct (ei_oldCleanup item); simpl; rewrite <- ?app_assoc; reflexivity.
Qed.

Lemma for_each_run_effect apply_fn (items : list effect_item) :
  ∀ st, for_each items (run_effect apply_fn) st
        = (Val (), fold_left (effect_ran apply_fn) items st).
Proof.
  induction items as [|item items IH]; intros st; [done|].
  cbn [for_each fold_left]. by rewrite (bind_val _ _ _ _ _ (run_effect_eq _ _ _)).
Qed.

Lemma effects_ran_trace apply_fn (items : list effect_item) :
  ∀ st, trace (fold_left (effect_ran apply_fn) items st)
        = trace st ++ flat_map effect_events items.
Proof.
  induction items as [|item items IH]; intros st; simpl.
  - by rewrite app_nil_r.
  - rewrite IH. unfold effect_ran. simpl. by rewrite <- app_assoc.
Qed.

Lemma effects_ran_same apply_fn (items : list effect_item) :
  ∀ st, curRoot (fold_left (effect_ran apply_fn) items st) = curRoot st
        ∧ wipRoot (fold_left (effect_ran apply_fn) items st) = wipRoot st
        ∧ hooks (fold_left (effect_ran apply_fn) items st)
          = fold_left (λ hs item, store_cleanup apply_fn item hs) items (hooks st).
Proof.
  induction items as [|item items IH]; intros st; simpl; [done|].
  destruct (IH (effect_ran apply_fn st item)) as (-> & -> & ->). done.
Qed.

(** The state when the new root has become the current one *)
Definition swapped (w : nat) (st : state) : state :=
  set_pendingEffects (λ _, [])
    (set_wipRoot None (set_trace (λ t, t ++ [EvSwap w]) (set_curRoot (Some w) st))).

(** The frames of the walk, computed *)
Fixpoint walk_frames (n : nat) (fs : list fiber) (o p : option nat)
    : option (list (nat * option nat)) :=
  match o, n with
  | None, _ => Some []
  | Some a, 0 => None
  | Some a, S n' =>
      match fs !! a with
      | Some f =>
          if decide (f_effectTag f = Some DELETION) then None
          else
            match walk_frames n' fs (f_child f)
                    (match f_dom f with Some d => Some d | None => p end),
                  walk_frames n' fs (f_sibling f) p with
            | Some below, Some after => Some ((a, p) :: below ++ after)
            | _, _ => None
            end
      | None => None
      end
  end.

Lemma walk_frames_sound (n : nat) (fs : list fiber) :
  ∀ o p l, walk_frames n fs o p = Some l → walk fs o p l.
Proof.
  induction n as [|n IH]; intros [a|] p l H; simpl in H; try done;
    try (injection H as <-; constructor).
  destruct (fs !! a) as [f|] eqn:Hf; [|done].
  destruct (decide (f_effectTag f = Some DELETION)) as [|Htag]; [done|].
  destruct (walk_frames n fs (f_child f) _) as [below|] eqn:E1; [|done].
  destruct (walk_frames n fs (f_sibling f) p) as [after|] eqn:E2; [|done].
  injection H as <-. eapply walk_fiber; [done | done | by apply IH | by apply IH].
Qed.


(** A board with a component that has an effect with a cleanup
    (function 10 returns the cleanup 11) beside an [em], which the second
    render replaces by a [b]; the second render has done its units of
    work and is ready for the commit. *)
Module Board.
Definition components (c : nat) (p : option props) : comp :=
  UseEffect 10 NoDeps (Return (createElement (Host "span") [] [])).

Definition fns (f : nat) (v : value) : value :=
  match f with
  | 10 => VFun 11
  | _ => VUndefined
  end.

Definition board (tag : string) : child :=
  createElement (Host "div") []
    [createElement (Comp 0) [] []; createElement (Host tag) [] []].

Definition before_commit : state :=
  run (work_units 100 fns components (plenty 20))
    (after 100 fns components [Render (board "em") 0; Idle (plenty 20); Render (board "b") 0]
       (initial_state page)).

Definition frames : list (nat * option nat) :=
  [(6, Some 0); (7, Some 1); (9, Some 1); (8, Some 1)].
End Board.




(** ** Reconciliation: when every description finds its old fiber *)

(** The new fiber [nf] is an Update of the old fiber at [a] for the
    description [el]. *)
Definition updates (st : state) (parent : nat) (el : child) (a : nat) (nf : fiber)
    : Prop :=
  ∃ f, fibers st !! a = Some f
       ∧ f_effectTag nf = Some UPDATE ∧ f_alternate nf = Some a
       ∧ f_dom nf = f_dom f ∧ f_type nf = el_type el ∧ f_props nf = el_props el
       ∧ f_parent nf = Some parent ∧ f_child nf = None.

Lemma reconcileChildren_all_update (fuel parent : nat) (els : list child)
    (st : state) (pf : fiber) (o : option nat) (olds : list nat) :
  fibers st !! parent = Some pf → old_child st pf o →
  chain (fibers st) o olds → length olds < fuel →
  Forall (λ el, el_truthy el = true) els →
  (∀ j el, els !! j = Some el →
           ∃ a f, matched (fibers st) olds els j = Some a
                  ∧ fibers st !! a = Some f ∧ f_type f = el_type el) →
  (∀ a, a ∈ olds → visible (fibers st) olds a →
        ∃ j, matched (fibers st) olds els j = Some a) →
  ∃ st', reconcileChildren fuel parent els st = (Val (), st')
    ∧ same_but_fibers st st'
    ∧ length (fibers st') = length (fibers st) + length els
    ∧ (∀ j el, els !! j = Some el →
         ∃ a nf, matched (fibers st) olds els j = Some a
                 ∧ fibers st' !! (length (fibers st) + j) = Some nf
                 ∧ updates st parent el a nf
                 ∧ f_sibling nf = if bool_decide (S j < length els)
                                  then Some (length (fibers st) + S j) else None)
    ∧ (0 < length els →
       f_child <$> fibers st' !! parent = Some (Some (length (fibers st))))
    ∧ (∀ a, a < length (fibers st) → a ≠ parent →
            fibers st' !! a = fibers st !! a)
    ∧ deletions st' = deletions st.
Proof.
  intros Hpar Hold Hch Hfuel Hels Hfound Hall.
  assert (Forall (λ el, nullish_child el = false) els) as Hnn.
  { eapply Forall_impl; [done|]. apply el_truthy_not_nullish. }
  destruct (reconcileChildren_spec fuel parent els st pf o olds
              Hpar Hold Hch Hfuel Hnn) as (st' & Hrun & R).
  pose proof (chain_NoDup _ _ _ Hch) as Hnd.
  assert (∀ el, el ∈ els → el_truthy el = true) as Ht by (by apply Forall_forall).
  assert (all_marked st olds els = []) as Hnone.
  { apply elem_of_nil_inv. intros a Ha.
    apply all_marked_elem in Ha as [(j & el & Hj & Hm & Hc)|(Hin & Hvis & Hnever)];
      [| |done].
    - destruct (Hfound j el Hj) as (a' & f & Hm' & Hf & Hty).
      assert (a' = a) as -> by congruence.
      rewrite (compatible_old_cases st a f el Hf), decide_True in Hc; [done..|].
      apply Ht. by eapply list_elem_of_lookup_2.
    - destruct (Hall a Hin Hvis) as [j Hj]. by apply (Hnever j). }
  exists st'. split_and!; [done | apply (rc_same _ _ _ _ _ R) | apply (rc_length _ _ _ _ _ R)|..].
  - intros j el Hj. destruct (Hfound j el Hj) as (a & f & Hm & Hf & Hty).
    exists a. eexists. split; [done|]. rewrite (rc_new _ _ _ _ _ R j el Hj), Hm.
    rewrite (compatible_old_cases st a f el Hf), decide_True;
      [|done|apply Ht; by eapply list_elem_of_lookup_2].
    split; [done|]. split.
    + exists f. unfold new_child. by case_bool_decide.
    + unfold new_child. by case_bool_decide.
  - intros Hpos. pose proof (lookup_lt_Some _ _ _ Hpar) as Hlt.
    rewrite (rc_old _ _ _ _ _ R parent Hlt), Hpar. simpl.
    by rewrite bool_decide_eq_true_2.
  - intros a Hlt Hne. rewrite (rc_old _ _ _ _ _ R a Hlt), Hnone.
    destruct (fibers st !! a) as [f|]; [|done]. simpl.
    by rewrite bool_decide_eq_false_2 by tauto.
  - by rewrite (rc_deletions _ _ _ _ _ R), Hnone, app_nil_r.
Qed.

(** ** Reconciliation: children with keys, in another order *)

(** The key and the type of an old fiber and of a description *)
Definition old_sig (fs : list fiber) (a : nat) : option string * option etype :=
  (old_key fs a, default None (f_type <$> fs !! a)).

Definition new_sig (el : child) : option string * option etype :=
  (new_key el, el_type el).

(** The descriptions [els] are the old children [olds] in another order:
    every old child has a key, no two have the same key, and the keys and
    types of the descriptions are those of the old children, reordered. *)
Definition keyed_reorder (fs : list fiber) (olds : list nat) (els : list child)
    : Prop :=
  new_sig <$> els ≡ₚ old_sig fs <$> olds
  ∧ Forall (λ a, is_Some (old_key fs a)) olds
  ∧ NoDup (old_key fs <$> olds).

Lemma unique_key_filter (fs : list fiber) (olds : list nat) (a : nat) (k : string) :
  NoDup (old_key fs <$> olds) → a ∈ olds → old_key fs a = Some k →
  filter (λ b, old_key fs b = Some k) olds = [a].
Proof.
  induction olds as [|b olds IH]; intros Hnd Ha Hk; [by apply elem_of_nil in Ha|].
  rewrite fmap_cons in Hnd. apply NoDup_cons in Hnd as [Hb Hnd].
  destruct (decide (old_key fs b = Some k)) as [Hbk|Hbk].
  - rewrite filter_cons_True by done.
    assert (filter (λ c, old_key fs c = Some k) olds = []) as ->.
    { apply elem_of_nil_inv. intros c Hc. apply list_elem_of_filter in Hc as [Hck Hc].
      apply Hb. rewrite Hbk, <- Hck. apply list_elem_of_fmap. by exists c. }
    apply elem_of_cons in Ha as [->|Ha]; [done|]. exfalso.
    apply Hb. rewrite Hbk, <- Hk. apply list_elem_of_fmap. by exists a.
  - rewrite filter_cons_False by done.
    apply elem_of_cons in Ha as [->|Ha]; [done|]. by apply IH.
Qed.

Lemma old_key_Some_fiber fs a k : old_key fs a = Some k → ∃ f, fs !! a = Some f.
Proof. unfold old_key. destruct (fs !! a) as [f|]; [eauto | done]. Qed.

Lemma keyed_reorder_keys fs olds els :
  keyed_reorder fs olds els → new_key <$> els ≡ₚ old_key fs <$> olds.
Proof.
  intros (Hp & _ & _). apply (fmap_Permutation fst) in Hp.
  by rewrite <- !list_fmap_compose in Hp.
Qed.

Lemma keyed_reorder_matched fs olds els j el :
  keyed_reorder fs olds els → els !! j = Some el →
  ∃ a f, matched fs olds els j = Some a ∧ a ∈ olds ∧ fs !! a = Some f
         ∧ f_type f = el_type el ∧ old_key fs a = new_key el.
Proof.
  intros Hk Hj. pose proof (keyed_reorder_keys _ _ _ Hk) as Hkeys.
  destruct Hk as (Hp & Hkeyed & Hnd).
  assert (new_sig el ∈ old_sig fs <$> olds) as Hin.
  { rewrite <- Hp. apply list_elem_of_fmap. exists el. split; [done|].
    by eapply list_elem_of_lookup_2. }
  apply list_elem_of_fmap in Hin as (a & Hsig & Ha).
  injection Hsig as Hkey Hty.
  rewrite Forall_forall in Hkeyed. destruct (Hkeyed a Ha) as [k Hak].
  destruct (old_key_Some_fiber _ _ _ Hak) as [f Hf].
  exists a, f. rewrite Hf in Hty. simpl in Hty.
  split_and!; [|done..]. unfold matched. rewrite Hj, Hkey, Hak.
  rewrite bool_decide_eq_false_2.
  - by rewrite (unique_key_filter fs olds a k Hnd Ha Hak).
  - assert (NoDup (new_key <$> els)) as Hnd' by (by rewrite Hkeys).
    rewrite <- (take_drop_middle els j el Hj), fmap_app, fmap_cons in Hnd'.
    apply NoDup_app in Hnd' as (_ & Hdis & _). intros Hin. apply (Hdis _ Hin).
    rewrite Hkey, Hak. apply elem_of_cons. by left.
Qed.

Lemma keyed_reorder_all fs olds els a :
  keyed_reorder fs olds els → a ∈ olds → ∃ j, matched fs olds els j = Some a.
Proof.
  intros Hk Ha. pose proof Hk as (Hp & Hkeyed & Hnd).
  assert (old_sig fs a ∈ new_sig <$> els) as Hin.
  { rewrite Hp. apply list_elem_of_fmap. by exists a. }
  apply list_elem_of_fmap in Hin as (el & Hsig & Hel).
  apply list_elem_of_lookup in Hel as [j Hj]. exists j.
  destruct (keyed_reorder_matched _ _ _ _ _ Hk Hj) as (a' & f & Hm & Ha' & _ & _ & Hkey).
  injection Hsig as Hkey' _.
  rewrite Forall_forall in Hkeyed. destruct (Hkeyed a Ha) as [k Hak].
  assert (a' ∈ [a]) as Hin.
  { rewrite <- (unique_key_filter fs olds a k Hnd Ha Hak).
    apply list_elem_of_filter. split; [congruence | done]. }
  apply list_elem_of_singleton in Hin as ->. done.
Qed.

(** X3. Children with keys that come back in another order.  When every
    old child of the parent has a key of its own, all keys are plain keys
    (strings and numbers below 10^21 that name no member of
    [Object.prototype]) and the descriptions
    have the keys and types of the old children in another order, every
    description gets an Update fiber on the old fiber with its key (same
    output node, [alternate] the old fiber), the new fibers are chained in
    the order of the descriptions, no old fiber is touched and nothing is
    pushed on [deletions]. *)
Theorem reconcileChildren_keyed_reorder (fuel parent : nat) (els : list child)
    (st : state) (pf : fiber) (o : option nat) (olds : list nat) :
  fibers st !! parent = Some pf → old_child st pf o →
  chain (fibers st) o olds → length olds < fuel →
  Forall (λ el, el_truthy el = true) els →
  plain_keys (fibers st) olds els →
  keyed_reorder (fibers st) olds els →
  ∃ st', reconcileChildren fuel parent els st = (Val (), st')
    ∧ (∀ j el, els !! j = Some el →
         ∃ a nf, a ∈ olds ∧ old_key (fibers st) a = new_key el
                 ∧ fibers st' !! (length (fibers st) + j) = Some nf
                 ∧ updates st parent el a nf
                 ∧ f_sibling nf = if bool_decide (S j < length els)
                                  then Some (length (fibers st) + S j) else None)
    ∧ (∀ a, a < length (fibers st) → a ≠ parent →
            fibers st' !! a = fibers st !! a)
    ∧ deletions st' = deletions st.
Proof.
  intros Hpar Hold Hch Hfuel Hels _ Hk.
  destruct (reconcileChildren_all_update fuel parent els st pf o olds
              Hpar Hold Hch Hfuel Hels)
    as (st' & Hrun & _ & _ & Hnew & _ & Hkeep & Hdel).
  - intros j el Hj.
    destruct (keyed_reorder_matched _ _ _ _ _ Hk Hj) as (a & f & Hm & _ & Hf & Hty & _).
    by exists a, f.
  - intros a Ha _. by eapply keyed_reorder_all.
  - exists st'. split_and!; [done| |done..].
    intros j el Hj. destruct (Hnew j el Hj) as (a & nf & Hm & Hnf & Hup & Hsib).
    destruct (keyed_reorder_matched _ _ _ _ _ Hk Hj)
      as (a' & f & Hm' & Ha' & _ & _ & Hkey).
    assert (a' = a) as -> by congruence.
    by exists a, nf.
Qed.

Lemma reconcileChildren_keyed_reorder_witness :
  ∃ st', reconcileChildren 100 5 [Listing.item "li" "b"; Listing.item "li" "a"]
           (Listing.before_ul [Listing.item "li" "a"; Listing.item "li" "b"]
              [Listing.item "li" "b"; Listing.item "li" "a"])
         = (Val (), st')
         ∧ deletions st'
           = deletions (Listing.before_ul [Listing.item "li" "a"; Listing.item "li" "b"]
                          [Listing.item "li" "b"; Listing.item "li" "a"]).
Proof.
  epose proof (reconcileChildren_keyed_reorder 100 5
                 [Listing.item "li" "b"; Listing.item "li" "a"]
                 (Listing.before_ul [Listing.item "li" "a"; Listing.item "li" "b"]
                    [Listing.item "li" "b"; Listing.item "li" "a"])
                 _ (Some 2) [2; 3]) as H.
  edestruct H as (st' & E & _ & _ & Hd); clear H.
  - vm_compute. reflexivity.
  - vm_compute. eexists. split; reflexivity.
  - repeat (eapply chain_cons; [vm_compute; reflexivity|]). vm_compute. apply chain_nil.
  - vm_compute. lia.
  - repeat constructor.
  - split; repeat (constructor; [vm_compute; reflexivity|]); constructor.
  - split_and!.
    + vm_compute. apply perm_swap.
    + vm_compute. repeat constructor; eexists; reflexivity.
    + vm_compute. apply (bool_decide_unpack _). vm_compute. exact I.
  - exists st'. split; [exact E | exact Hd].
Defined.

(** ** Reconciliation: the same children again *)

(** The old children [olds] were made from descriptions with the keys
    and types of [els], one for one, and no two descriptions have the
    same key. *)
Definition same_children (fs : list fiber) (olds : list nat) (els : list child)
    : Prop :=
  Forall2 (λ a el, old_sig fs a = new_sig el) olds els
  ∧ NoDup (omap new_key els).

Lemma same_children_keys fs olds els :
  Forall2 (λ a el, old_sig fs a = new_sig el) olds els →
  omap (old_key fs) olds = omap new_key els.
Proof.
  induction 1 as [|a el olds els Hsig _ IH]; [done|].
  injection Hsig as Hkey _. cbn -[old_key new_key]. by rewrite Hkey, IH.
Qed.

Lemma unique_key_filter_omap (fs : list fiber) (olds : list nat) (a : nat) (k : string) :
  NoDup (omap (old_key fs) olds) → a ∈ olds → old_key fs a = Some k →
  filter (λ b, old_key fs b = Some k) olds = [a].
Proof.
  induction olds as [|b olds IH]; intros Hnd Ha Hk; [by apply elem_of_nil in Ha|].
  cbn -[old_key] in Hnd. destruct (decide (old_key fs b = Some k)) as [Hbk|Hbk].
  - rewrite Hbk in Hnd. apply NoDup_cons in Hnd as [Hb Hnd].
    rewrite filter_cons_True by done.
    assert (filter (λ c, old_key fs c = Some k) olds = []) as ->.
    { apply elem_of_nil_inv. intros c Hc. apply list_elem_of_filter in Hc as [Hck Hc].
      apply Hb. apply list_elem_of_omap. by exists c. }
    apply elem_of_cons in Ha as [->|Ha]; [done|]. exfalso.
    apply Hb. apply list_elem_of_omap. by exists a.
  - rewrite filter_cons_False by done.
    apply elem_of_cons in Ha as [->|Ha]; [done|]. apply IH; [|done..].
    destruct (old_key fs b); [by apply NoDup_cons in Hnd as [_ ?] | done].
Qed.

Lemma first_with_key {A} (g : A → option string) (l : list A) j x k :
  NoDup (omap g l) → l !! j = Some x → g x = Some k → Some k ∉ g <$> take j l.
Proof.
  intros Hnd Hj Hk Hin. rewrite <- (take_drop_middle l j x Hj), omap_app in Hnd.
  apply NoDup_app in Hnd as (_ & Hdis & _).
  apply list_elem_of_fmap in Hin as (y & Hy & Hin).
  apply (Hdis k).
  - apply list_elem_of_omap. by exists y.
  - cbn. rewrite Hk. apply elem_of_cons. by left.
Qed.

Lemma same_children_unkeyed fs olds els :
  Forall2 (λ a el, old_sig fs a = new_sig el) olds els →
  ∀ j a, olds !! j = Some a → old_key fs a = None →
         filter (λ b, old_key fs b = None) olds
           !! length (filter (λ el, new_key el = None) (take j els)) = Some a.
Proof.
  induction 1 as [|b el olds els Hsig _ IH]; intros j a Hj Ha; [done|].
  injection Hsig as Hkey _. destruct j as [|j].
  - injection Hj as ->. by rewrite filter_cons_True by (cbv beta; congruence).
  - change (take (S j) (el :: els)) with (el :: take j els).
    destruct (old_key fs b) as [k|] eqn:Hb.
    + rewrite filter_cons_False by (cbv beta; congruence).
      rewrite filter_cons_False by (cbv beta; congruence).
      by apply IH.
    + rewrite filter_cons_True by (cbv beta; congruence).
      rewrite filter_cons_True by (cbv beta; congruence). simpl. by apply IH.
Qed.

Lemma same_children_matched fs olds els j el :
  same_children fs olds els → els !! j = Some el →
  ∃ a, olds !! j = Some a ∧ matched fs olds els j = Some a
       ∧ old_sig fs a = new_sig el.
Proof.
  intros [Hall Hnd] Hj.
  destruct (Forall2_lookup_r _ _ _ _ _ Hall Hj) as (a & Ha & Hsig).
  exists a. split_and!; [done| |done].
  pose proof Hsig as Hsig'. injection Hsig' as Hkey _.
  unfold matched. rewrite Hj. destruct (new_key el) as [k|] eqn:Hk.
  - rewrite bool_decide_eq_false_2 by (by eapply first_with_key).
    rewrite (unique_key_filter_omap fs olds a k); [done| |by eapply list_elem_of_lookup_2|done].
    by rewrite (same_children_keys _ _ _ Hall).
  - by apply same_children_unkeyed.
Qed.

(** X4. The same children again.  When the old children of the parent
    were made from descriptions with the keys and types of [els], one for
    one, with or without keys, all keys are plain keys (strings and
    numbers below 10^21 that name no member of [Object.prototype]) and
    no two descriptions have the same key,
    the description at each position gets an Update fiber on the old
    child at that position, no old fiber is touched and nothing is pushed
    on [deletions]. *)
Theorem reconcileChildren_same_children (fuel parent : nat) (els : list child)
    (st : state) (pf : fiber) (o : option nat) (olds : list nat) :
  fibers st !! parent = Some pf → old_child st pf o →
  chain (fibers st) o olds → length olds < fuel →
  Forall (λ el, el_truthy el = true) els →
  plain_keys (fibers st) olds els →
  same_children (fibers st) olds els →
  ∃ st', reconcileChildren fuel parent els st = (Val (), st')
    ∧ (∀ j el, els !! j = Some el →
         ∃ a nf, olds !! j = Some a
                 ∧ fibers st' !! (length (fibers st) + j) = Some nf
                 ∧ updates st parent el a nf
                 ∧ f_sibling nf = if bool_decide (S j < length els)
                                  then Some (length (fibers st) + S j) else None)
    ∧ (∀ a, a < length (fibers st) → a ≠ parent →
            fibers st' !! a = fibers st !! a)
    ∧ deletions st' = deletions st.
Proof.
  intros Hpar Hold Hch Hfuel Hels _ Hs.
  assert (∀ j el, els !! j = Some el →
            ∃ a f, matched (fibers st) olds els j = Some a ∧ olds !! j = Some a
                   ∧ fibers st !! a = Some f ∧ f_type f = el_type el) as Hm.
  { intros j el Hj.
    destruct (same_children_matched _ _ _ _ _ Hs Hj) as (a & Ha & Hm & Hsig).
    assert (a < length (fibers st)) as Hlt.
    { eapply chain_valid; [done|]. by eapply list_elem_of_lookup_2. }
    destruct (lookup_lt_is_Some_2 _ _ Hlt) as [f Hf].
    exists a, f. split_and!; [done..|].
    injection Hsig as _ Hty. by rewrite Hf in Hty. }
  destruct (reconcileChildren_all_update fuel parent els st pf o olds
              Hpar Hold Hch Hfuel Hels)
    as (st' & Hrun & _ & _ & Hnew & _ & Hkeep & Hdel).
  - intros j el Hj. destruct (Hm j el Hj) as (a & f & ? & _ & ? & ?). by exists a, f.
  - intros a Ha _. apply list_elem_of_lookup in Ha as [j Hj].
    destruct Hs as [Hall _].
    destruct (Forall2_lookup_l _ _ _ _ _ Hall Hj) as (el & Hel & _).
    exists j. destruct (Hm j el Hel) as (a' & f & ? & Ha' & _). congruence.
  - exists st'. split_and!; [done| |done..].
    intros j el Hj. destruct (Hnew j el Hj) as (a & nf & Hma & Hnf & Hup & Hsib).
    destruct (Hm j el Hj) as (a' & f & Hma' & Ha' & _).
    assert (a' = a) as -> by congruence.
    by exists a, nf.
Qed.

Lemma reconcileChildren_same_children_witness :
  ∃ st', reconcileChildren 100 7 Listing.old_items
           (Listing.before_ul Listing.old_items Listing.old_items)
         = (Val (), st')
         ∧ deletions st'
           = deletions (Listing.before_ul Listing.old_items Listing.old_items).
Proof.
  epose proof (reconcileChildren_same_children 100 7 Listing.old_items
                 (Listing.before_ul Listing.old_items Listing.old_items)
                 _ (Some 2) [2; 3; 4; 5]) as H.
  edestruct H as (st' & E & _ & _ & Hd); clear H.
  - vm_compute. reflexivity.
  - vm_compute. eexists. split; reflexivity.
  - repeat (eapply chain_cons; [vm_compute; reflexivity|]). vm_compute. apply chain_nil.
  - vm_compute. lia.
  - repeat constructor.
  - split; repeat (constructor; [vm_compute; reflexivity|]); constructor.
  - split.
    + repeat (constructor; [vm_compute; reflexivity|]). constructor.
    + vm_compute. apply (bool_decide_unpack _). vm_compute. exact I.
  - exists st'. split; [exact E | exact Hd].
Defined.

(** ** patchDom: what it writes *)

Lemma strict_eq_refl (v : value) : v ≠ VNaN → strict_eq v v = true.
Proof. intros H. destruct v; try done; simpl; by rewrite bool_decide_eq_true_2. Qed.

Lemma strict_eq_NaN (a : value) : strict_eq a VNaN = false.
Proof. by destruct a. Qed.

Lemma isEventProp_not_real (k : string) : isEventProp k = true → isRealProp k = false.
Proof. unfold isRealProp. intros ->. by rewrite !andb_false_r. Qed.

(** The table of listener targets after pass 2 has seen [kv] *)
Definition vxev_step (vx : option (gmap string value)) (kv : string * value)
    : option (gmap string value) :=
  if isEventProp kv.1 then Some (<[event_name kv.1 := kv.2]> (default ∅ vx)) else vx.

(** The listeners attached after pass 2 has seen [kv] *)
Definition listeners_step (vx : option (gmap string value)) (ls : list string)
    (kv : string * value) : list string :=
  if isEventProp kv.1 then
    if decide (is_Some (default ∅ vx !! event_name kv.1)) then ls
    else ls ++ [event_name kv.1]
  else ls.

(** The properties and the style after pass 2 has seen [kv] *)
Definition props_step (prev : list (string * value)) (ps : gmap string value)
    (kv : string * value) : gmap string value :=
  if isRealProp kv.1 && negb (strict_eq (default VUndefined (alist_get kv.1 prev)) kv.2)
     && negb (bool_decide (kv.1 = "style"))
  then <[kv.1 := kv.2]> ps else ps.

Definition style_step (prev : list (string * value)) (sty : list value)
    (kv : string * value) : list value :=
  if isRealProp kv.1 && negb (strict_eq (default VUndefined (alist_get kv.1 prev)) kv.2)
     && bool_decide (kv.1 = "style")
  then if decide (typeof kv.2 = TObject)
       then (if decide (kv.2 = VNull) then sty else sty ++ [kv.2])
       else [kv.2]
  else sty.

Lemma patch_apply_fields prev d kv :
  patch_apply prev d kv
  = Node (n_kind d) (props_step prev (n_props d) kv) (style_step prev (n_style d) kv)
      (vxev_step (n_vxev d) kv) (listeners_step (n_vxev d) (n_listeners d) kv)
      (n_children d).
Proof.
  destruct kv as [k v], d as [kd ps sty vx ls ch].
  unfold patch_apply, props_step, style_step, vxev_step, listeners_step. cbn [fst snd].
  destruct (isEventProp k) eqn:Hev.
  - rewrite (isEventProp_not_real k Hev). cbn.
    unfold setStableListener. cbn. by case_decide.
  - destruct (isRealProp k); cbn; [|done].
    destruct (strict_eq _ v); cbn; [done|].
    case_decide as Hs.
    + rewrite bool_decide_eq_true_2 by done. cbn. repeat case_decide; done.
    + by rewrite bool_decide_eq_false_2.
Qed.

Lemma fold_patch_apply_fields prev (l : list (string * value)) :
  ∀ d, fold_left (patch_apply prev) l d
       = Node (n_kind d) (fold_left (props_step prev) l (n_props d))
           (fold_left (style_step prev) l (n_style d))
           (fold_left vxev_step l (n_vxev d))
           (fold_left (λ x kv, (vxev_step x.1 kv, listeners_step x.1 x.2 kv)) l
              (n_vxev d, n_listeners d)).2
           (n_children d).
Proof.
  induction l as [|kv l IH]; intros d; [by destruct d|].
  cbn [fold_left]. rewrite IH, patch_apply_fields. done.
Qed.

Lemma alist_get_NoDup {A} (l : list (string * A)) k v :
  NoDup l.*1 → (k, v) ∈ l → alist_get k l = Some v.
Proof.
  induction l as [|[k' v'] l IH]; intros Hnd Hin; [by apply elem_of_nil in Hin|].
  rewrite fmap_cons in Hnd. apply NoDup_cons in Hnd as [Hk Hnd]. simpl.
  apply elem_of_cons in Hin as [[= -> ->]|Hin]; [by rewrite decide_True|].
  rewrite decide_False; [by apply IH|]. intros ->. apply Hk.
  apply list_elem_of_fmap. by exists (k', v).
Qed.

Lemma fold_left_id {A B} (f : A → B → A) (l : list B) (a : A) :
  (∀ x, x ∈ l → f a x = a) → fold_left f l a = a.
Proof.
  induction l as [|x l IH]; intros H; [done|]. simpl.
  rewrite H by (apply elem_of_cons; by left). apply IH.
  intros y Hy. apply H. apply elem_of_cons. by right.
Qed.

(** Pass 1 does nothing when every key of [prev] is a key of [next]. *)
Lemma patch_remove_same (next : list (string * value)) (d : node) (k : string) :
  is_Some (alist_get k next) → patch_remove next d k = d.
Proof.
  intros [v Hv]. unfold patch_remove. rewrite Hv.
  by destruct (isRealProp k), (isEventProp k).
Qed.

Lemma props_step_other prev ps kv k :
  kv.1 ≠ k → props_step prev ps kv !! k = ps !! k.
Proof.
  intros Hne. unfold props_step. destruct (_ && _); [|done].
  by rewrite lookup_insert_ne.
Qed.

Lemma style_step_other prev sty kv : kv.1 ≠ "style" → style_step prev sty kv = sty.
Proof.
  intros Hne. unfold style_step. rewrite (bool_decide_eq_false_2 _ Hne).
  by rewrite andb_false_r.
Qed.

(** After pass 2, a property whose value is NaN holds that value. *)
Lemma props_settled prev (l : list (string * value)) (ps : gmap string value) k :
  NoDup l.*1 → (k, VNaN) ∈ l → isRealProp k = true → k ≠ "style" →
  fold_left (props_step prev) l ps !! k = Some VNaN.
Proof.
  induction l as [|[k' v'] l IH] using rev_ind; intros Hnd Hin Hreal Hsty;
    [by apply elem_of_nil in Hin|].
  rewrite fold_left_app. cbn [fold_left].
  rewrite fmap_app in Hnd. apply NoDup_app in Hnd as (Hnd & Hdis & _).
  apply elem_of_app in Hin as [Hin|Hin].
  - rewrite props_step_other; [by apply IH|]. cbn. intros ->.
    apply (Hdis k); [|apply list_elem_of_singleton; done].
    apply list_elem_of_fmap. by exists (k, VNaN).
  - apply list_elem_of_singleton in Hin as [= <- <-].
    unfold props_step. cbn [fst snd].
    rewrite Hreal, strict_eq_NaN, bool_decide_eq_false_2 by done. cbn.
    by rewrite lookup_insert_eq.
Qed.

Lemma style_settled prev (l : list (string * value)) (sty : list value) :
  NoDup l.*1 → ("style", VNaN) ∈ l →
  fold_left (style_step prev) l sty = [VNaN].
Proof.
  induction l as [|[k' v'] l IH] using rev_ind; intros Hnd Hin;
    [by apply elem_of_nil in Hin|].
  rewrite fold_left_app. cbn [fold_left].
  rewrite fmap_app in Hnd. apply NoDup_app in Hnd as (Hnd & Hdis & _).
  apply elem_of_app in Hin as [Hin|Hin].
  - rewrite style_step_other; [by apply IH|]. cbn. intros ->.
    apply (Hdis "style"); [|apply list_elem_of_singleton; done].
    apply list_elem_of_fmap. by exists ("style", VNaN).
  - apply list_elem_of_singleton in Hin as [= <- <-].
    unfold style_step. cbn [fst snd]. by rewrite strict_eq_NaN.
Qed.

Lemma vxev_step_skip vx kv : isEventProp kv.1 = false → vxev_step vx kv = vx.
Proof. unfold vxev_step. by intros ->. Qed.

Lemma vxev_step_event vx kv :
  isEventProp kv.1 = true →
  vxev_step vx kv = Some (<[event_name kv.1 := kv.2]> (default ∅ vx)).
Proof. unfold vxev_step. by intros ->. Qed.

(** A value written to the table is overwritten by a later one for the
    same event. *)
Lemma vxev_step_twice (l : list (string * value)) :
  ∀ vx kv, vxev_step (fold_left vxev_step l (vxev_step vx kv)) kv
           = vxev_step (fold_left vxev_step l vx) kv.
Proof.
  induction l as [|kv' l IH]; intros vx kv; cbn [fold_left].
  - destruct (isEventProp kv.1) eqn:Hk.
    + rewrite !(vxev_step_event _ kv Hk). cbn. by rewrite insert_insert_eq.
    + by rewrite !(vxev_step_skip _ kv Hk).
  - destruct (isEventProp kv.1) eqn:Hk; [|by rewrite !(vxev_step_skip _ kv Hk)].
    destruct (isEventProp kv'.1) eqn:Hk'.
    2:{ rewrite !(vxev_step_skip _ kv' Hk'). apply IH. }
    destruct (decide (event_name kv'.1 = event_name kv.1)) as [Heq|Hne].
    + do 2 f_equal. rewrite (vxev_step_event vx kv Hk), !(vxev_step_event _ kv' Hk').
      cbn. by rewrite Heq, insert_insert_eq.
    + rewrite <- (IH (vxev_step vx kv') kv). do 2 f_equal.
      rewrite (vxev_step_event vx kv Hk), !(vxev_step_event _ kv' Hk'),
        (vxev_step_event _ kv Hk). cbn. f_equal. by apply insert_insert_ne.
Qed.

Lemma vxev_fold_twice (l : list (string * value)) (vx : option (gmap string value)) :
  fold_left vxev_step l (fold_left vxev_step l vx) = fold_left vxev_step l vx.
Proof.
  revert vx. induction l as [|kv l IH] using rev_ind; intros vx; [done|].
  rewrite !fold_left_app. cbn [fold_left]. by rewrite vxev_step_twice, IH.
Qed.

Definition listens (vx : option (gmap string value)) (kv : string * value) : Prop :=
  isEventProp kv.1 = true → is_Some (default ∅ vx !! event_name kv.1).

Lemma vxev_step_listens vx kv kv' : listens vx kv → listens (vxev_step vx kv') kv.
Proof.
  unfold listens, vxev_step. intros H Hk. destruct (isEventProp kv'.1); [|auto]. cbn.
  apply lookup_insert_is_Some'. right. auto.
Qed.

Lemma vxev_step_listens_self vx kv : listens (vxev_step vx kv) kv.
Proof.
  unfold listens, vxev_step. intros ->. cbn. apply lookup_insert_is_Some'. by left.
Qed.

Lemma vxev_fold_listens (l : list (string * value)) :
  ∀ vx kv, listens vx kv ∨ kv ∈ l → listens (fold_left vxev_step l vx) kv.
Proof.
  induction l as [|kv' l IH]; intros vx kv [H|H]; cbn [fold_left];
    [done | by apply elem_of_nil in H | |].
  - apply IH. left. by apply vxev_step_listens.
  - apply elem_of_cons in H as [->|H].
    + apply IH. left. apply vxev_step_listens_self.
    + apply IH. by right.
Qed.

(** No listener is attached for an event that has an entry in the table. *)
Lemma listeners_fold_same (l : list (string * value)) :
  ∀ vx ls, (∀ kv, kv ∈ l → listens vx kv) →
           fold_left (λ x kv, (vxev_step x.1 kv, listeners_step x.1 x.2 kv)) l (vx, ls)
           = (fold_left vxev_step l vx, ls).
Proof.
  induction l as [|kv l IH]; intros vx ls H; [done|]. cbn [fold_left fst snd].
  assert (listeners_step vx ls kv = ls) as ->.
  { unfold listeners_step. destruct (isEventProp kv.1) eqn:Hk; [|done].
    rewrite decide_True; [done|]. apply H; [|done]. apply elem_of_cons. by left. }
  apply IH. intros kv' Hkv'. apply vxev_step_listens. apply H.
  apply elem_of_cons. by right.
Qed.

Lemma listeners_fold_fst (l : list (string * value)) :
  ∀ x, (fold_left (λ x kv, (vxev_step x.1 kv, listeners_step x.1 x.2 kv)) l x).1
       = fold_left vxev_step l x.1.
Proof. induction l as [|kv l IH]; intros x; [done|]. cbn [fold_left]. by rewrite IH. Qed.

(** In the record of the node, patchDom applied a second time with the
    properties it has just applied changes nothing. *)
Lemma patchDom_same_node (dom : node) (prev next : list (string * value)) :
  NoDup next.*1 →
  patchDom (patchDom dom prev next) next next = patchDom dom prev next.
Proof.
  intros Hnd. unfold patchDom.
  set (d0 := fold_left (patch_remove next) prev.*1 dom).
  set (d1 := fold_left (patch_apply prev) next d0).
  assert (fold_left (patch_remove next) next.*1 d1 = d1) as ->.
  { apply fold_left_id. intros k Hk. apply patch_remove_same.
    apply list_elem_of_fmap in Hk as ([k' v] & -> & Hin).
    exists v. by apply alist_get_NoDup. }
  rewrite fold_patch_apply_fields.
  assert (d1 = Node (n_kind d0) (fold_left (props_step prev) next (n_props d0))
                 (fold_left (style_step prev) next (n_style d0))
                 (fold_left vxev_step next (n_vxev d0))
                 (fold_left (λ x kv, (vxev_step x.1 kv, listeners_step x.1 x.2 kv)) next
                    (n_vxev d0, n_listeners d0)).2
                 (n_children d0)) as Hd1 by apply fold_patch_apply_fields.
  rewrite Hd1 at 7. rewrite Hd1. cbn [n_kind n_props n_style n_vxev n_listeners n_children].
  f_equal.
  - apply fold_left_id. intros [k v] Hin. unfold props_step. cbn [fst snd].
    rewrite (alist_get_NoDup next k v Hnd Hin). cbn.
    destruct (decide (v = VNaN)) as [->|Hv].
    + destruct (isRealProp k) eqn:Hreal; [|done]. cbn.
      case_bool_decide as Hs; [done|]. cbn. apply insert_id.
      by apply props_settled.
    + by rewrite (strict_eq_refl v Hv), andb_false_r.
  - apply fold_left_id. intros [k v] Hin. unfold style_step. cbn [fst snd].
    rewrite (alist_get_NoDup next k v Hnd Hin). cbn.
    destruct (decide (v = VNaN)) as [->|Hv].
    + destruct (isRealProp k) eqn:Hreal; [|done]. cbn.
      case_bool_decide as Hs; [|done]. subst k. cbn. symmetry.
      by apply style_settled.
    + by rewrite (strict_eq_refl v Hv), andb_false_r.
  - apply vxev_fold_twice.
  - rewrite listeners_fold_same.
    + done.
    + intros kv Hkv. apply vxev_fold_listens. by right.
Qed.

(** *** The writes of patchDom, one by one *)

Inductive dom_write :=
| Assign (k : string) (v : value)       (* dom[k] = v *)
| ClearStyle                            (* dom.style.cssText = '' *)
| AssignStyle (v : value)               (* Object.assign(dom.style, v) *)
| NewTable                              (* dom._vxev = {} *)
| SetTarget (ev : string) (v : value)   (* dom._vxev[ev] = v *)
| Listen (ev : string).                 (* dom.addEventListener(ev, proxy) *)

(** What a write leaves in the record of the node *)
Definition write (dom : node) (w : dom_write) : node :=
  match w with
  | Assign k v =>
      if decide (k = "style") then set_n_style (λ _, [v]) dom
      else set_n_props (<[k := v]>) dom
  | ClearStyle => set_n_style (λ _, []) dom
  | AssignStyle v => if decide (v = VNull) then dom else set_n_style (λ l, l ++ [v]) dom
  | NewTable => set_n_vxev (Some ∅) dom
  | SetTarget ev v => set_n_vxev (Some (<[ev := v]> (default ∅ (n_vxev dom)))) dom
  | Listen ev => set_n_listeners (λ l, l ++ [ev]) dom
  end.

(** setStableListener *)
Definition setStableListener_writes (dom : node) (evName : string) (fn : value)
    : list dom_write :=
  match n_vxev dom with None => [NewTable] | Some _ => [] end
  ++ SetTarget evName fn
     :: if decide (is_Some (default ∅ (n_vxev dom) !! evName)) then []
        else [Listen evName].

(** Pass 1, the turn of the key [k] of [prev] *)
Definition patch_remove_writes (next : list (string * value)) (dom : node)
    (k : string) : list dom_write :=
  if negb (isRealProp k) then
    if isEventProp k then
      match alist_get k next, n_vxev dom with
      | None, Some _ => [SetTarget (event_name k) VNull]
      | _, _ => []
      end
    else []
  else
    match alist_get k next with
    | Some _ => []
    | None => if decide (k = "style") then [ClearStyle] else [Assign k (VStr "")]
    end.

(** Pass 2, the turn of the entry [k], [next[k]] of [next] *)
Definition patch_apply_writes (prev : list (string * value)) (dom : node)
    (kv : string * value) : list dom_write :=
  let '(k, v) := kv in
  if negb (isRealProp k) then
    if isEventProp k then setStableListener_writes dom (event_name k) v else []
  else if strict_eq (default VUndefined (alist_get k prev)) v then []
  else if decide (k = "style") then
    if decide (typeof v = TObject) then [AssignStyle v] else [Assign k v]
  else [Assign k v].

(** The writes of a loop whose turns make the writes [step], the node
    changing as they are made *)
Fixpoint loop_writes {X} (step : node → X → list dom_write) (xs : list X)
    (dom : node) : list dom_write :=
  match xs with
  | [] => []
  | x :: xs' =>
      step dom x ++ loop_writes step xs' (fold_left write (step dom x) dom)
  end.

Definition patchDom_writes (dom : node) (prev next : list (string * value))
    : list dom_write :=
  let pass1 := loop_writes (patch_remove_writes next) (prev.*1) dom in
  pass1 ++ loop_writes (patch_apply_writes prev) next (fold_left write pass1 dom).

Lemma patch_remove_replay next dom k :
  fold_left write (patch_remove_writes next dom k) dom = patch_remove next dom k.
Proof.
  unfold patch_remove_writes, patch_remove.
  destruct (negb (isRealProp k)).
  - destruct (isEventProp k); [|done].
    destruct (alist_get k next); [done|]. destruct (n_vxev dom) eqn:E; [|done].
    cbn. by rewrite E.
  - destruct (alist_get k next); [done|]. case_decide as Hk; cbn; [done|].
    by rewrite decide_False.
Qed.

Lemma setStableListener_replay dom ev fn :
  fold_left write (setStableListener_writes dom ev fn) dom = setStableListener dom ev fn.
Proof.
  unfold setStableListener_writes, setStableListener.
  destruct dom as [kd ps sty [vx|] ls ch]; cbn; case_decide; cbn; try done.
  all: by rewrite ?insert_empty.
Qed.

Lemma patch_apply_replay prev dom kv :
  fold_left write (patch_apply_writes prev dom kv) dom = patch_apply prev dom kv.
Proof.
  destruct kv as [k v]. unfold patch_apply_writes, patch_apply.
  destruct (negb (isRealProp k)).
  - destruct (isEventProp k); [apply setStableListener_replay | done].
  - destruct (strict_eq _ v); [done|]. case_decide as Hk.
    + case_decide; cbn; [done|]. by rewrite decide_True.
    + cbn. by rewrite decide_False.
Qed.

Lemma loop_writes_replay {X} (step : node → X → list dom_write) (f : node → X → node)
    (xs : list X) :
  (∀ d x, fold_left write (step d x) d = f d x) →
  ∀ dom, fold_left write (loop_writes step xs dom) dom = fold_left f xs dom.
Proof.
  intros H. induction xs as [|x xs IH]; intros dom; [done|].
  cbn [loop_writes fold_left]. by rewrite fold_left_app, IH, H.
Qed.

(** Making the writes of the list on the record of the node gives the
    node that patchDom returns. *)
Lemma patchDom_replay (dom : node) (prev next : list (string * value)) :
  fold_left write (patchDom_writes dom prev next) dom = patchDom dom prev next.
Proof.
  unfold patchDom_writes, patchDom. rewrite fold_left_app.
  rewrite (loop_writes_replay _ (patch_remove next)) by apply patch_remove_replay.
  by rewrite (loop_writes_replay _ (patch_apply prev)) by apply patch_apply_replay.
Qed.

(** The writes of the turn of an entry when patchDom is called again
    with the same properties *)
Definition repeated_writes (kv : string * value) : list dom_write :=
  if isEventProp kv.1 then [SetTarget (event_name kv.1) kv.2]
  else if isRealProp kv.1 && bool_decide (kv.2 = VNaN) then [Assign kv.1 kv.2]
  else [].

Lemma write_SetTarget_vxev dom ev v :
  n_vxev (write dom (SetTarget ev v)) = Some (<[ev := v]> (default ∅ (n_vxev dom))).
Proof. done. Qed.

Lemma apply_again_writes (next l : list (string * value)) :
  NoDup next.*1 → l ⊆ next →
  ∀ dom, (∀ kv, kv ∈ next → listens (n_vxev dom) kv) →
         loop_writes (patch_apply_writes next) l dom = flat_map repeated_writes l.
Proof.
  intros Hnd. induction l as [|[k v] l IH]; intros Hl dom Hinv; [done|].
  assert ((k, v) ∈ next) as Hin by (apply Hl, elem_of_cons; by left).
  assert (l ⊆ next) as Hl' by (intros x Hx; apply Hl, elem_of_cons; by right).
  cbn [loop_writes flat_map].
  assert (patch_apply_writes next dom (k, v) = repeated_writes (k, v)) as Hstep.
  { unfold patch_apply_writes, repeated_writes. cbn [fst snd].
    destruct (isEventProp k) eqn:Hev.
    - rewrite (isEventProp_not_real k Hev). cbn.
      pose proof (Hinv (k, v) Hin Hev) as Hl0. cbn in Hl0.
      unfold setStableListener_writes. rewrite decide_True by done.
      destruct (n_vxev dom); [done|]. cbn in Hl0.
      rewrite lookup_empty in Hl0. by destruct Hl0.
    - destruct (isRealProp k); cbn; [|done].
      rewrite (alist_get_NoDup next k v Hnd Hin). cbn.
      destruct (decide (v = VNaN)) as [->|Hv].
      + cbn. case_decide; [|done]. by rewrite decide_False.
      + rewrite (strict_eq_refl v Hv). by rewrite bool_decide_eq_false_2. }
  rewrite Hstep. f_equal. apply IH; [done|].
  intros kv Hkv. specialize (Hinv kv Hkv).
  unfold repeated_writes. cbn [fst snd].
  destruct (isEventProp k).
  - cbn [fold_left]. rewrite write_SetTarget_vxev.
    unfold listens in *. intros Hk. apply lookup_insert_is_Some'. right. auto.
  - destruct (_ && _); cbn; [case_decide|]; done.
Qed.

(** Pass 1 with the properties themselves makes no write. *)
Lemma remove_again_writes (next : list (string * value)) (d : node) :
  NoDup next.*1 → loop_writes (patch_remove_writes next) next.*1 d = [].
Proof.
  intros Hnd.
  assert (∀ ks, ks ⊆ next.*1 → loop_writes (patch_remove_writes next) ks d = []) as H.
  { induction ks as [|k ks IH]; intros Hks; [done|]. cbn [loop_writes].
    assert (patch_remove_writes next d k = []) as ->.
    { assert (k ∈ next.*1) as Hk by (apply Hks, elem_of_cons; by left).
      apply list_elem_of_fmap in Hk as ([k' v] & -> & Hin).
      unfold patch_remove_writes. cbn. rewrite (alist_get_NoDup next k' v Hnd Hin).
      by destruct (isRealProp k'), (isEventProp k'). }
    cbn. apply IH. intros x Hx. apply Hks, elem_of_cons. by right. }
  by apply H.
Qed.

(** X5. patchDom called again with the properties it has just applied,
    whatever the properties were before, when no key occurs twice in the
    property list (as in an object): it removes nothing, attaches no
    listener and makes no table; it assigns again the properties whose
    value is NaN, which is not [===] to itself, and no other, and it sets
    the target of each event property again to the function it already
    is.  In the record of the node nothing changes. *)
Theorem patchDom_idempotent (dom : node) (prev next : list (string * value)) :
  NoDup next.*1 →
  patchDom_writes (patchDom dom prev next) next next = flat_map repeated_writes next
  ∧ patchDom (patchDom dom prev next) next next = patchDom dom prev next.
Proof.
  intros Hnd. split.
  2:{ by apply patchDom_same_node. }
  unfold patchDom_writes.
  rewrite (remove_again_writes next (patchDom dom prev next) Hnd).
  cbn [app fold_left]. apply apply_again_writes; [done..|].
  intros kv Hkv. unfold patchDom. rewrite fold_patch_apply_fields.
  cbn [n_vxev]. apply vxev_fold_listens. by right.
Qed.

Lemma patchDom_idempotent_witness :
  patchDom_writes
    (patchDom (new_node (Element "button")) []
       [("className", VStr "big"); ("onClick", VFun 1); ("tabIndex", VNaN)])
    [("className", VStr "big"); ("onClick", VFun 1); ("tabIndex", VNaN)]
    [("className", VStr "big"); ("onClick", VFun 1); ("tabIndex", VNaN)]
  = [SetTarget "click" (VFun 1); Assign "tabIndex" VNaN]
  ∧ patchDom
      (patchDom (new_node (Element "button")) []
         [("className", VStr "big"); ("onClick", VFun 1); ("tabIndex", VNaN)])
      [("className", VStr "big"); ("onClick", VFun 1); ("tabIndex", VNaN)]
      [("className", VStr "big"); ("onClick", VFun 1); ("tabIndex", VNaN)]
    = patchDom (new_node (Element "button")) []
        [("className", VStr "big"); ("onClick", VFun 1); ("tabIndex", VNaN)].
Proof.
  apply (patchDom_idempotent (new_node (Element "button")) []
           [("className", VStr "big"); ("onClick", VFun 1); ("tabIndex", VNaN)]).
  apply (bool_decide_unpack _). vm_compute. exact I.
Defined.

(** ** The same description again *)

(** Two items with the same key, rendered twice *)
Module Twins.
Definition items : list child := [Listing.item "li" "a"; Listing.item "li" "a"].
Definition rendered : state := Listing.rendered items items.
End Twins.

(** C8 as stated fails where two siblings have the same key: after the
    tree is mounted and rendered again with the identical description,
    the second item, fiber 7, is tagged Placement, a node is created for
    it and appended to the list, which has three children then.  (The
    first description takes the old fiber of the second item, which the
    key map holds; the second description finds none.) *)
Lemma identical_rerender_duplicate_key :
  f_effectTag <$> fibers Twins.rendered !! 6 = Some (Some UPDATE)
  ∧ f_effectTag <$> fibers Twins.rendered !! 7 = Some (Some PLACEMENT)
  ∧ creations_in (trace Twins.rendered) = [1; 2; 3; 4]
  ∧ n_children <$> nodes Twins.rendered !! 1 = Some [2; 3; 4].
Proof. vm_compute. split_and!; reflexivity. Qed.

(** C8. The same description again, where the keys of siblings are
    plain keys and differ.  When the old children of a parent were made
    from descriptions with the keys and types of [els], one for one,
    reconcileChildren gives the description at each position an Update
    fiber on the old child at that position, touches no old fiber and
    pushes nothing on [deletions]: no fiber below the root is tagged
    Placement or Deletion.  And the diff of the properties with
    themselves, on a node that was patched with them, removes nothing
    and attaches no listener; it assigns again the properties whose value
    is NaN, and no other, and it sets each listener target again to the
    function it is, so that the record of the node does not change. *)
Theorem identical_rerender_updates :
  (∀ (fuel parent : nat) (els : list child) (st : state) (pf : fiber)
     (o : option nat) (olds : list nat),
     fibers st !! parent = Some pf → old_child st pf o →
     chain (fibers st) o olds → length olds < fuel →
     Forall (λ el, el_truthy el = true) els →
     plain_keys (fibers st) olds els →
     same_children (fibers st) olds els →
     ∃ st', reconcileChildren fuel parent els st = (Val (), st')
       ∧ (∀ j el, els !! j = Some el →
            ∃ a nf, olds !! j = Some a
                    ∧ fibers st' !! (length (fibers st) + j) = Some nf
                    ∧ updates st parent el a nf
                    ∧ f_sibling nf = if bool_decide (S j < length els)
                                     then Some (length (fibers st) + S j) else None)
       ∧ (∀ a, a < length (fibers st) → a ≠ parent →
               fibers st' !! a = fibers st !! a)
       ∧ deletions st' = deletions st)
  ∧ (∀ (dom : node) (prev next : list (string * value)),
       NoDup next.*1 →
       patchDom_writes (patchDom dom prev next) next next
       = flat_map repeated_writes next
       ∧ patchDom (patchDom dom prev next) next next = patchDom dom prev next).
Proof.
  split.
  - intros fuel parent els st pf o olds Hpar Hold Hch Hfuel Hels _ Hs.
    assert (∀ j el, els !! j = Some el →
              ∃ a f, matched (fibers st) olds els j = Some a ∧ olds !! j = Some a
                     ∧ fibers st !! a = Some f ∧ f_type f = el_type el) as Hm.
    { intros j el Hj.
      destruct (same_children_matched _ _ _ _ _ Hs Hj) as (a & Ha & Hm & Hsig).
      assert (a < length (fibers st)) as Hlt.
      { eapply chain_valid; [done|]. by eapply list_elem_of_lookup_2. }
      destruct (lookup_lt_is_Some_2 _ _ Hlt) as [f Hf].
      exists a, f. split_and!; [done..|].
      injection Hsig as _ Hty. by rewrite Hf in Hty. }
    destruct (reconcileChildren_all_update fuel parent els st pf o olds
                Hpar Hold Hch Hfuel Hels)
      as (st' & Hrun & _ & _ & Hnew & _ & Hkeep & Hdel).
    + intros j el Hj. destruct (Hm j el Hj) as (a & f & ? & _ & ? & ?). by exists a, f.
    + intros a Ha _. apply list_elem_of_lookup in Ha as [j Hj].
      destruct Hs as [Hall _].
      destruct (Forall2_lookup_l _ _ _ _ _ Hall Hj) as (el & Hel & _).
      exists j. destruct (Hm j el Hel) as (a' & f & ? & Ha' & _). congruence.
    + exists st'. split_and!; [done| |done..].
      intros j el Hj. destruct (Hnew j el Hj) as (a & nf & Hma & Hnf & Hup & Hsib).
      destruct (Hm j el Hj) as (a' & f & Hma' & Ha' & _).
      assert (a' = a) as -> by congruence.
      by exists a, nf.
  - intros dom prev next Hnd. split; [|by apply patchDom_same_node].
    unfold patchDom_writes.
    rewrite (remove_again_writes next (patchDom dom prev next) Hnd).
    cbn [app fold_left]. apply apply_again_writes; [done..|].
    intros kv Hkv. unfold patchDom. rewrite fold_patch_apply_fields.
    cbn [n_vxev]. apply vxev_fold_listens. by right.
Qed.

(** The items of [Listing.old_items], rendered again, and a button
    patched again *)
Lemma identical_rerender_updates_witness :
  (∃ st', reconcileChildren 100 7 Listing.old_items
            (Listing.before_ul Listing.old_items Listing.old_items)
          = (Val (), st')
          ∧ deletions st'
            = deletions (Listing.before_ul Listing.old_items Listing.old_items))
  ∧ patchDom_writes
      (patchDom (new_node (Element "button")) []
         [("className", VStr "big"); ("onClick", VFun 1)])
      [("className", VStr "big"); ("onClick", VFun 1)]
      [("className", VStr "big"); ("onClick", VFun 1)]
    = [SetTarget "click" (VFun 1)].
Proof.
  destruct identical_rerender_updates as [H1 H2]. split.
  - epose proof (H1 100 7 Listing.old_items
                   (Listing.before_ul Listing.old_items Listing.old_items)
                   _ (Some 2) [2; 3; 4; 5]) as H.
    edestruct H as (st' & E & _ & _ & Hd); clear H H1 H2.
    + vm_compute. reflexivity.
    + vm_compute. eexists. split; reflexivity.
    + repeat (eapply chain_cons; [vm_compute; reflexivity|]). vm_compute. apply chain_nil.
    + vm_compute. lia.
    + repeat constructor.
    + split; repeat (constructor; [vm_compute; reflexivity|]); constructor.
    + split.
      * repeat (constructor; [vm_compute; reflexivity|]). constructor.
      * vm_compute. apply (bool_decide_unpack _). vm_compute. exact I.
    + exists st'. split; [exact E | exact Hd].
  - apply (H2 (new_node (Element "button")) []
             [("className", VStr "big"); ("onClick", VFun 1)]).
    apply (bool_decide_unpack _). vm_compute. exact I.
Defined.

(** ** Commit: an Update moves no node *)

(** The calls that change the tree of output nodes: the creation of a
    node, appendChild and removeChild *)
Definition tree_call (e : event) : bool :=
  match e with
  | EvCreate _ | EvAppend _ _ | EvRemove _ _ => true
  | _ => false
  end.

Definition tree_calls_in (t : list event) : list event :=
  filter (λ e, tree_call e = true) t.

(** No call that changes the tree of output nodes is made from [st] to
    [st']. *)
Definition nodes_stay (st st' : state) : Prop :=
  tree_calls_in (trace st') = tree_calls_in (trace st).

Global Instance nodes_stay_refl : Reflexive nodes_stay.
Proof. intros st. by unfold nodes_stay. Qed.

Global Instance nodes_stay_trans : Transitive nodes_stay.
Proof. intros a b c H1 H2. unfold nodes_stay in *. congruence. Qed.

Lemma nodes_stay_same_trace (st st' : state) : trace st' = trace st → nodes_stay st st'.
Proof. intros H. unfold nodes_stay. by rewrite H. Qed.

Lemma nodes_stay_write_node a g : keeps nodes_stay (write_node a g).
Proof. intros st. by apply nodes_stay_same_trace. Qed.

Lemma nodes_stay_emit e : tree_call e = false → keeps nodes_stay (emit e).
Proof.
  intros He st. unfold emit, modify, nodes_stay, tree_calls_in. cbn.
  rewrite filter_app, filter_cons_False by (by rewrite He).
  by rewrite filter_nil, app_nil_r.
Qed.

Lemma nodes_stay_patchDom_at d prev next : keeps nodes_stay (patchDom_at d prev next).
Proof.
  unfold patchDom_at. destruct prev as [p|], next as [q|].
  - apply nodes_stay_write_node.
  - destruct (forallb _ _); [apply keeps_ret | apply keeps_throw]; apply _.
  - intros st. unfold bind, read_node.
    destruct (nodes st !! d) as [dom|] eqn:Hd; [|reflexivity]. cbn.
    destruct (patch_apply_noprev dom (p_attrs q)) as [r dom'] eqn:E.
    unfold write_node, modify. cbn. destruct r; by apply nodes_stay_same_trace.
  - apply keeps_ret; apply _.
Qed.

Lemma nodes_stay_wire_ref p d : keeps nodes_stay (wire_ref p d).
Proof.
  unfold wire_ref. destruct p as [q|]; [|apply keeps_ret; apply _].
  destruct (_ && _); [|apply keeps_ret; apply _].
  apply keeps_modify. intros st. by unfold nodes_stay.
Qed.

Lemma nodes_stay_flushFiberEffects a : keeps nodes_stay (flushFiberEffects a).
Proof.
  intros st. unfold flushFiberEffects, bind, read_fiber.
  destruct (fibers st !! a) as [f|]; [|reflexivity].
  destruct (f_pendingEffects f); by unfold nodes_stay.
Qed.

Lemma nodes_stay_emit_patch d : keeps nodes_stay (emit (EvPatch d)).
Proof. by apply nodes_stay_emit. Qed.

Create HintDb stay.

#[global] Hint Resolve nodes_stay_patchDom_at nodes_stay_wire_ref
  nodes_stay_flushFiberEffects nodes_stay_emit_patch : stay.

Ltac stay_step :=
  first
    [ lazymatch goal with
      | |- Reflexive _ => apply _
      | |- Transitive _ => apply _
      end
    | solve [auto with stay]
    | apply keeps_ret | apply keeps_throw | apply keeps_get
    | apply keeps_read_fiber | apply keeps_read_hook
    | apply keeps_read_cell | apply keeps_read_node
    | lazymatch goal with
      | |- keeps _ (bind _ _) => refine (keeps_bind _ _ _ _ _); [|intros ?; cbv beta]
      end
    | match goal with
      | |- keeps _ (match ?x with _ => _ end) => destruct x
      end ].

Ltac stay := repeat stay_step.

(** A fiber that the walk neither places nor deletes *)
Definition stays (st : state) (a : nat) : Prop :=
  ∃ f, fibers st !! a = Some f
       ∧ f_effectTag f ≠ Some PLACEMENT ∧ f_effectTag f ≠ Some DELETION.

Lemma stays_same_tree st st' a : same_tree st st' → stays st a → stays st' a.
Proof.
  intros Hsame (f & Hf & Ht1 & Ht2).
  destruct (same_tree_lookup _ _ _ _ Hsame Hf) as (f' & Hf' & Heq).
  apply same_tree_fields in Heq as (_ & _ & _ & Ht).
  exists f'. split; [done|]. rewrite Ht. done.
Qed.

Lemma visit_nodes_stay fuel fr st :
  stays st fr.1 → nodes_stay st (visit fuel fr st).2.
Proof.
  destruct fr as [a p]. intros (f & Hf & Ht1 & Ht2). unfold visit.
  cbn [fst snd]. unfold bind at 1. unfold commit_fiber.
  rewrite (bind_val _ _ _ _ _ (read_fiber_val _ _ _ Hf)).
  match goal with
  | |- nodes_stay _ (let (r, st') := ?m st in _).2 =>
      assert (keeps nodes_stay m) as Hk;
        [|specialize (Hk st); by destruct (m st) as [[?|?] ?]]
  end.
  destruct (f_effectTag f) as [[| |]|]; [done| |done|]; stay.
Qed.

Lemma tree_visit fuel fr : keeps same_tree (visit fuel fr).
Proof.
  unfold visit. apply keeps_bind; [apply _ | apply tree_commit_fiber|].
  intros _. apply keeps_ret. apply _.
Qed.

Lemma walk_nodes_stay fuel (frames : list (nat * option nat)) :
  ∀ st, Forall (λ fr, stays st fr.1) frames →
        nodes_stay st (for_each frames (visit fuel) st).2.
Proof.
  induction frames as [|fr frames IH]; intros st Hl; [reflexivity|].
  apply Forall_cons in Hl as [Hfr Hl]. cbn [for_each]. unfold bind.
  pose proof (visit_nodes_stay fuel fr st Hfr) as Hg.
  pose proof (tree_visit fuel fr st) as Ht.
  destruct (visit fuel fr st) as [[[]|e] st1]; [|done]. cbn in Hg, Ht.
  etrans; [done|]. apply IH. eapply Forall_impl; [done|].
  intros fr'. by apply stays_same_tree.
Qed.

(** X6. The commit moves no node for an Update.  When no fiber of the
    tree that commitWork walks is tagged Placement or Deletion, the walk
    calls neither appendChild nor removeChild and creates no node,
    whether it returns or throws: all it does to the output nodes is to
    patch their properties and to set references, so that the reconciler
    leaves the output nodes of reordered children in the order they had.
    (What the assignment of a property does to a node is the host's.) *)
Theorem commitWork_update_moves_nothing (fuel a : nat) (p : option nat) (st : state)
    (frames : list (nat * option nat)) :
  walk (fibers st) (Some a) p frames → length frames ≤ fuel →
  Forall (λ fr, stays st fr.1) frames →
  tree_calls_in (trace (commitWork fuel a p st).2) = tree_calls_in (trace st).
Proof.
  intros Hwalk Hfuel Hstay. change (nodes_stay st (commitWork fuel a p st).2).
  unfold commitWork.
  rewrite (commitWork_loop_walk fuel fuel [(a, p)] frames st); [|..|done].
  - by apply walk_nodes_stay.
  - rewrite <- (app_nil_r frames). constructor; [done | constructor].
Qed.

Module Reorder.
Definition before_commit : state :=
  run (work_units 100 Listing.fns Listing.components (plenty 20))
    (after 100 Listing.fns Listing.components
       [Render (Listing.ul [Listing.item "li" "a"; Listing.item "li" "b"]) 0;
        Idle (plenty 20);
        Render (Listing.ul [Listing.item "li" "b"; Listing.item "li" "a"]) 0]
       (initial_state page)).
End Reorder.

Lemma commitWork_update_moves_nothing_witness :
  tree_calls_in (trace (commitWork 100 5 (Some 0) Reorder.before_commit).2)
  = tree_calls_in (trace Reorder.before_commit).
Proof.
  apply (commitWork_update_moves_nothing 100 5 (Some 0) Reorder.before_commit
           [(5, Some 0); (6, Some 1); (7, Some 1)]).
  - apply (walk_frames_sound 10). vm_compute. reflexivity.
  - vm_compute. lia.
  - repeat constructor; (eexists; split; [vm_compute; reflexivity|]);
      split; vm_compute; discriminate.
Defined.

(** ** Children with keys in another order, from render to commit *)

(** A list with the items a and b, rendered again with b and a *)
Module Swap.
Definition ab : list child := [Listing.item "li" "a"; Listing.item "li" "b"].
Definition ba : list child := [Listing.item "li" "b"; Listing.item "li" "a"].

Definition mounted : state :=
  after 100 Listing.fns Listing.components
    [Render (Listing.ul ab) 0; Idle (plenty 20)] (initial_state page).

Definition rendered : state := Listing.rendered ab ba.

(** The output nodes of the fibers of a child chain, in order *)
Definition output_of (st : state) (l : list nat) : list (option nat) :=
  (λ a, fibers st !! a ≫= f_dom) <$> l.
End Swap.




(** ** Walks along one pointer of the fibers *)

(** The fibers reached from [o] by following the pointer [next] until it
    is null *)
Inductive path (next : fiber → option nat) (fs : list fiber)
  : option nat → list nat → Prop :=
| path_nil : path next fs None []
| path_cons a f l :
    fs !! a = Some f → path next fs (next f) l → path next fs (Some a) (a :: l).

(** The output node of the first fiber of [l] that has one *)
Fixpoint first_dom (fs : list fiber) (l : list nat) : option nat :=
  match l with
  | [] => None
  | a :: l' =>
      match fs !! a with
      | Some f => match f_dom f with Some d => Some d | None => first_dom fs l' end
      | None => first_dom fs l'
      end
  end.

(** X7. nearestDom returns the output node of the nearest ancestor that
    has one, and null when no ancestor has one; the state stays as it
    is.  The fuel covers the ancestors of the fiber. *)
Theorem nearestDom_nearest (fuel a : nat) (st : state) (f : fiber) (l : list nat) :
  fibers st !! a = Some f → path f_parent (fibers st) (f_parent f) l →
  length l ≤ fuel →
  nearestDom fuel a st = (Val (first_dom (fibers st) l), st).
Proof.
  intros Hf Hpath Hfuel. unfold nearestDom.
  rewrite (bind_val _ _ _ _ _ (read_fiber_val _ _ _ Hf)).
  revert Hfuel. generalize fuel. clear Hf.
  induction Hpath as [|b fb l Hb Hl IH]; intros n Hn.
  - by destruct n.
  - destruct n as [|n]; [simpl in Hn; lia|]. cbn [nearestDom_loop first_dom].
    rewrite (bind_val _ _ _ _ _ (read_fiber_val _ _ _ Hb)), Hb.
    destruct (f_dom fb) as [d|]; [done|]. apply IH. simpl in Hn. lia.
Qed.

Lemma nearestDom_nearest_witness :
  nearestDom 100 9 Board.before_commit
  = (Val (first_dom (fibers Board.before_commit) [7; 6; 5]), Board.before_commit).
Proof.
  eapply nearestDom_nearest.
  - vm_compute. reflexivity.
  - repeat (eapply path_cons; [vm_compute; reflexivity|]). vm_compute. apply path_nil.
  - vm_compute. lia.
Defined.

(** ** Deletion: the first-child chain *)

(** The state after the events [l] *)
Definition emit_all (l : list event) : M unit := modify (set_trace (λ t, t ++ l)).

Lemma set_trace_nil st : set_trace (λ t, t ++ []) st = st.
Proof. destruct st. unfold set_trace. cbn. by rewrite app_nil_r. Qed.

Lemma set_trace_app l1 l2 st :
  set_trace (λ t, t ++ l2) (set_trace (λ t, t ++ l1) st)
  = set_trace (λ t, t ++ (l1 ++ l2)) st.
Proof. destruct st. unfold set_trace. cbn. by rewrite app_assoc. Qed.

(** The cleanup that [hooks[hi]] holds, if it is a function *)
Definition hook_cleanups (hs : list hook) (h : option nat) : list event :=
  match h with
  | Some ha =>
      match hs !! ha with
      | Some hk => match hook_cleanup hk with VFun c => [EvCleanup c] | _ => [] end
      | None => []
      end
  | None => []
  end.

Definition fiber_cleanups (fs : list fiber) (hs : list hook) (a : nat) : list event :=
  match fs !! a with
  | Some f => flat_map (hook_cleanups hs) (default [] (f_hooks f))
  | None => []
  end.

(** The hook objects of the fiber at [a] exist. *)
Definition hooks_valid (fs : list fiber) (hs : list hook) (a : nat) : Prop :=
  ∀ f ha, fs !! a = Some f → Some ha ∈ default [] (f_hooks f) → is_Some (hs !! ha).

Lemma for_each_run_hook_cleanup (l : list (option nat)) :
  ∀ st, (∀ ha, Some ha ∈ l → is_Some (hooks st !! ha)) →
        for_each l run_hook_cleanup st
        = (Val (), set_trace (λ t, t ++ flat_map (hook_cleanups (hooks st)) l) st).
Proof.
  induction l as [|h l IH]; intros st Hv; cbn [for_each flat_map].
  - by rewrite set_trace_nil.
  - assert (run_hook_cleanup h st
            = (Val (), set_trace (λ t, t ++ hook_cleanups (hooks st) h) st)) as E.
    { destruct h as [ha|]; cbn; [|by rewrite set_trace_nil].
      destruct (Hv ha) as [hk Hk]; [apply elem_of_cons; by left|].
      unfold bind, read_hook. rewrite Hk.
      destruct (hook_cleanup hk); try (by rewrite set_trace_nil). done. }
    rewrite (bind_val _ _ _ _ _ E), IH.
    + by rewrite set_trace_app.
    + intros ha Hin. apply Hv. apply elem_of_cons. by right.
Qed.

Lemma cleanupEffectTree_loop_path (n : nat) (o : option nat) (l : list nat) :
  ∀ st, path f_child (fibers st) o l → length l ≤ n →
        (∀ a, a ∈ l → hooks_valid (fibers st) (hooks st) a) →
        cleanupEffectTree_loop n o st
        = (Val (), set_trace
                     (λ t, t ++ flat_map (fiber_cleanups (fibers st) (hooks st)) l) st).
Proof.
  revert o l. induction n as [|n IH]; intros o l st Hp Hn Hv.
  - destruct l; [|simpl in Hn; lia]. inversion Hp. cbn. by rewrite set_trace_nil.
  - inversion Hp as [|a f l' Hf Hl]; subst; [cbn; by rewrite set_trace_nil|].
    cbn [cleanupEffectTree_loop flat_map].
    rewrite (bind_val _ _ _ _ _ (read_fiber_val _ _ _ Hf)).
    assert ((match f_hooks f with
             | Some hs => for_each hs run_hook_cleanup
             | None => ret ()
             end) st
            = (Val (), set_trace
                         (λ t, t ++ fiber_cleanups (fibers st) (hooks st) a) st)) as E.
    { unfold fiber_cleanups. rewrite Hf. destruct (f_hooks f) as [hs|] eqn:Hhs; cbn.
      - apply for_each_run_hook_cleanup. intros ha Hin.
        apply (Hv a (ltac:(apply elem_of_cons; by left)) f ha Hf). by rewrite Hhs.
      - by rewrite set_trace_nil. }
    rewrite (bind_val _ _ _ _ _ E), IH with (l := l').
    + by rewrite set_trace_app.
    + done.
    + simpl in Hn. lia.
    + intros b Hb. apply Hv. apply elem_of_cons. by right.
Qed.

Lemma removeFiberDom_loop_path (n : nat) (o : option nat) (l : list nat)
    (p : option nat) (st : state) :
  path f_child (fibers st) o l → length l ≤ n →
  removeFiberDom_loop n o p st
  = match p, first_dom (fibers st) l with
    | Some pn, Some d => removeChild pn d st
    | _, _ => (Val (), st)
    end.
Proof.
  revert o l. induction n as [|n IH]; intros o l Hp Hn.
  - destruct l; [|simpl in Hn; lia]. inversion Hp. cbn. by destruct p.
  - inversion Hp as [|a f l' Hf Hl]; subst; [cbn; by destruct p|].
    cbn [removeFiberDom_loop first_dom].
    rewrite (bind_val _ _ _ _ _ (read_fiber_val _ _ _ Hf)), Hf.
    destruct (f_dom f) as [d|]; [by destruct p|]. apply IH; [done|]. simpl in Hn. lia.
Qed.

(** [hooks_valid], computed *)
Definition hooks_valid_b (fs : list fiber) (hs : list hook) (a : nat) : bool :=
  match fs !! a with
  | Some f =>
      forallb (λ h, match h with
                    | Some ha => bool_decide (ha < length hs)
                    | None => true
                    end) (default [] (f_hooks f))
  | None => true
  end.

Lemma hooks_valid_b_sound fs hs a : hooks_valid_b fs hs a = true → hooks_valid fs hs a.
Proof.
  unfold hooks_valid_b, hooks_valid. intros H f ha Hf Hin. rewrite Hf in H.
  rewrite forallb_forall in H. apply list_elem_of_In, H in Hin.
  apply lookup_lt_is_Some_2. by apply bool_decide_eq_true in Hin.
Qed.

Lemma removeChild_stores pn d st r st1 :
  removeChild pn d st = (r, st1) → fibers st1 = fibers st ∧ hooks st1 = hooks st.
Proof.
  unfold removeChild, bind, read_node.
  destruct (nodes st !! pn) as [nd|]; [|by intros [= _ <-]].
  case_decide; by intros [= _ <-].
Qed.

(** X8. commitDeletion works on the first-child chain of the deleted
    fiber and on nothing else: it removes from the parent node the output
    node of the first fiber of the chain that has one (nothing without a
    parent node or without such a fiber), then calls the cleanups that
    the hooks of the fibers of the chain hold, from the top down, each
    once.  The hooks of a sibling of a fiber of the chain are not looked
    at, and when removeChild throws no cleanup is called.  The fuel
    covers the chain. *)
Theorem commitDeletion_first_child_chain (fuel a : nat) (p : option nat) (st : state)
    (l : list nat) :
  path f_child (fibers st) (Some a) l → length l ≤ fuel →
  Forall (hooks_valid (fibers st) (hooks st)) l →
  commitDeletion fuel a p st
  = (let* _ := match p, first_dom (fibers st) l with
               | Some pn, Some d => removeChild pn d
               | _, _ => ret ()
               end in
     emit_all (flat_map (fiber_cleanups (fibers st) (hooks st)) l)) st.
Proof.
  intros Hp Hn Hv. rewrite Forall_forall in Hv.
  unfold commitDeletion, removeFiberDom, cleanupEffectTree.
  pose proof (removeFiberDom_loop_path fuel (Some a) l p st Hp Hn) as E.
  assert (∀ st1, fibers st1 = fibers st → hooks st1 = hooks st →
                 cleanupEffectTree_loop fuel (Some a) st1
                 = emit_all (flat_map (fiber_cleanups (fibers st) (hooks st)) l) st1)
    as Hclean.
  { intros st1 Hfs Hhs. rewrite <- Hfs, <- Hhs.
    apply cleanupEffectTree_loop_path; rewrite ?Hfs, ?Hhs; done. }
  destruct p as [pn|], (first_dom (fibers st) l) as [d|];
    try (rewrite (bind_val _ _ _ _ _ E); unfold bind, ret; by apply Hclean).
  destruct (removeChild pn d st) as [[[]|e] st1] eqn:Er.
  - rewrite (bind_val _ _ _ _ _ E). unfold bind at 1. rewrite Er.
    destruct (removeChild_stores _ _ _ _ _ Er). by apply Hclean.
  - rewrite (bind_exn _ _ _ _ _ E). unfold bind. by rewrite Er.
Qed.

Module Unmount.
Definition before_commit : state :=
  run (work_units 100 Panel.fns Panel.components (plenty 20))
    (after 100 Panel.fns Panel.components
       [Render (createElement (Host "div") [] [createElement (Comp 0) [] []]) 0;
        Idle (plenty 20);
        Render (createElement (Host "div") [] []) 0]
       (initial_state page)).
End Unmount.

Lemma commitDeletion_first_child_chain_witness :
  commitDeletion 100 2 (Some 1) Unmount.before_commit
  = (let* _ := match Some 1, first_dom (fibers Unmount.before_commit) [2; 3; 5] with
               | Some pn, Some d => removeChild pn d
               | _, _ => ret ()
               end in
     emit_all (flat_map (fiber_cleanups (fibers Unmount.before_commit)
                           (hooks Unmount.before_commit)) [2; 3; 5]))
      Unmount.before_commit.
Proof.
  apply (commitDeletion_first_child_chain 100 2 (Some 1) Unmount.before_commit [2; 3; 5]).
  - repeat (eapply path_cons; [vm_compute; reflexivity|]). vm_compute. apply path_nil.
  - vm_compute. lia.
  - repeat constructor; apply hooks_valid_b_sound; vm_compute; reflexivity.
Defined.

(** ** Children: what createElement and flattenChildren build *)

(** A child that needs no more flattening: a description or another
    object, not null. *)
Definition plain_child (c : child) : Prop :=
  match c with
  | CElem _ _ _ => True
  | CVal v => typeof v = TObject ∧ v ≠ VNull
  | CArr _ => False
  end.

Lemma contribution_plain : ∀ c, Forall plain_child (contribution c).
Proof.
  fix IH 1. intros [v|items|t a ch]; cbn [contribution].
  - destruct (dropped (CVal v)) eqn:Hd; [constructor|].
    repeat constructor. unfold text_or_object, child_is_object.
    case_bool_decide as Hty; [|done]. split; [done|]. by intros ->.
  - induction items as [|c items IHitems]; simpl; [constructor|].
    apply Forall_app. split; [apply IH | apply IHitems].
  - repeat constructor.
Qed.

Lemma contribution_kept : ∀ c, contribution c = text_or_object <$> kept c.
Proof.
  fix IH 1. intros [v|items|t a ch]; cbn [contribution kept].
  - by destruct (dropped (CVal v)).
  - cbn [dropped]. induction items as [|c items IHitems]; cbn [flat_map]; [done|].
    by rewrite fmap_app, <- IH, <- IHitems.
  - done.
Qed.

Lemma kept_flat : ∀ c, Forall (λ x, dropped x = false ∧ ∀ l, x ≠ CArr l) (kept c).
Proof.
  fix IH 1. intros [v|items|t a ch]; cbn [kept].
  - destruct (dropped (CVal v)) eqn:Hd; [constructor|]. by repeat constructor.
  - induction items as [|c items IHitems]; simpl; [constructor|].
    apply Forall_app. split; [apply IH | apply IHitems].
  - by repeat constructor.
Qed.

Lemma kept_of_flat (l : list child) :
  Forall (λ x, dropped x = false ∧ ∀ l', x ≠ CArr l') l → flat_map kept l = l.
Proof.
  induction 1 as [|x l [Hd Harr] _ IH]; [done|]. simpl. rewrite IH.
  destruct x as [v|items|t a ch]; [|by destruct (Harr items)|done].
  cbn [kept]. by rewrite Hd.
Qed.

Lemma createElement_plain (type : etype) (attrs : list (string * value))
    (args : list child) :
  ∃ cs, createElement type attrs args = CElem type (alist_del "children" attrs) cs
        ∧ Forall plain_child cs.
Proof.
  rewrite createElement_children. eexists. split; [done|].
  induction args as [|x xs IH]; simpl; [constructor|].
  apply Forall_app. split; [apply contribution_plain | apply IH].
Qed.

(** What becomes of one argument of createElement, case by case:
    nothing of null, undefined and false; of an array what becomes of its
    items, in order; a description or another object is stored as it is;
    a string, a number, [true] and NaN are stored as the text description
    of their text.  (The text of a function is its source, which the
    model does not have: functions are not among the arguments that
    [text_known] admits.) *)
Fixpoint stored (c : child) : list child :=
  match c with
  | CVal VNull | CVal VUndefined | CVal (VBool false) => []
  | CArr items => flat_map stored items
  | CElem _ _ _ => [c]
  | CVal (VObj _) | CVal (VRefBox _) | CVal (VNode _) => [c]
  | CVal (VStr s) => [createTextElement s]
  | CVal (VNum n) => [createTextElement (pretty n)]
  | CVal (VBool true) => [createTextElement "true"]
  | CVal VNaN => [createTextElement "NaN"]
  | CVal (VFun _) => []
  end.

(** The arguments whose text is known: no function, and numbers below
    10^21 in absolute value, at any depth *)
Fixpoint text_known (c : child) : bool :=
  match c with
  | CVal (VFun _) => false
  | CVal (VNum n) => (Z.abs n <? 10 ^ 21)%Z
  | CVal _ => true
  | CArr items => forallb text_known items
  | CElem _ _ _ => true
  end.

Lemma contribution_stored : ∀ c, text_known c = true → contribution c = stored c.
Proof.
  fix IH 1. intros [v|items|t a ch] Hc.
  - by destruct v as [| |[]| | | | | | |].
  - cbn [contribution dropped stored]. cbn [text_known] in Hc.
    induction items as [|c items IHitems]; [done|].
    cbn [forallb] in Hc. apply andb_prop in Hc as [Hc Hitems].
    cbn [flat_map]. by rewrite IH, IHitems.
  - done.
Qed.

(** X9. The children that createElement stores, for arguments whose text
    is known: what [stored] says of each argument, one after the other:
    arrays are spliced in at any depth, null, undefined and false are
    left out, a description or another object is stored as it is and
    every other value as the text description of its text, so that each
    stored child is a description or another object and never an array, a
    string or a number; the property [children] of the given props is
    replaced by them. *)
Theorem createElement_children_plain (type : etype) (attrs : list (string * value))
    (args : list child) :
  Forall (λ c, text_known c = true) args →
  createElement type attrs args
  = CElem type (alist_del "children" attrs) (flat_map stored args)
  ∧ Forall plain_child (flat_map stored args).
Proof.
  intros Hargs.
  assert (flat_map contribution args = flat_map stored args) as E.
  { induction Hargs as [|c args Hc _ IH]; [done|].
    cbn [flat_map]. by rewrite contribution_stored, IH. }
  destruct (createElement_plain type attrs args) as (cs & Hel & Hplain).
  rewrite createElement_children in Hel. injection Hel as <-.
  rewrite createElement_children, <- E. done.
Qed.

(** A heading with a text, a list that holds a number, null and an
    emphasis, and false *)
Lemma createElement_children_plain_witness :
  createElement (Host "h1") [("children", VStr "x")]
    [CVal (VStr "Total: ");
     CArr [CVal (VNum 3); CVal VNull; CArr [CElem (Host "em") [] []]];
     CVal (VBool false)]
  = CElem (Host "h1") []
      [createTextElement "Total: "; createTextElement "3"; CElem (Host "em") [] []]
  ∧ Forall plain_child
      [createTextElement "Total: "; createTextElement "3"; CElem (Host "em") [] []].
Proof.
  apply (createElement_children_plain (Host "h1") [("children", VStr "x")]
           [CVal (VStr "Total: ");
            CArr [CVal (VNum 3); CVal VNull; CArr [CElem (Host "em") [] []]];
            CVal (VBool false)]).
  repeat constructor.
Defined.

(** X10. flattenChildren drops null, undefined and false and splices
    arrays in, so that its result holds neither, and flattening the result
    again changes nothing; unlike createElement it leaves a string or a
    number as it is: the children createElement stores for an argument are
    the values flattenChildren returns for it, each one that is not an
    object turned into a text description. *)
Theorem flattenChildren_flat (output : child) :
  Forall (λ x, dropped x = false ∧ ∀ l, x ≠ CArr l) (flattenChildren output)
  ∧ flattenChildren (CArr (flattenChildren output)) = flattenChildren output
  ∧ (∀ type attrs,
       createElement type attrs [output]
       = CElem type (alist_del "children" attrs)
           (text_or_object <$> flattenChildren output)).
Proof.
  rewrite !flattenChildren_kept. split_and!.
  - apply kept_flat.
  - cbn [kept dropped]. apply kept_of_flat, kept_flat.
  - intros type attrs. rewrite createElement_children. cbn [flat_map].
    by rewrite app_nil_r, contribution_kept.
Qed.

(** ** The next unit of work *)

(** The sibling of the first fiber of [l] that has one *)
Fixpoint first_sibling (fs : list fiber) (l : list nat) : option nat :=
  match l with
  | [] => None
  | a :: l' =>
      match fs !! a with
      | Some f => match f_sibling f with Some s => Some s | None => first_sibling fs l' end
      | None => first_sibling fs l'
      end
  end.

(** X11. The walk of performUnit from a fiber without a child: the next
    unit is the sibling of the nearest fiber that has one, starting with
    the fiber itself and going up through its ancestors, and null when
    none has one, which ends the pass; the state stays as it is.  The
    fuel covers the fiber and its ancestors. *)
Theorem next_up_nearest_sibling (fuel a : nat) (st : state) (l : list nat) :
  path f_parent (fibers st) (Some a) l → length l ≤ fuel →
  next_up fuel (Some a) st = (Val (first_sibling (fibers st) l), st).
Proof.
  generalize (Some a). clear a. intros o Hpath. revert fuel.
  induction Hpath as [|b fb l Hb Hl IH]; intros n Hn.
  - by destruct n.
  - destruct n as [|n]; [simpl in Hn; lia|]. cbn [next_up first_sibling].
    rewrite (bind_val _ _ _ _ _ (read_fiber_val _ _ _ Hb)), Hb.
    destruct (f_sibling fb) as [s|]; [done|]. apply IH. simpl in Hn. lia.
Qed.

Lemma next_up_nearest_sibling_witness :
  next_up 100 (Some 9) Board.before_commit
  = (Val (first_sibling (fibers Board.before_commit) [9; 7; 6; 5]), Board.before_commit).
Proof.
  apply next_up_nearest_sibling.
  - repeat (eapply path_cons; [vm_compute; reflexivity|]). vm_compute. apply path_nil.
  - vm_compute. lia.
Defined.

(** ** useRef *)

Section ref_facts.
Variable apply_fn : nat → value → value.

(** X13. useRef returns the same object on every render: when the
    previous render of the component left a hook object at this index,
    that object is returned and kept as the hook of this render, no object
    is made and what [current] holds is not touched, whatever [initial]
    is; on the first render a new object is made, whose [current] is the
    initial value. *)
Theorem useRef_same_object (initial : value) (st : state) (w : nat) (wf : fiber)
    (whs : list (option nat)) :
  rendering st w wf whs →
  (∀ h hk, previous_hook st wf h hk →
           useRef apply_fn initial st = (Val (VRefBox h), pushed w whs h st))
  ∧ (no_previous_hook st wf →
     useRef apply_fn initial st
     = (Val (VRefBox (length (hooks st))),
        pushed w whs (length (hooks st))
          (set_boxes (box_set (VRefBox (length (hooks st))) (init_value apply_fn initial))
             (set_hooks (λ l, l ++ [HRef]) st)))).
Proof.
  intros Hr. split.
  - intros h hk Hp. unfold useRef.
    rewrite (bind_val _ _ _ _ _ (old_hook_some _ _ _ _ _ _ Hr Hp)).
    unfold bind, ret. by rewrite (push_hook_eq _ _ _ _ _ Hr).
  - intros Hp. unfold useRef.
    rewrite (bind_val _ _ _ _ _ (old_hook_none _ _ _ _ Hr Hp)).
    unfold bind, ret, new_hook, modify.
    erewrite push_hook_eq; [reflexivity|].
    destruct Hr as (? & ? & ?). split_and!; cbn; eauto.
Qed.

End ref_facts.

(** A component that was rendered once with a reference whose [current]
    is now 5, and is being rendered again *)
Module Refs.
Definition wf : fiber :=
  Fiber (Some (Comp 0)) (Some (Props [] [])) None None None None (Some 0)
    (Some UPDATE) (Some []) None None None.

Definition in_render : state :=
  State
    [Fiber (Some (Comp 0)) (Some (Props [] [])) None None None None None
       (Some PLACEMENT) (Some [Some 0]) None None None;
     wf]
    [HRef] [] page [(VRefBox 0, VNum 5)]
    None None None [] (Some 1) 0 [] false 0 [].
End Refs.

Lemma useRef_same_object_witness :
  useRef Listing.fns (VNum 7) Refs.in_render
  = (Val (VRefBox 0), pushed 1 [] 0 Refs.in_render).
Proof.
  refine (proj1 (useRef_same_object Listing.fns (VNum 7) Refs.in_render 1 Refs.wf [] _)
            0 HRef _).
  - split_and!; reflexivity.
  - eexists 0, _, _. split_and!; reflexivity.
Defined.

(** ** What the commit leaves alone *)

(** The module variables and stores that the commit does not write: the
    next unit of work, the list of deletions, the cells of the state
    hooks, the scheduler flag and the idle requests, and the fiber and
    index of the hooks being rendered *)
Definition commit_frame (st : state)
    : option nat * list nat * list cell * bool * nat * option nat * nat :=
  (nextUnit st, deletions st, cells st, scheduled st, idle_requests st,
   wipFiber st, hookIdx st).

Definition same_frame (st st' : state) : Prop := commit_frame st' = commit_frame st.

Global Instance same_frame_refl : Reflexive same_frame.
Proof. intros st. by unfold same_frame. Qed.

Global Instance same_frame_trans : Transitive same_frame.
Proof. intros a b c H1 H2. unfold same_frame in *. congruence. Qed.

Create HintDb frame.

Ltac frame_step :=
  first
    [ lazymatch goal with
      | |- Reflexive _ => apply _
      | |- Transitive _ => apply _
      end
    | solve [auto with frame]
    | apply keeps_ret | apply keeps_throw | apply keeps_get
    | apply keeps_read_fiber | apply keeps_read_hook
    | apply keeps_read_cell | apply keeps_read_node
    | apply keeps_modify; intros ?; reflexivity
    | lazymatch goal with
      | |- keeps _ (for_each _ _) =>
          refine (keeps_for_each _ _ _ _); intros ?; cbv beta
      end
    | lazymatch goal with
      | |- keeps _ (bind _ _) => refine (keeps_bind _ _ _ _ _); [|intros ?; cbv beta]
      end
    | match goal with
      | |- keeps _ (match ?x with _ => _ end) => destruct x
      | |- keeps _ (let (_, _) := ?x in _) => destruct x
      end ].

Ltac frame := repeat frame_step.

Lemma frame_emit e : keeps same_frame (emit e).
Proof. unfold emit. frame. Qed.
Lemma frame_write_node a g : keeps same_frame (write_node a g).
Proof. unfold write_node. frame. Qed.
Lemma frame_write_fiber a g : keeps same_frame (write_fiber a g).
Proof. unfold write_fiber. frame. Qed.
#[global] Hint Resolve frame_emit frame_write_node frame_write_fiber : frame.

Lemma frame_appendChild p c : keeps same_frame (appendChild p c).
Proof. unfold appendChild. frame. Qed.
Lemma frame_removeChild p c : keeps same_frame (removeChild p c).
Proof. unfold removeChild. frame. Qed.
Lemma frame_patchDom_at d prev next : keeps same_frame (patchDom_at d prev next).
Proof. unfold patchDom_at. frame. Qed.
Lemma frame_wire_ref p d : keeps same_frame (wire_ref p d).
Proof. unfold wire_ref. frame. Qed.
Lemma frame_flushFiberEffects a : keeps same_frame (flushFiberEffects a).
Proof. unfold flushFiberEffects. frame. Qed.
#[global] Hint Resolve frame_appendChild frame_removeChild frame_patchDom_at
  frame_wire_ref frame_flushFiberEffects : frame.

Lemma frame_nearestDom_loop n f : keeps same_frame (nearestDom_loop n f).
Proof. revert f. induction n as [|n IH]; intros [a|]; simpl; frame. Qed.
Lemma frame_removeFiberDom_loop n f p : keeps same_frame (removeFiberDom_loop n f p).
Proof. revert f. induction n as [|n IH]; intros [a|]; simpl; frame. Qed.
Lemma frame_run_hook_cleanup h : keeps same_frame (run_hook_cleanup h).
Proof. unfold run_hook_cleanup. frame. Qed.
#[global] Hint Resolve frame_nearestDom_loop frame_removeFiberDom_loop
  frame_run_hook_cleanup : frame.

Lemma frame_cleanupEffectTree_loop n f : keeps same_frame (cleanupEffectTree_loop n f).
Proof. revert f. induction n as [|n IH]; intros [a|]; simpl; frame. Qed.
#[global] Hint Resolve frame_cleanupEffectTree_loop : frame.

Lemma frame_commit_fiber fuel a p : keeps same_frame (commit_fiber fuel a p).
Proof.
  unfold commit_fiber, commitDeletion, removeFiberDom, cleanupEffectTree. frame.
Qed.
#[global] Hint Resolve frame_commit_fiber : frame.

Lemma frame_commitWork_loop fuel n stack : keeps same_frame (commitWork_loop fuel n stack).
Proof. revert stack. induction n as [|n IH]; intros [|[a p] stack]; simpl; frame. Qed.
#[global] Hint Resolve frame_commitWork_loop : frame.

Lemma frame_run_effect apply_fn item : keeps same_frame (run_effect apply_fn item).
Proof. unfold run_effect. frame. Qed.
#[global] Hint Resolve frame_run_effect : frame.

Lemma frame_commitRoot fuel apply_fn : keeps same_frame (commitRoot fuel apply_fn).
Proof. unfold commitRoot, nearestDom, commitWork. frame. Qed.

(** X12. The code of commitRoot itself, whether it returns or throws,
    writes neither the next unit of work, nor the list of deletions
    (which is emptied by the next render or update, not by the commit),
    nor the queues of the state hooks, nor the scheduler flag and the idle
    requests: with effects and cleanups that do not call render or a
    dispatch function, these are after the commit what they were before
    it. *)
Theorem commitRoot_frame (fuel : nat) (apply_fn : nat → value → value) (st : state) :
  commit_frame (commitRoot fuel apply_fn st).2 = commit_frame st.
Proof. apply frame_commitRoot. Qed.

Lemma effects_ran_pending apply_fn (items : list effect_item) :
  ∀ st, pendingEffects (fold_left (effect_ran apply_fn) items st) = pendingEffects st.
Proof. induction items as [|item items IH]; intros st; cbn; [done | by rewrite IH]. Qed.

Lemma commitRoot_roots fuel apply_fn st st' :
  commitRoot fuel apply_fn st = (Val (), st') →
  wipRoot st' = None ∧ curRoot st' = wipRoot st ∧ pendingEffects st' = [].
Proof.
  intros H. unfold commitRoot in H.
  apply bind_inv_val in H as (st0 & s0 & E0 & H). injection E0 as <- <-.
  apply bind_inv_val in H as ([] & s1 & _ & H).
  apply bind_inv_val in H as (w & s2 & Ew & H).
  apply bind_inv_val in H as (wf & s3 & _ & H).
  apply bind_inv_val in H as ([] & s4 & _ & H).
  destruct (wipRoot st) as [w'|]; [|done]. injection Ew as -> _.
  unfold bind, modify, emit, modify, get in H. cbn in H.
  rewrite for_each_run_effect in H. injection H as <-.
  rewrite effects_ran_pending.
  by destruct (effects_ran_same apply_fn (pendingEffects s4)
                 (set_pendingEffects (λ _, [])
                    (set_wipRoot None
                       (set_trace (λ t, t ++ [EvSwap w]) (set_curRoot (Some w) s4)))))
    as (-> & -> & _).
Qed.

(** X14. What the idle callback leaves behind.  When workLoop returns
    with a unit of work left, the scheduler flag is set, so that a
    callback is pending for it; when it returns with no unit left, the
    tree that was in progress has been committed and there is no
    work-in-progress root; when a component or the commit throws, the
    scheduler flag is clear: no callback is asked for, and the work stays
    where it was until the next render or update.  This is for user code
    as the model has it: components, effects and cleanups that do not
    call render or a dispatch function while they run, and effects and
    cleanups that do not throw. *)
Theorem workLoop_outcome (fuel : nat) (apply_fn : nat → value → value)
    (component : nat → option props → comp) (deadline : list Z) (st : state) :
  match workLoop fuel apply_fn component deadline st with
  | (Val _, st') =>
      (is_Some (nextUnit st') → scheduled st' = true)
      ∧ (nextUnit st' = None → wipRoot st' = None ∧ scheduled st' = false)
  | (Exn _, st') => scheduled st' = false
  end.
Proof.
  unfold workLoop. unfold bind at 1, modify at 1.
  set (st0 := set_scheduled false st).
  unfold bind at 1.
  destruct (work_units fuel apply_fn component deadline st0) as [[[]|e] st1] eqn:E1;
    apply (keeps_result _ _ _ _ _ (sched_work_units _ _ _ _)) in E1 as [E1 _];
    [|done].
  unfold bind at 1, get at 1. unfold bind at 1.
  destruct ((match nextUnit st1, wipRoot st1 with
             | None, Some _ => commitRoot fuel apply_fn
             | _, _ => ret ()
             end) st1) as [r st2] eqn:E2.
  assert (scheduled st2 = false ∧ nextUnit st2 = nextUnit st1
          ∧ (r = Val () → nextUnit st1 = None → wipRoot st2 = None))
    as (Hs & Hn & Hw).
  { destruct (nextUnit st1) as [u|] eqn:Hu.
    { injection E2 as <- <-. by rewrite E1. }
    destruct (wipRoot st1) as [w|] eqn:Hw.
    2:{ injection E2 as <- <-. by rewrite E1. }
    pose proof (keeps_result _ _ _ _ _ (sched_commitRoot fuel apply_fn) E2) as [Hs _].
    pose proof (keeps_result _ _ _ _ _ (frame_commitRoot fuel apply_fn) E2) as Hf.
    unfold same_frame, commit_frame in Hf. injection Hf as Hn _.
    split_and!; [by rewrite Hs, E1 | congruence|].
    intros -> _. by destruct (commitRoot_roots _ _ _ _ E2). }
  destruct r as [[]|e]; [|done].
  unfold bind, get. destruct (nextUnit st2) as [u|] eqn:Hu.
  - rewrite scheduleWork_idle by done. cbn. split; [done|]. by rewrite Hu.
  - unfold ret. rewrite Hu. split; [by intros [? ?]|]. intros _. split; [|done].
    apply Hw; [done | congruence].
Qed.

(** ** An update after the first commit *)

(** X15. A dispatch call made when a tree has been committed puts its
    action last in the queue of its cell and starts a pass from the
    root: a new root fiber with the output node and the props of the
    current root, and the current root as its alternate, becomes both the
    work-in-progress root and the next unit of work, whatever they were,
    so that a pass in progress is given up; the list of deletions is
    emptied; and a callback is pending afterwards. *)
Theorem dispatch_after_commit (st : state) (c r : nat) (cl : cell) (rf : fiber)
    (action : value) :
  curRoot st = Some r → fibers st !! r = Some rf → cells st !! c = Some cl →
  ∃ st', dispatch c action st = (Val (), st')
    ∧ fibers st' = fibers st ++ [root_fiber (f_dom rf) (f_props rf) (Some r)]
    ∧ wipRoot st' = Some (length (fibers st))
    ∧ nextUnit st' = Some (length (fibers st))
    ∧ deletions st' = []
    ∧ queue <$> cells st' !! c = Some (queue cl ++ [action])
    ∧ curRoot st' = Some r
    ∧ scheduled st' = true
    ∧ idle_requests st' = (if scheduled st then idle_requests st
                           else S (idle_requests st)).
Proof.
  intros Hr Hrf Hc.
  unfold dispatch, scheduleUpdate, scheduleWork, ric_workLoop, bind, read_cell,
    write_cell, read_fiber, new_fiber, modify, get.
  rewrite Hc. cbn. rewrite Hr. cbn. rewrite Hrf. cbn.
  destruct (scheduled st) eqn:Hs; cbn; eexists; (split; [reflexivity|]); cbn;
    rewrite list_lookup_alter_eq, Hc, ?Hs; done.
Qed.

Lemma dispatch_after_commit_witness :
  ∃ st', dispatch 0 Counter.inc
           (after 100 Counter.fns Counter.components Counter.history (initial_state page))
         = (Val (), st')
         ∧ deletions st' = [].
Proof.
  edestruct (dispatch_after_commit
               (after 100 Counter.fns Counter.components Counter.history
                  (initial_state page)) 0) as (st' & E & _ & _ & _ & Hd & _).
  - vm_compute. reflexivity.
  - vm_compute. reflexivity.
  - vm_compute. reflexivity.
  - exists st'. split; [exact E | exact Hd].
Defined.

(** ** Context: the Provider component *)

(** What [ctx.Provider] returns: [children[0] || null] *)
Definition provider_output (p : props) : child :=
  match p_children p with
  | c :: _ => if el_truthy c then c else CVal VNull
  | [] => CVal VNull
  end.

(** The function [ctx.Provider] of the context [id], called on [props] *)
Definition ProviderComponent (id : nat) (p : props) : comp :=
  Provide id (prop "value" p) (Return (provider_output p)).

(** The context map of a Provider fiber after its unit of work:
    [Object.assign({}, fiber.contextMap, fiber._ctxProvide)] *)
Definition provided (id : nat) (p : props) (f : fiber) : gmap nat value :=
  <[id := prop "value" p]> (default ∅ (f_contextMap f)).

(** The state in which the Provider fiber at [a] reconciles its output *)
Definition provider_pre (a id : nat) (p : props) (f : fiber) (st : state) : state :=
  set_fibers
    (alter (λ _, set_f_contextMap (Some (provided id p f))
                   (set_f_ctxProvide None (set_f_hooks (Some []) f))) a)
    (set_hookIdx 0 (set_wipFiber (Some a) st)).

Lemma updateFunctionComponent_provider fuel apply_fn component a c id st f q :
  fibers st !! a = Some f → f_props f = Some q →
  component c (Some q) = ProviderComponent id q →
  updateFunctionComponent fuel apply_fn component a c st
  = reconcileChildren fuel a (flattenChildren (provider_output q))
      (provider_pre a id q f st).
Proof.
  intros Hf Hq Hc.
  unfold updateFunctionComponent, bind, modify, write_fiber, modify, read_fiber.
  cbn. rewrite list_lookup_alter_eq, Hf. cbn. rewrite Hq, Hc. cbn.
  unfold bind, provide, bind, get, write_fiber, modify. cbn.
  rewrite list_lookup_alter_eq, list_lookup_alter_eq, Hf. cbn.
  f_equal. unfold provider_pre, set_fibers. cbn. f_equal.
  apply list_eq. intros i. destruct (decide (i = a)) as [->|Hne].
  - rewrite !list_lookup_alter_eq, Hf. cbn. f_equal.
    unfold set_f_contextMap, set_f_ctxProvide, set_f_hooks, provided. cbn.
    f_equal. f_equal. rewrite insert_empty. symmetry. apply insert_union_singleton_l.
  - by rewrite !list_lookup_alter_ne.
Qed.

Lemma chain_alter (g : fiber → fiber) (a : nat) (f0 : fiber) fs o l :
  fs !! a = Some f0 → f_sibling (g f0) = f_sibling f0 →
  chain fs o l → chain (alter g a fs) o l.
Proof.
  intros Ha Hg. induction 1 as [|b f l Hb _ IH]; [constructor|].
  destruct (decide (b = a)) as [->|Hne].
  - eapply chain_cons; [by rewrite list_lookup_alter_eq, Hb|].
    assert (f = f0) as -> by congruence. by rewrite Hg.
  - eapply chain_cons; [by rewrite list_lookup_alter_ne|done].
Qed.

Lemma dropped_nullish c : dropped c = false → nullish_child c = false.
Proof. by destruct c as [[]| |]. Qed.

Lemma f_contextMap_child_if b c f : f_contextMap (child_if b c f) = f_contextMap f.
Proof. by destruct b, f. Qed.

Lemma f_contextMap_mark_if b f : f_contextMap (mark_if b f) = f_contextMap f.
Proof. by destruct b, f. Qed.

Lemma new_child_fields parent ctx el same b s :
  let nf := sibling_if b s (new_child parent ctx el same) in
  f_contextMap nf = ctx ∧ f_props nf = el_props el ∧ f_parent nf = Some parent.
Proof. unfold new_child. by destruct same as [[[? ?] ?]|], b. Qed.

(** X16. The unit of work of a Provider, for children with plain keys.
    The fiber of [ctx.Provider] gets as its context map the map it
    inherited with the value of its props written under the id of the
    context; what it hands to the reconciler is its first child only
    (nothing when that child is missing or falsy): the other children are
    not rendered; every child fiber made for the output has that same
    context map, and useContext for the context, called while a fiber
    with that map is rendered, returns the value and not the default. *)
Theorem Provider_provides (fuel : nat) (apply_fn : nat → value → value)
    (component : nat → option props → comp) (a c id : nat) (st : state)
    (f : fiber) (q : props) (o : option nat) (olds : list nat) :
  fibers st !! a = Some f → f_props f = Some q →
  component c (Some q) = ProviderComponent id q →
  old_child st f o → chain (fibers st) o olds → length olds < fuel →
  plain_keys (fibers st) olds (flattenChildren (provider_output q)) →
  ∃ st', updateFunctionComponent fuel apply_fn component a c st = (Val (), st')
    ∧ flattenChildren (provider_output q)
      = match p_children q with
        | first :: _ => if el_truthy first then flattenChildren first else []
        | [] => []
        end
    ∧ f_contextMap <$> fibers st' !! a = Some (Some (provided id q f))
    ∧ length (fibers st')
      = length (fibers st) + length (flattenChildren (provider_output q))
    ∧ (∀ j el, flattenChildren (provider_output q) !! j = Some el →
         ∃ nf, fibers st' !! (length (fibers st) + j) = Some nf
               ∧ f_contextMap nf = Some (provided id q f)
               ∧ f_props nf = el_props el ∧ f_parent nf = Some a)
    ∧ (∀ st2 w wf d, wipFiber st2 = Some w → fibers st2 !! w = Some wf →
         f_contextMap wf = Some (provided id q f) →
         useContext id d st2 = (Val (prop "value" q), st2)).
Proof.
  intros Hf Hq Hc Hold Hch Hfuel _.
  rewrite (updateFunctionComponent_provider _ _ _ _ _ _ _ _ _ Hf Hq Hc).
  set (f' := set_f_contextMap (Some (provided id q f))
               (set_f_ctxProvide None (set_f_hooks (Some []) f))).
  set (pre := provider_pre a id q f st).
  assert (fibers pre !! a = Some f') as Hf'.
  { unfold pre, provider_pre. cbn. by rewrite list_lookup_alter_eq, Hf. }
  assert (length (fibers pre) = length (fibers st)) as Hlen.
  { unfold pre, provider_pre. cbn. by rewrite length_alter. }
  assert (old_child pre f' o) as Hold'.
  { unfold old_child in *. change (f_alternate f') with (f_alternate f).
    destruct (f_alternate f) as [alt|]; [|done].
    destruct Hold as (af & Haf & ->). unfold pre, provider_pre. cbn.
    destruct (decide (alt = a)) as [->|Hne].
    - rewrite list_lookup_alter_eq, Hf. cbn. eexists. split; [done|].
      assert (af = f) as Heq by congruence. by rewrite Heq.
    - rewrite list_lookup_alter_ne by done. by exists af. }
  assert (chain (fibers pre) o olds) as Hch'.
  { unfold pre, provider_pre. cbn. by eapply chain_alter. }
  assert (Forall (λ el, nullish_child el = false) (flattenChildren (provider_output q)))
    as Hnn.
  { rewrite flattenChildren_kept. eapply Forall_impl; [apply kept_flat|].
    intros x [Hx _]. by apply dropped_nullish. }
  destruct (reconcileChildren_spec fuel a _ pre f' o olds Hf' Hold' Hch' Hfuel Hnn)
    as (st' & Hrun & R).
  exists st'. split_and!; [done|..].
  - unfold provider_output. destruct (p_children q) as [|first rest]; [done|].
    destruct (el_truthy first) eqn:Ht; [done|]. by destruct first as [[]| |].
  - rewrite (rc_old _ _ _ _ _ R a) by (rewrite Hlen; by eapply lookup_lt_Some).
    rewrite Hf'. cbn. by rewrite f_contextMap_child_if, f_contextMap_mark_if.
  - by rewrite (rc_length _ _ _ _ _ R), Hlen.
  - intros j el Hj. rewrite <- Hlen, (rc_new _ _ _ _ _ R j el Hj).
    eexists. split; [done|]. rewrite Hf'. cbn [fmap option_fmap option_map default].
    apply new_child_fields.
  - intros st2 w wf d Hw Hwf Hm. unfold useContext, bind, get. cbn. rewrite Hw.
    unfold read_fiber. rewrite Hwf, Hm. cbn. unfold provided.
    by rewrite lookup_insert_eq.
Qed.

(** A Provider of the context 7 with the value 42 around a span and an
    em; the root has been worked on, the next unit is the Provider. *)
Module Theme.
Definition components (c : nat) (p : option props) : comp :=
  match p with
  | Some q => ProviderComponent 7 q
  | None => Throw (VStr "props is undefined")
  end.

Definition q : props :=
  Props [("value", VNum 42)] [Listing.plain "span"; Listing.plain "em"].

Definition before_provider : state :=
  after 100 Listing.fns components
    [Render (createElement (Comp 0) [("value", VNum 42)]
               [Listing.plain "span"; Listing.plain "em"]) 0;
     Idle (plenty 1)]
    (initial_state page).
End Theme.

Lemma Provider_provides_witness :
  ∃ st', updateFunctionComponent 100 Listing.fns Theme.components 1 0
           Theme.before_provider = (Val (), st')
         ∧ length (fibers st')
           = length (fibers Theme.before_provider)
             + length (flattenChildren (provider_output Theme.q)).
Proof.
  epose proof (Provider_provides 100 Listing.fns Theme.components 1 0 7
                 Theme.before_provider _ Theme.q None []) as H.
  edestruct H as (st' & E & _ & _ & Hl & _); clear H.
  - vm_compute. reflexivity.
  - reflexivity.
  - reflexivity.
  - reflexivity.
  - constructor.
  - cbn. lia.
  - split; repeat (constructor; [vm_compute; reflexivity|]); constructor.
  - exists st'. split; [exact E | exact Hl].
Defined.

(** ** Context: the Consumer component, and Fragment *)

Section consumer.
Variable apply_fn : nat → value → value.

(** What a render function passed as child returns for a value *)
Variable render_prop : nat → value → child.

(** The function [ctx.Consumer] of the context [id] with default value
    [d], called on [props]: [fn] is [props.children[0]], and the output is
    [fn(val)] when [fn] is a function and null otherwise. *)
Definition ConsumerComponent (id : nat) (d : value) (p : props) : comp :=
  UseContext id d (λ val,
    Return (match p_children p with
            | CVal (VFun fn) :: _ => render_prop fn val
            | _ => CVal VNull
            end)).

Lemma plain_child_not_function (c : child) fn : plain_child c → c ≠ CVal (VFun fn).
Proof. intros H ->. by destruct H. Qed.

(** X17. A Consumer whose props were built by createElement renders
    null, whatever was passed as its child: createElement has turned a
    function child into a text description, so that the Consumer does not
    find a function to call. *)
Theorem Consumer_of_createElement (id : nat) (d : value) (type : etype)
    (attrs : list (string * value)) (args : list child) :
  ∃ q, el_props (createElement type attrs args) = Some q
       ∧ ∀ st, match run_comp apply_fn (ConsumerComponent id d q) st with
               | (Val r, st') => r = CVal VNull ∧ st' = st
               | (Exn e, _) => e = BadAddress
               end.
Proof.
  destruct (createElement_plain type attrs args) as (cs & Hel & Hplain).
  rewrite Hel. eexists. split; [done|]. intros st.
  unfold ConsumerComponent. cbn [run_comp p_children].
  assert (match cs with
          | CVal (VFun fn) :: _ => λ val, render_prop fn val
          | _ => λ _, CVal VNull
          end = λ _, CVal VNull) as Hout.
  { destruct cs as [|c cs]; [done|]. apply Forall_cons in Hplain as [Hc _].
    destruct c as [[]| |]; try done. by destruct Hc. }
  unfold bind, useContext, bind, get. cbn.
  destruct (wipFiber st) as [w|].
  - unfold read_fiber. destruct (fibers st !! w) as [wf|]; [|done].
    destruct (f_contextMap wf ≫= _); cbn; destruct cs as [|[[]| |] cs]; try done;
      apply Forall_cons in Hplain as [[? ?] _]; done.
  - cbn. destruct cs as [|[[]| |] cs]; try done.
    apply Forall_cons in Hplain as [[? ?] _]; done.
Qed.

End consumer.

(** What [Fragment] returns: [props.children] *)
Definition fragment_output (p : props) : child := CArr (p_children p).

(** X18. Fragment hands the children createElement stored for it to the
    reconciler as they are: flattening its output gives exactly the
    stored list, in order. *)
Theorem Fragment_children (type : etype) (attrs : list (string * value))
    (args : list child) :
  ∃ q, el_props (createElement type attrs args) = Some q
       ∧ flattenChildren (fragment_output q) = p_children q.
Proof.
  destruct (createElement_plain type attrs args) as (cs & Hel & Hplain).
  rewrite Hel. eexists. split; [done|]. cbn [p_children].
  unfold fragment_output. rewrite flattenChildren_kept. cbn [kept dropped p_children].
  apply kept_of_flat. eapply Forall_impl; [done|].
  intros [v| |] Hx; cbn in Hx; [|done|done].
  destruct Hx as [Hty Hv]. split; [by destruct v | done].
Qed.

(** * Section 3: the helpers of the template engine *)

(** ** escHtml *)

(** The characters of a string, in order *)
Definition chars : string → list ascii := String.list_ascii_of_string.

Definition dquote : ascii := "034"%char.

(** [_escRe]: the class of the ampersand, the two angle brackets, the
    double quote and the apostrophe *)
Definition _escRe (c : ascii) : bool :=
  bool_decide (c ∈ ["&"%char; "<"%char; ">"%char; dquote; "'"%char]).

(** [_escMap[c]]; [None] where the object has no such key *)
Definition _escMap (c : ascii) : option string :=
  if decide (c = "&"%char) then Some "&amp;"
  else if decide (c = "<"%char) then Some "&lt;"
  else if decide (c = ">"%char) then Some "&gt;"
  else if decide (c = dquote) then Some "&quot;"
  else if decide (c = "'"%char) then Some "&#39;"
  else None.

(** [s.replace(_escRe, function (c) { return _escMap[c]; })]: every match
    of the global pattern is one character; it is replaced by the result
    of the callback, printed as a string *)
Fixpoint replace_escRe (s : string) : string :=
  match s with
  | EmptyString => EmptyString
  | String c r =>
      if _escRe c
      then match _escMap c with
           | Some e => e
           | None => "undefined"
           end +:+ replace_escRe r
      else String c (replace_escRe r)
  end.

Definition escHtml (s : value) : string := replace_escRe (to_String s).

Lemma escRe_cases (c : ascii) :
  (_escRe c = false ∧ c ≠ "&"%char) ∨
  (c = "&"%char ∨ c = "<"%char ∨ c = ">"%char ∨ c = dquote ∨ c = "'"%char).
Proof.
  unfold _escRe. case_bool_decide as H.
  - right. set_solver.
  - left. split; [done|]. set_solver.
Qed.

Lemma append_cons c s t : String c s +:+ t = String c (s +:+ t).
Proof. reflexivity. Qed.

Lemma append_assoc s t u : (s +:+ t) +:+ u = s +:+ (t +:+ u).
Proof. induction s as [|c s IH]; [done|]. rewrite !append_cons. by f_equal. Qed.

Lemma chars_app s t : chars (s +:+ t) = chars s ++ chars t.
Proof.
  induction s as [|c s IH]; [done|]. rewrite append_cons. simpl. by f_equal.
Qed.

Lemma chars_inj s t : chars s = chars t → s = t.
Proof.
  intros H. rewrite <- (String.string_of_list_ascii_of_string s),
    <- (String.string_of_list_ascii_of_string t). unfold chars in H. by rewrite H.
Qed.

Lemma replace_escRe_app s t :
  replace_escRe (s +:+ t) = replace_escRe s +:+ replace_escRe t.
Proof.
  induction s as [|c s IH]; [done|]. rewrite append_cons. simpl.
  destruct (_escRe c); rewrite IH; [|done].
  by rewrite append_assoc.
Qed.

Definition html_special (c : ascii) : Prop :=
  c = "<"%char ∨ c = ">"%char ∨ c = dquote ∨ c = "'"%char.

Lemma replace_escRe_cons c s :
  (c = "&"%char ∧ replace_escRe (String c s) = "&amp;" +:+ replace_escRe s) ∨
  (c = "<"%char ∧ replace_escRe (String c s) = "&lt;" +:+ replace_escRe s) ∨
  (c = ">"%char ∧ replace_escRe (String c s) = "&gt;" +:+ replace_escRe s) ∨
  (c = dquote ∧ replace_escRe (String c s) = "&quot;" +:+ replace_escRe s) ∨
  (c = "'"%char ∧ replace_escRe (String c s) = "&#39;" +:+ replace_escRe s) ∨
  (_escRe c = false ∧ c ≠ "&"%char ∧ ¬ html_special c
   ∧ replace_escRe (String c s) = String c (replace_escRe s)).
Proof.
  simpl. unfold _escRe. case_bool_decide as H.
  - rewrite !elem_of_cons in H. destruct H as [->|[->|[->|[->|[->|H]]]]]; auto 10.
    by apply elem_of_nil in H.
  - do 5 right. rewrite !not_elem_of_cons in H. unfold html_special. naive_solver.
Qed.

Lemma replace_escRe_safe s : Forall (λ c, ¬ html_special c) (chars (replace_escRe s)).
Proof.
  induction s as [|c s IH]; [constructor|].
  destruct (replace_escRe_cons c s)
    as [[_ ->]|[[_ ->]|[[_ ->]|[[_ ->]|[[_ ->]|(_ & _ & Hc & ->)]]]]];
    rewrite ?chars_app; try (by constructor);
    (apply Forall_app; split; [|done]); cbn;
    repeat (constructor; [unfold html_special, dquote; intros [?|[?|[?|?]]]; discriminate|]);
    constructor.
Qed.

Lemma replace_escRe_inj s t : replace_escRe s = replace_escRe t → s = t.
Proof.
  revert t. induction s as [|a s IH]; intros [|b t] H; [done| | |].
  - exfalso.
    destruct (replace_escRe_cons b t)
      as [[_ E]|[[_ E]|[[_ E]|[[_ E]|[[_ E]|(_ & _ & _ & E)]]]]];
      rewrite E in H; discriminate H.
  - exfalso.
    destruct (replace_escRe_cons a s)
      as [[_ E]|[[_ E]|[[_ E]|[[_ E]|[[_ E]|(_ & _ & _ & E)]]]]];
      rewrite E in H; discriminate H.
  - destruct (replace_escRe_cons a s)
      as [[-> E]|[[-> E]|[[-> E]|[[-> E]|[[-> E]|(_ & Ha & Has & E)]]]]];
    destruct (replace_escRe_cons b t)
      as [[-> E']|[[-> E']|[[-> E']|[[-> E']|[[-> E']|(_ & Hb & Hbs & E')]]]]];
    rewrite E, E' in H; cbv [String.append] in H;
    try discriminate H;
    try (injection H as H; f_equal; by apply IH);
    try (injection H as -> H; f_equal; by apply IH);
    try (injection H as <- _; done);
    try (injection H as -> _; done).
Qed.

(** the strings the replacement leaves as they are *)
Definition plain_text (s : string) : Prop := Forall (λ c, _escRe c = false) (chars s).

Lemma replace_escRe_plain s : plain_text s → replace_escRe s = s.
Proof.
  unfold plain_text. induction s as [|c s IH]; [done|]. simpl.
  intros [Hc Hs]%Forall_cons. rewrite Hc. f_equal. by apply IH.
Qed.

Lemma replace_escRe_length s :
  (String.length s ≤ String.length (replace_escRe s))%nat.
Proof.
  induction s as [|c s IH]; [done|].
  destruct (replace_escRe_cons c s)
    as [[_ ->]|[[_ ->]|[[_ ->]|[[_ ->]|[[_ ->]|(_ & _ & _ & ->)]]]]];
    cbv [String.append]; simpl; lia.
Qed.

Lemma replace_escRe_fixed s : replace_escRe s = s → plain_text s.
Proof.
  unfold plain_text. induction s as [|c s IH]; [constructor|]. intros H.
  pose proof (replace_escRe_length s) as Hlen.
  destruct (replace_escRe_cons c s)
    as [[_ E]|[[_ E]|[[_ E]|[[_ E]|[[_ E]|(Hc & _ & _ & E)]]]]];
    rewrite E in H; cbv [String.append] in H.
  6: { injection H as H. constructor; [done|]. by apply IH. }
  all: apply (f_equal String.length) in H; simpl in H; lia.
Qed.

Lemma replace_escRe_plain_inv s : plain_text (replace_escRe s) → plain_text s.
Proof.
  unfold plain_text. induction s as [|c s IH]; [constructor|].
  destruct (replace_escRe_cons c s)
    as [[_ ->]|[[_ ->]|[[_ ->]|[[_ ->]|[[_ ->]|(Hc & _ & _ & ->)]]]]];
    cbv [String.append]; simpl; intros [H1 H2]%Forall_cons; try discriminate H1.
  constructor; [done|]. by apply IH.
Qed.

(** X19. The text escHtml returns contains no angle bracket, no double
    quote and no apostrophe, whatever value it is given. *)
Theorem escHtml_output_safe (s : value) :
  Forall (λ c, c ∉ ["<"%char; ">"%char; dquote; "'"%char]) (chars (escHtml s)).
Proof.
  unfold escHtml. eapply Forall_impl; [apply replace_escRe_safe|].
  intros c Hc Hin. apply Hc. unfold html_special.
  rewrite !elem_of_cons in Hin. destruct Hin as [?|[?|[?|[?|Hin]]]]; auto.
  by apply elem_of_nil in Hin.
Qed.

(** X20. escHtml loses nothing and works piece by piece: two strings with
    the same escaped text are the same string, and the escaped text of a
    concatenation is the concatenation of the escaped texts. *)
Theorem escHtml_injective (s t : string) :
  (escHtml (VStr s) = escHtml (VStr t) ↔ s = t)
  ∧ escHtml (VStr (s +:+ t)) = escHtml (VStr s) +:+ escHtml (VStr t).
Proof.
  unfold escHtml. cbn [to_String]. split; [split|].
  - apply replace_escRe_inj.
  - by intros ->.
  - apply replace_escRe_app.
Qed.

(** X21. escHtml is not idempotent: it returns its argument unchanged
    exactly when the string contains none of the five characters, and
    escaping an escaped text once more changes it in every other case
    (the ampersand of each entity is escaped again). *)
Theorem escHtml_twice (s : string) :
  (escHtml (VStr s) = s ↔ plain_text s)
  ∧ (escHtml (VStr (escHtml (VStr s))) = escHtml (VStr s) ↔ plain_text s).
Proof.
  unfold escHtml. cbn [to_String]. split; split.
  - apply replace_escRe_fixed.
  - apply replace_escRe_plain.
  - intros H. by apply replace_escRe_plain_inv, replace_escRe_fixed.
  - intros H. by rewrite !(replace_escRe_plain s H).
Qed.

(** ** resolvePath *)

(** [path.split('.')]: the pieces between the dots; there is always at
    least one, and the empty path has the one piece [""] *)
Fixpoint split_dot (path : string) : list string :=
  match path with
  | EmptyString => [EmptyString]
  | String c r =>
      if decide (c = "."%char) then EmptyString :: split_dot r
      else match split_dot r with
           | k :: ks => String c k :: ks
           | [] => [String c EmptyString]
           end
  end.

Section resolvePath.

(** [o[k]] for a value [o] that is neither [null] nor [undefined]: own
    properties, the prototype chain and the indices of a string are the
    environment's; the read is assumed not to run a getter that throws. *)
Variable get_prop : value → string → value.

Definition resolve_step (o : value) (k : string) : value :=
  if not_nullish o then get_prop o k else VUndefined.

Definition resolvePath (obj : value) (path : string) : value :=
  fold_left resolve_step (split_dot path) obj.

End resolvePath.

Lemma split_dot_cons path : ∃ k ks, split_dot path = k :: ks.
Proof.
  induction path as [|c r (k & ks & IH)]; simpl; [by eexists _, _|].
  case_decide; [by eexists _, _|]. rewrite IH. by eexists _, _.
Qed.

Lemma split_dot_app p q :
  split_dot (p +:+ "." +:+ q) = split_dot p ++ split_dot q.
Proof.
  induction p as [|c r IH]; [done|]. rewrite append_cons. simpl.
  case_decide; [by rewrite IH|]. rewrite IH.
  by destruct (split_dot_cons r) as (k & ks & ->).
Qed.

Lemma split_dot_plain p : "."%char ∉ chars p → split_dot p = [p].
Proof.
  induction p as [|c r IH]; [done|]. simpl. intros [Hc Hr]%not_elem_of_cons.
  rewrite decide_False by done. by rewrite IH.
Qed.

Lemma split_dot_pieces p : Forall (λ k, "."%char ∉ chars k) (split_dot p).
Proof.
  induction p as [|c r IH]; simpl.
  - constructor; [|constructor]. apply not_elem_of_nil.
  - case_decide as Hc.
    + constructor; [apply not_elem_of_nil | done].
    + destruct (split_dot r) as [|k ks].
      * constructor; [|done]. simpl. apply not_elem_of_cons. split; [done|apply not_elem_of_nil].
      * apply Forall_cons in IH as [Hk Hks]. constructor; [|done].
        simpl. by apply not_elem_of_cons.
Qed.

(** joining the pieces with dots gives the path back *)
Lemma split_dot_join p : String.concat "." (split_dot p) = p.
Proof.
  induction p as [|c r IH]; [done|].
  destruct (split_dot_cons r) as (k & ks & E).
  cbn [split_dot]. rewrite E in IH |- *. case_decide as Hc.
  - subst c. change (String.concat "." ("" :: k :: ks))
      with (String "." (String.concat "." (k :: ks))). by rewrite IH.
  - destruct ks as [|k' ks]; [cbn in *; by rewrite IH|]. 
    change (String.concat "." (String c k :: k' :: ks))
      with (String c (String.concat "." (k :: k' :: ks))). by rewrite IH.
Qed.

Lemma resolve_from_nullish get_prop o ks :
  not_nullish o = false →
  fold_left (resolve_step get_prop) ks o = match ks with [] => o | _ => VUndefined end.
Proof.
  revert o. induction ks as [|k ks IH]; intros o Ho; [done|].
  simpl. unfold resolve_step at 2. rewrite Ho. rewrite IH by done. by destruct ks.
Qed.

(** X22. A dotted path is resolved piece by piece: resolving [p.q] is
    resolving [q] from the value that [p] resolves to.  From [null] or
    [undefined] every path resolves to [undefined]. *)
Theorem resolvePath_compose (get_prop : value → string → value) (obj : value)
    (p q : string) :
  resolvePath get_prop obj (p +:+ "." +:+ q)
  = resolvePath get_prop (resolvePath get_prop obj p) q
  ∧ resolvePath get_prop VNull q = VUndefined
  ∧ resolvePath get_prop VUndefined q = VUndefined.
Proof.
  unfold resolvePath. split; [|split].
  - by rewrite split_dot_app, fold_left_app.
  - rewrite resolve_from_nullish by done. by destruct (split_dot_cons q) as (k & ks & ->).
  - rewrite resolve_from_nullish by done. by destruct (split_dot_cons q) as (k & ks & ->).
Qed.

(** X23. A path without a dot is one property read, of the property
    named by the whole path; the empty path reads the property with the
    empty name and does not give the object itself. *)
Theorem resolvePath_plain (get_prop : value → string → value) (obj : value)
    (p : string) :
  "."%char ∉ chars p →
  resolvePath get_prop obj p = if not_nullish obj then get_prop obj p else VUndefined.
Proof. intros Hp. unfold resolvePath. by rewrite split_dot_plain. Qed.

Lemma resolvePath_plain_witness :
  resolvePath (λ _ k, VStr k) (VObj 0) "" = VStr "".
Proof.
  apply (resolvePath_plain (λ _ k, VStr k) (VObj 0) "").
  apply not_elem_of_nil.
Defined.

(** X24. resolvePath never reads a property whose name contains a dot:
    two ways of reading properties that agree on the names without a dot
    give the same result for every object and path.  So the entry that
    [#each] stores under the name of the single dot for an item that is
    not an object cannot be reached through a path. *)
Theorem resolvePath_no_dotted_name (get1 get2 : value → string → value)
    (obj : value) (path : string) :
  (∀ o k, "."%char ∉ chars k → get1 o k = get2 o k) →
  resolvePath get1 obj path = resolvePath get2 obj path.
Proof.
  intros Hget. unfold resolvePath.
  pose proof (split_dot_pieces path) as Hks. revert obj.
  induction Hks as [|k ks Hk Hks IH]; intros obj; [done|].
  simpl. unfold resolve_step at 2 4. rewrite (Hget obj k Hk). apply IH.
Qed.

Lemma resolvePath_no_dotted_name_witness :
  resolvePath (λ _ k, if decide (k = ".") then VNum 1 else VUndefined) (VObj 0) "."
  = resolvePath (λ _ _, VUndefined) (VObj 0) ".".
Proof.
  apply (resolvePath_no_dotted_name
           (λ _ k, if decide (k = ".") then VNum 1 else VUndefined)
           (λ _ _, VUndefined) (VObj 0) ".").
  intros o k Hk. case_decide as E; [|done].
  subst k. exfalso. apply Hk. simpl. apply list_elem_of_here.
Defined.

(** * Section 4: the hash router *)

Module Router.

(** [\w] *)
Definition is_word (c : ascii) : bool :=
  let n := nat_of_ascii c in
  (((48 <=? n) && (n <=? 57)) || ((65 <=? n) && (n <=? 90))
   || ((97 <=? n) && (n <=? 122)) || (n =? 95))%nat.

(** the colon of a named parameter or the star of a splat *)
Definition is_marker (c : ascii) : bool :=
  bool_decide (c = ":"%char) || bool_decide (c = "*"%char).

(** [\w+] at the head of [s]: the longest run of word characters *)
Fixpoint word_prefix (s : string) : string :=
  match s with
  | EmptyString => EmptyString
  | String c r => if is_word c then String c (word_prefix r) else EmptyString
  end.

(** [paramNames]: the global pattern matches a marker followed by the
    longest run of one or more word characters. A marker is no word
    character, so no match contains the start of another one, and the
    matches are exactly the markers that a word character follows; the
    callback pushes the run, which is never empty. *)
Fixpoint paramNames (pattern : string) : list string :=
  match pattern with
  | EmptyString => []
  | String c r =>
      match word_prefix r with
      | String _ _ as name => if is_marker c then name :: paramNames r else paramNames r
      | EmptyString => paramNames r
      end
  end.

(** [m[i]] of a match array *)
Definition group (m : list value) (i : nat) : value := default VUndefined (m !! i).

(** [names.forEach(function (name, idx) { params[name] = m[idx + 1]; })],
    from index [idx] on *)
Fixpoint set_params (names : list string) (idx : nat) (m : list value)
    (params : list (string * value)) : list (string * value) :=
  match names with
  | [] => params
  | name :: rest => set_params rest (S idx) m (alist_set name (group m (S idx)) params)
  end.

Section routes.

(** Regular expressions and their matching are the engine's: [toRegex]
    gives the expression built for a pattern, or nothing when
    [new RegExp] throws a SyntaxError; [exec re frag] is [frag.match(re)],
    the match array or nothing for [null]. *)
Context {regex : Type}.
Variable toRegex : string → option regex.
Variable exec : regex → string → option (list value).

Record route := Route {
  r_pattern : string;
  r_re : regex;
  r_names : list string;
  r_handler : nat;
}.

(** [add]; the table is unchanged when [toRegex] throws *)
Definition add (pattern : string) (handler : nat) (routes : list route)
  : option (list route) :=
  re ← toRegex pattern;
  Some (routes ++ [Route pattern re (paramNames pattern) handler]).

(** [remove] *)
Definition remove (pattern : string) (routes : list route) : list route :=
  filter (λ r, r_pattern r ≠ pattern) routes.

(** [dispatch] on the fragment [frag]: the handler it calls and the
    params it passes (it then returns [true]), or nothing (it returns
    [false]) *)
Fixpoint dispatch (routes : list route) (frag : string)
  : option (nat * list (string * value)) :=
  match routes with
  | [] => None
  | r :: rest =>
      match exec (r_re r) frag with
      | Some m => Some (r_handler r, set_params (r_names r) 0 m [])
      | None => dispatch rest frag
      end
  end.

(** the tables that [add] and [remove] build from the empty one *)
Inductive built : list route → Prop :=
| built_nil : built []
| built_add pattern handler routes routes' :
    built routes → add pattern handler routes = Some routes' → built routes'
| built_remove pattern routes :
    built routes → built (remove pattern routes).

Definition added (r : route) : Prop :=
  toRegex (r_pattern r) = Some (r_re r) ∧ r_names r = paramNames (r_pattern r).

End routes.

End Router.

Lemma word_prefix_words s : Forall (λ c, Router.is_word c = true) (chars (Router.word_prefix s)).
Proof.
  induction s as [|c r IH]; simpl; [constructor|].
  destruct (Router.is_word c) eqn:E; simpl; [by constructor | constructor].
Qed.

(** X25. Every name paramNames returns is a run of one or more word
    characters. *)
Theorem paramNames_words (pattern : string) :
  Forall (λ name, name ≠ "" ∧ Forall (λ c, Router.is_word c = true) (chars name))
         (Router.paramNames pattern).
Proof.
  induction pattern as [|c r IH]; simpl; [constructor|].
  pose proof (word_prefix_words r) as Hw.
  destruct (Router.word_prefix r) as [|a w]; [done|].
  destruct (Router.is_marker c); [|done]. by constructor.
Qed.

(** *** Patterns written piece by piece *)

Inductive piece := Lit (s : string) | Param (name : string) | Splat (name : string).

Definition piece_text (p : piece) : string :=
  match p with
  | Lit s => s
  | Param name => String ":" name
  | Splat name => String "*" name
  end.

Fixpoint pattern_of (ps : list piece) : string :=
  match ps with
  | [] => ""
  | p :: rest => piece_text p +:+ pattern_of rest
  end.

Definition piece_name (p : piece) : option string :=
  match p with
  | Lit _ => None
  | Param name | Splat name => Some name
  end.

Definition word (name : string) : Prop :=
  name ≠ "" ∧ Forall (λ c, Router.is_word c = true) (chars name).

(** literal text has no colon and no star; a name is a word, and what
    follows it does not go on with a word character *)
Fixpoint well_formed (ps : list piece) : Prop :=
  match ps with
  | [] => True
  | Lit s :: rest =>
      Forall (λ c, Router.is_marker c = false) (chars s) ∧ well_formed rest
  | Param name :: rest | Splat name :: rest =>
      word name ∧ Router.word_prefix (pattern_of rest) = "" ∧ well_formed rest
  end.

Lemma is_word_not_marker c : Router.is_word c = true → Router.is_marker c = false.
Proof.
  unfold Router.is_marker. intros Hc.
  destruct (bool_decide_reflect (c = ":"%char)) as [->|_]; [done|].
  destruct (bool_decide_reflect (c = "*"%char)) as [->|_]; done.
Qed.

Lemma paramNames_skip s t :
  Forall (λ c, Router.is_marker c = false) (chars s) →
  Router.paramNames (s +:+ t) = Router.paramNames t.
Proof.
  induction s as [|c r IH]; [done|]. rewrite append_cons. simpl.
  intros [Hc Hr]%Forall_cons. rewrite Hc, IH by done.
  by destruct (Router.word_prefix (r +:+ t)).
Qed.

Lemma word_prefix_app name t :
  Forall (λ c, Router.is_word c = true) (chars name) →
  Router.word_prefix (name +:+ t) = name +:+ Router.word_prefix t.
Proof.
  induction name as [|c r IH]; [done|]. rewrite !append_cons. simpl.
  intros [Hc Hr]%Forall_cons. by rewrite Hc, IH.
Qed.

Lemma append_empty_r s : s +:+ "" = s.
Proof. induction s as [|c r IH]; [done|]. rewrite append_cons. by f_equal. Qed.

Lemma paramNames_marked c name t :
  Router.is_marker c = true → word name → Router.word_prefix t = "" →
  Router.paramNames (String c (name +:+ t)) = name :: Router.paramNames t.
Proof.
  intros Hc [Hne Hw] Ht. simpl.
  rewrite word_prefix_app, Ht, append_empty_r, Hc by done.
  rewrite paramNames_skip.
  - by destruct name.
  - eapply Forall_impl; [done|]. apply is_word_not_marker.
Qed.

(** X26. The names come out in the order in which the parameters are
    written: for a pattern written as literal text, named parameters and
    splats, paramNames returns the names of the parameters and splats,
    from left to right. *)
Theorem paramNames_of_pieces (ps : list piece) :
  well_formed ps → Router.paramNames (pattern_of ps) = omap piece_name ps.
Proof.
  induction ps as [|p rest IH]; [done|]. destruct p as [s|name|name].
  - intros [Hs Hrest]. change (pattern_of (Lit s :: rest)) with (s +:+ pattern_of rest).
    rewrite paramNames_skip by done. by apply IH.
  - intros (Hw & Ht & Hrest).
    change (pattern_of (Param name :: rest)) with (String ":" (name +:+ pattern_of rest)).
    change (omap piece_name (Param name :: rest)) with (name :: omap piece_name rest).
    rewrite paramNames_marked by done. f_equal. by apply IH.
  - intros (Hw & Ht & Hrest).
    change (pattern_of (Splat name :: rest)) with (String "*" (name +:+ pattern_of rest)).
    change (omap piece_name (Splat name :: rest)) with (name :: omap piece_name rest).
    rewrite paramNames_marked by done. f_equal. by apply IH.
Qed.

Lemma paramNames_of_pieces_witness :
  Router.paramNames "/posts/:id/*rest" = ["id"; "rest"].
Proof.
  apply (paramNames_of_pieces [Lit "/posts/"; Param "id"; Lit "/"; Splat "rest"]).
  unfold well_formed, word. repeat split; try done; vm_compute; repeat constructor.
Defined.

(** *** Params *)

Lemma set_params_other name names idx m params :
  name ∉ names →
  alist_get name (Router.set_params names idx m params) = alist_get name params.
Proof.
  revert idx params. induction names as [|n rest IH]; intros idx params; [done|].
  intros [Hn Hrest]%not_elem_of_cons. simpl. rewrite IH by done.
  by apply alist_get_set_ne.
Qed.

Lemma set_params_last names idx m params i name :
  names !! i = Some name → name ∉ drop (S i) names →
  alist_get name (Router.set_params names idx m params)
  = Some (Router.group m (S (idx + i))).
Proof.
  revert idx params i. induction names as [|n rest IH]; intros idx params i; [done|].
  destruct i as [|i]; simpl.
  - intros [= ->] Hlast. rewrite drop_0 in Hlast.
    rewrite set_params_other by done. rewrite alist_get_set_eq.
    by rewrite Nat.add_0_r.
  - intros Hi Hlast. rewrite (IH (S idx) _ i) by done. do 3 f_equal. lia.
Qed.

(** X27. The params object that dispatch builds for a match [m]: a name
    that stands at position [i] of the route's names, and at no later
    one, is bound to group [i + 1] of the match, so that a name written
    twice in a pattern keeps the value of its last parameter; names that
    are not in the list are not bound.  As everywhere in this file, the
    object is read as a dictionary: the names are taken not to be members
    of [Object.prototype] (a parameter called [__proto__] would not be
    stored). *)
Theorem dispatch_params_last (names : list string) (m : list value) (i : nat)
    (name : string) :
  names !! i = Some name → name ∉ drop (S i) names →
  alist_get name (Router.set_params names 0 m []) = Some (Router.group m (S i))
  ∧ ∀ other, other ∉ names → alist_get other (Router.set_params names 0 m []) = None.
Proof.
  intros Hi Hlast. split.
  - by rewrite (set_params_last names 0 m [] i name).
  - intros other Ho. by rewrite set_params_other.
Qed.

Lemma dispatch_params_last_witness :
  alist_get "id"
    (Router.set_params ["id"; "tab"; "id"] 0 [VStr "7/x/9"; VStr "7"; VStr "x"; VStr "9"] [])
  = Some (Router.group [VStr "7/x/9"; VStr "7"; VStr "x"; VStr "9"] 3)
  ∧ ∀ other, other ∉ ["id"; "tab"; "id"] →
      alist_get other
        (Router.set_params ["id"; "tab"; "id"] 0
           [VStr "7/x/9"; VStr "7"; VStr "x"; VStr "9"] []) = None.
Proof.
  apply (dispatch_params_last ["id"; "tab"; "id"]
           [VStr "7/x/9"; VStr "7"; VStr "x"; VStr "9"] 2 "id").
  - reflexivity.
  - simpl. apply not_elem_of_nil.
Defined.

(** *** The table of routes *)

Section route_facts.
Context {regex : Type}.
Variable toRegex : string → option regex.
Variable exec : regex → string → option (list value).

Implicit Types routes : list (@Router.route regex).

Lemma dispatch_app routes1 routes2 frag :
  Router.dispatch exec (routes1 ++ routes2) frag
  = match Router.dispatch exec routes1 frag with
    | Some call => Some call
    | None => Router.dispatch exec routes2 frag
    end.
Proof.
  induction routes1 as [|r rest IH]; [done|]. simpl.
  by destruct (exec (Router.r_re r) frag).
Qed.

Lemma dispatch_None routes frag :
  Router.dispatch exec routes frag = None ↔
  Forall (λ r, exec (Router.r_re r) frag = None) routes.
Proof.
  induction routes as [|r rest IH]; simpl.
  - split; [constructor|done].
  - rewrite Forall_cons. destruct (exec (Router.r_re r) frag); naive_solver.
Qed.

Lemma built_added routes :
  Router.built toRegex routes → Forall (Router.added toRegex) routes.
Proof.
  induction 1 as [|pattern handler routes routes' _ IH Hadd|pattern routes _ IH].
  - constructor.
  - unfold Router.add in Hadd. destruct (toRegex pattern) as [re|] eqn:E; [|done].
    injection Hadd as <-. apply Forall_app. split; [done|].
    constructor; [|constructor]. by split.
  - rewrite Forall_forall in IH |- *. intros r Hr.
    apply list_elem_of_filter in Hr as [_ Hr]. by apply IH.
Qed.

(** X28. A pattern that is in the table shadows every later route for
    the same pattern: after adding the pattern again, dispatch does for
    every fragment what it did before, and the new handler is never
    called. *)
Theorem add_same_pattern_shadowed (pattern : string) (handler : nat)
    routes routes' (frag : string) :
  Router.built toRegex routes →
  pattern ∈ Router.r_pattern <$> routes →
  Router.add toRegex pattern handler routes = Some routes' →
  Router.dispatch exec routes' frag = Router.dispatch exec routes frag.
Proof.
  intros Hb Hin Hadd. apply built_added in Hb.
  unfold Router.add in Hadd. destruct (toRegex pattern) as [re|] eqn:E; [|done].
  injection Hadd as <-. rewrite dispatch_app.
  destruct (Router.dispatch exec routes frag) as [call|] eqn:Hd; [done|].
  apply dispatch_None in Hd.
  apply list_elem_of_fmap in Hin as (r & -> & Hr).
  rewrite Forall_forall in Hb, Hd.
  destruct (Hb r Hr) as [Hre _]. rewrite E in Hre. injection Hre as ->.
  simpl. by rewrite (Hd r Hr).
Qed.

End route_facts.

Lemma remove_absent {regex : Type} (pattern : string)
    (routes : list (@Router.route regex)) :
  pattern ∉ Router.r_pattern <$> routes → Router.remove pattern routes = routes.
Proof.
  unfold Router.remove. induction routes as [|r rest IH]; [done|].
  rewrite fmap_cons. intros [Hr Hrest]%not_elem_of_cons.
  rewrite filter_cons_True by (cbv beta; congruence). f_equal. by apply IH.
Qed.

(** X29. remove takes out every route of the pattern, whoever added
    it, and leaves the other routes in their order: removing a pattern
    after adding it gives the table that removing it before gives, which
    is the table itself when the pattern was not in it. *)
Theorem remove_after_add {regex : Type} (toRegex : string → option regex)
    (pattern : string) (handler : nat) (routes routes' : list (@Router.route regex)) :
  Router.add toRegex pattern handler routes = Some routes' →
  Router.remove pattern routes' = Router.remove pattern routes
  ∧ (pattern ∉ Router.r_pattern <$> Router.remove pattern routes')
  ∧ (pattern ∉ Router.r_pattern <$> routes → Router.remove pattern routes' = routes).
Proof.
  intros Hadd. unfold Router.add in Hadd.
  destruct (toRegex pattern) as [re|] eqn:E; [|done]. injection Hadd as <-.
  assert (Router.remove pattern
            (routes ++ [Router.Route pattern re (Router.paramNames pattern) handler])
          = Router.remove pattern routes) as Hrm.
  { unfold Router.remove. rewrite filter_app.
    rewrite filter_cons_False by (cbv beta; simpl; naive_solver).
    rewrite filter_nil. apply app_nil_r. }
  rewrite Hrm. split; [done|]. split.
  - intros (r & Hp & Hr)%list_elem_of_fmap. unfold Router.remove in Hr.
    apply list_elem_of_filter in Hr as [Hne _]. by apply Hne.
  - apply remove_absent.
Qed.


Module Blog.

(** an engine for patterns without parameters: the pattern itself, which
    matches the fragment that is equal to it *)
Definition toRegex (pattern : string) : option string := Some pattern.

Definition exec (re frag : string) : option (list value) :=
  if decide (re = frag) then Some [VStr frag] else None.

Definition routes : list (@Router.route string) :=
  [Router.Route "about" "about" [] 1].

Definition routes' : list (@Router.route string) :=
  [Router.Route "about" "about" [] 1; Router.Route "about" "about" [] 2].

End Blog.

Lemma add_same_pattern_shadowed_witness :
  Router.dispatch Blog.exec Blog.routes' "about"
  = Router.dispatch Blog.exec Blog.routes "about".
Proof.
  apply (add_same_pattern_shadowed Blog.toRegex Blog.exec "about" 2
           Blog.routes Blog.routes' "about").
  - apply (Router.built_add Blog.toRegex "about" 1 [] Blog.routes).
    + apply Router.built_nil.
    + reflexivity.
  - vm_compute. apply list_elem_of_here.
  - reflexivity.
Defined.

Lemma remove_after_add_witness :
  Router.remove "about" Blog.routes' = Router.remove "about" Blog.routes
  ∧ ("about" ∉ Router.r_pattern <$> Router.remove "about" Blog.routes')
  ∧ ("about" ∉ Router.r_pattern <$> Blog.routes →
     Router.remove "about" Blog.routes' = Blog.routes).
Proof.
  apply (remove_after_add Blog.toRegex "about" 2 Blog.routes Blog.routes').
  reflexivity.
Defined.
